(** * Cellular game: cells, cell nets and grids

    A shallow embedding of [cellularGame/cell/cellNet.py] (classes [CellNet],
    [simpleCellTriangle], [CellGrid], [BooleanCellGrid]) together with a model
    of the cell classes it imports from [cell.py], and of the viewers of
    [cellularGame/CellViewerController.py], which [tick] notifies.

    Python objects live in a store: a cell is an address into a list of cell
    records, an attribute assignment updates the record at that address, and
    two references are the same object exactly when the addresses are equal.
    A computation that may raise is a partial state transformer. *)

From Stdlib Require Import ZArith Lia.
From stdpp Require Import base option list numbers strings pretty.

Local Open Scope Z_scope.

(** ** A state and error monad *)

Definition SE (S A : Type) : Type := S -> option (A * S).

Definition ret {S A} (a : A) : SE S A := fun s => Some (a, s).

Definition bind {S A B} (m : SE S A) (k : A -> SE S B) : SE S B :=
  fun s => match m s with
           | Some (a, s') => k a s'
           | None => None
           end.

(** An operation that either yields a value or raises, and leaves the state alone. *)
Definition lift {S A} (o : option A) : SE S A :=
  fun s => match o with
           | Some a => Some (a, s)
           | None => None
           end.

Declare Scope se_scope.
Delimit Scope se_scope with se.
Notation "x <- m ;; k" := (bind m (fun x => k))
  (at level 100, m at next level, right associativity) : se_scope.
Notation "m ;;; k" := (bind m (fun _ => k))
  (at level 100, right associativity) : se_scope.
Local Open Scope se_scope.

(** [[ f x for x in l ]]: a list comprehension whose body has effects. *)
Fixpoint traverse {S A B} (f : A -> SE S B) (l : list A) : SE S (list B) :=
  match l with
  | [] => ret []
  | x :: l' => y <- f x ;; ys <- traverse f l' ;; ret (y :: ys)
  end.

(** [for x in l: f x] *)
Fixpoint for_each {S A} (l : list A) (f : A -> SE S unit) : SE S unit :=
  match l with
  | [] => ret tt
  | x :: l' => f x ;;; for_each l' f
  end.

(** ** Python lists and ranges *)

(** [range(n)] *)
Definition range (n : Z) : list Z := map Z.of_nat (seq 0 (Z.to_nat n)).

(** [l[i]]: a negative index counts from the end, an index out of range raises. *)
Definition getitem {A} (l : list A) (i : Z) : option A :=
  if 0 <=? i then l !! Z.to_nat i
  else if - Z.of_nat (length l) <=? i then l !! Z.to_nat (Z.of_nat (length l) + i)
  else None.

(** [l.pop()] on the list [l]: the last item and the list without it;
    raises on the empty list. *)
Fixpoint pop_last {A} (l : list A) : option (A * list A) :=
  match l with
  | [] => None
  | x :: l' =>
      match l' with
      | [] => Some (x, [])
      | _ :: _ => match pop_last l' with
                  | Some (y, r) => Some (y, x :: r)
                  | None => None
                  end
      end
  end.

(** The two methods as operations on a list object, which is the state. *)
Definition reverse {A} : SE (list A) unit := fun l => Some (tt, rev l).
Definition pop {A} : SE (list A) A := fun l => pop_last l.

(** ** Cells *)

Inductive CellKind : Type := KBase | KInteger | KBoolean.

(** A cell state: [None] for a base cell, an integer or a boolean. *)
Inductive value : Type :=
| VNone
| VInt (z : Z)
| VBool (b : bool).

(** An identity is a label or, for the cells of a grid, the tuple [(row, col)]. *)
Inductive ident : Type :=
| Name (s : string)
| RowCol (row col : Z).

(** A reference to a cell object: its address in the store. *)
Abbreviation ref := nat.

Record Cell : Type := mkCell {
  kind : CellKind;
  identity : ident;
  state : value;
  generation : Z;
  neighbors : list (option ref);
  ancestor : option ref;
  descendant : option ref
}.

Abbreviation heap := (list Cell).

Definition with_state (v : value) (c : Cell) : Cell :=
  mkCell (kind c) (identity c) v (generation c) (neighbors c) (ancestor c) (descendant c).
Definition with_neighbors (ns : list (option ref)) (c : Cell) : Cell :=
  mkCell (kind c) (identity c) (state c) (generation c) ns (ancestor c) (descendant c).
Definition with_descendant (d : option ref) (c : Cell) : Cell :=
  mkCell (kind c) (identity c) (state c) (generation c) (neighbors c) (ancestor c) d.

(** Reading an object, creating one, and assigning to its attributes. *)
Definition read {A} (f : heap -> option A) : SE heap A := fun h => lift (f h) h.
Definition get (r : ref) : SE heap Cell := read (fun h => h !! r).
Definition alloc (c : Cell) : SE heap ref := fun h => Some (length h, h ++ [c]).
Definition assign (r : ref) (f : Cell -> Cell) : SE heap unit :=
  fun h => match h !! r with
           | Some c => Some (tt, <[r := f c]> h)
           | None => None
           end.

(** [x.attr] where [x] may be [None]: that raises. *)
Definition deref (h : heap) (n : option ref) : option Cell := r ← n; h !! r.

(** Truth value and integer value of a state, as Python sees them;
    [None] is not a number. *)
Definition truthy (v : value) : bool :=
  match v with
  | VNone => false
  | VInt z => negb (z =? 0)
  | VBool b => b
  end.

Definition as_int (v : value) : option Z :=
  match v with
  | VNone => None
  | VInt z => Some z
  | VBool b => Some (if b then 1 else 0)
  end.

(** [sum(vs)] *)
Fixpoint sum_states (vs : list value) : option Z :=
  match vs with
  | [] => Some 0
  | v :: vs' =>
      match as_int v, sum_states vs' with
      | Some z, Some s => Some (z + s)
      | _, _ => None
      end
  end.

(** Modelled from the spec: the constructors of [cell.py], which is not among
    the sources. A new cell has generation 0, no neighbors, no ancestor and no
    descendant (testBaseCellCreation); an integer cell defaults to state 0 and
    a boolean cell to false. *)
Definition new_cell (k : CellKind) (i : ident) (v : value) : Cell :=
  mkCell k i v 0 [] None None.
Definition BaseCell (i : ident) : SE heap ref := alloc (new_cell KBase i VNone).
Definition IntegerCell (i : ident) (st : option Z) : SE heap ref :=
  alloc (new_cell KInteger i (VInt (default 0 st))).
Definition BooleanCell (i : ident) (st : option bool) : SE heap ref :=
  alloc (new_cell KBoolean i (VBool (default false st))).

(** Modelled from the spec: [addNeighbor] of [cell.py]; appends, without
    de-duplication. *)
Definition addNeighbor (self other : ref) : SE heap unit :=
  assign self (fun c => with_neighbors (neighbors c ++ [Some other]) c).

(** [[ n.state for n in ns ]], read in a given store. *)
Definition neighbor_states (h : heap) (ns : list (option ref)) : option (list value) :=
  mapM (fun n => state <$> deref h n) ns.

(** The regeneration rule of a cell evaluated in a store: the sum of the
    neighbor states for an integer cell, the toggled own state for a boolean
    cell, whatever the neighbors; a base cell has no rule and keeps its state. *)
Definition regenerate (h : heap) (c : Cell) : option value :=
  match kind c with
  | KBase => Some (state c)
  | KInteger => vs ← neighbor_states h (neighbors c); VInt <$> sum_states vs
  | KBoolean => Some (VBool (negb (truthy (state c))))
  end.

(** Modelled from the spec: [mutate] of [cell.py]. Without a parameter the
    state becomes what the rule of the cell kind gives on the current neighbor
    states; an explicit state overrides the rule. Only [state] changes. *)
Definition mutate (self : ref) (param : option value) : SE heap unit :=
  match param with
  | Some v => assign self (with_state v)
  | None =>
      c <- get self ;;
      v <- read (fun h => regenerate h c) ;;
      assign self (with_state v)
  end.

(** Modelled from the spec: [clone] of [cell.py]. The new cell is of the same
    kind, one generation on, with the ancestor set, no descendant, the state
    copied, no neighbors, and the identity given or else inherited; the
    descendant link of [self] is set to it. The spec records that the source
    does this also when [self] already has a descendant, overwriting the
    link. *)
Definition clone (self : ref) (newIdentity : option ident) : SE heap ref :=
  c <- get self ;;
  new <- alloc (mkCell (kind c) (default (identity c) newIdentity) (state c)
                       (generation c + 1) [] (Some self) None) ;;
  assign self (with_descendant (Some new)) ;;;
  ret new.

(** Modelled from the spec: [nextGen] of [cell.py]: [clone], then [mutate] on
    the clone. The rule is applied to the states of the neighbors of [self]
    (testIntegerCell: the next generation of a cell with neighbor states 10, 1
    and 5 has state 16), and [CellNet.tick] afterwards replaces each neighbor
    the new cell holds by that neighbor's descendant, so the new cell takes
    over the neighbor references of [self] before its rule is applied. *)
Definition nextGen (self : ref) (newIdentity : option ident) : SE heap ref :=
  new <- clone self newIdentity ;;
  c <- get self ;;
  assign new (with_neighbors (neighbors c)) ;;;
  mutate new None ;;;
  ret new.

(** The cell [nextGen] derives from [cell], the object at [self], when the
    rule of [cell] gives [v]. *)
Definition next_cell (self : ref) (cell : Cell) (v : value) : Cell :=
  mkCell (kind cell) (identity cell) v (generation cell + 1) (neighbors cell) (Some self) None.

(** ** Cell nets *)

(** A net after construction: the plain nets ([CellNet], [simpleCellTriangle])
    keep a list of cells, the grids ([CellGrid], [BooleanCellGrid]) an array
    of rows together with their dimensions. *)
Inductive CellNet : Type :=
| FlatNet (cells : list ref) (gen : Z)
| GridNet (rows cols : Z) (cells : list (list ref)) (gen : Z).

Definition net_generation (net : CellNet) : Z :=
  match net with
  | FlatNet _ g => g
  | GridNet _ _ _ g => g
  end.

(** [CellGrid.toList]: row-major, indexing [self.cells[row][col]]. *)
Definition CellGrid_toList (rows cols : Z) (cells : list (list ref)) : option (list ref) :=
  @concat ref <$>
    mapM (fun row => mapM (fun col => r ← getitem cells row; getitem r col) (range cols))
         (range rows).

(** [CellGrid.fromList], acting on the list object it is given: the list is
    reversed in place and then popped once per grid position, row by row. *)
Definition CellGrid_fromList (rows cols : Z) : SE (list ref) (list (list ref)) :=
  reverse ;;;
  traverse (fun _ : Z => traverse (fun _ : Z => pop) (range cols)) (range rows).

(** [toList] of the net, by class: a plain net hands out its own list. *)
Definition toList (net : CellNet) : option (list ref) :=
  match net with
  | FlatNet cells _ => Some cells
  | GridNet rows cols cells _ => CellGrid_toList rows cols cells
  end.

(** The eight compass points around [(row, col)], in the order in which
    [CellGrid.setupNeighbors] collects them; [None] where the grid ends. *)
Definition compass (rows cols row col : Z) : list (option (Z * Z)) :=
  let nw := if (0 <? row) && (0 <? col) then Some (row - 1, col - 1) else None in
  let n := if 0 <? row then Some (row - 1, col) else None in
  let ne := if (0 <? row) && (col <? cols - 1) then Some (row - 1, col + 1) else None in
  let e := if col <? cols - 1 then Some (row, col + 1) else None in
  let se := if (row <? rows - 1) && (col <? cols - 1) then Some (row + 1, col + 1) else None in
  let s := if row <? rows - 1 then Some (row + 1, col) else None in
  let sw := if (row <? rows - 1) && (0 <? col) then Some (row + 1, col - 1) else None in
  let w := if 0 <? col then Some (row, col - 1) else None in
  [n; ne; e; se; s; sw; w; nw].

(** [self.cells[row][col]] *)
Definition cell_at (cells : list (list ref)) (p : Z * Z) : option ref :=
  r ← getitem cells p.1; getitem r p.2.

(** [CellGrid.setupNeighbors] *)
Definition CellGrid_setupNeighbors (rows cols : Z) (cells : list (list ref)) : SE heap unit :=
  for_each (range rows) (fun row =>
    for_each (range cols) (fun col =>
      ns <- lift (mapM (cell_at cells) (omap id (compass rows cols row col))) ;;
      cell <- lift (cell_at cells (row, col)) ;;
      assign cell (with_neighbors (Some <$> ns)))).

(** [simpleCellTriangle.setupNeighbors] *)
Definition simpleCellTriangle_setupNeighbors (cells : list ref) : SE heap unit :=
  b <- lift (getitem cells 1) ;; c <- lift (getitem cells 2) ;;
  a <- lift (getitem cells 0) ;;
  assign a (with_neighbors [Some b; Some c]) ;;;
  a <- lift (getitem cells 0) ;; c <- lift (getitem cells 2) ;;
  b <- lift (getitem cells 1) ;;
  assign b (with_neighbors [Some a; Some c]) ;;;
  a <- lift (getitem cells 0) ;; b <- lift (getitem cells 1) ;;
  c <- lift (getitem cells 2) ;;
  assign c (with_neighbors [Some a; Some b]).

(** The constructors: [CellNet()], [simpleCellTriangle(listOfCells)],
    [CellGrid(rows, cols)] and [BooleanCellGrid(rows, cols)]; the two grids
    differ in [makeCell]. *)
Definition CellNet_init : SE heap CellNet := ret (FlatNet [] 0).

Definition simpleCellTriangle (listOfCells : list ref) : SE heap CellNet :=
  simpleCellTriangle_setupNeighbors listOfCells ;;;
  ret (FlatNet listOfCells 0).

Definition makeCell (boolean : bool) (i : ident) : SE heap ref :=
  if boolean then BooleanCell i None else BaseCell i.

Definition grid_init (boolean : bool) (rows cols : Z) : SE heap CellNet :=
  cells <- traverse (fun row =>
             traverse (fun col => makeCell boolean (RowCol row col)) (range cols))
           (range rows) ;;
  CellGrid_setupNeighbors rows cols cells ;;;
  ret (GridNet rows cols cells 0).

Definition CellGrid : Z -> Z -> SE heap CellNet := grid_init false.
Definition BooleanCellGrid : Z -> Z -> SE heap CellNet := grid_init true.

(** The rewiring step of [tick] for one new cell:
    [cell.neighbors = [ n.descendant for n in cell.neighbors ]]. *)
Definition descendants_of (h : heap) (ns : list (option ref)) : option (list (option ref)) :=
  mapM (fun n => descendant <$> deref h n) ns.

Definition rewire (cell : ref) : SE heap unit :=
  c <- get cell ;;
  ns <- read (fun h => descendants_of h (neighbors c)) ;;
  assign cell (with_neighbors ns).

(** [self.cells = self.fromList(cells)], by class: a plain net takes the list
    as it is, a grid what [CellGrid.fromList] makes of it. *)
Definition fromList (net : CellNet) (cells : list ref) : option CellNet :=
  match net with
  | FlatNet _ g => Some (FlatNet cells g)
  | GridNet rows cols _ g =>
      newCells ← fst <$> CellGrid_fromList rows cols cells;
      Some (GridNet rows cols newCells g)
  end.

(** [self.generation += 1] *)
Definition next_generation (net : CellNet) : CellNet :=
  match net with
  | FlatNet cells g => FlatNet cells (g + 1)
  | GridNet rows cols cells g => GridNet rows cols cells (g + 1)
  end.

(** One round of the loop of [CellNet.tick] up to its last line (lines 39 to
    47): what the round does to the net and to the cells. The notification
    that ends the round runs the subscribers, which touch neither; the round
    with the notification is [tick_round], and [CellNet_tick] is the loop
    over it. *)
Definition tick1 (net : CellNet) : SE heap CellNet :=
  cellList <- lift (toList net) ;;
  newList <- traverse (fun cell => nextGen cell None) cellList ;;
  for_each newList rewire ;;;
  net' <- lift (fromList net newList) ;;
  ret (next_generation net').

(** The loop of [CellNet.tick(generations)], which runs while
    [generations > 0], over the rounds without their notification: [tick] as
    it acts on the net and the cells. *)
Fixpoint tick_loop (n : nat) (net : CellNet) : SE heap CellNet :=
  match n with
  | O => ret net
  | S n' => net' <- tick1 net ;; tick_loop n' net'
  end.

Definition tick (net : CellNet) (generations : Z) : SE heap CellNet :=
  tick_loop (Z.to_nat generations) net.

(** [[ cell.state for cell in cells ]] *)
Definition states (h : heap) (cells : list ref) : option (list value) :=
  mapM (fun r => state <$> h !! r) cells.

(** A triangle of three integer cells with the given states, built as in the
    usage example of [simpleCellTriangle]. *)
Definition integer_triangle (x y z : Z) : SE heap CellNet :=
  a <- IntegerCell (Name "Cell A") (Some x) ;;
  b <- IntegerCell (Name "Cell B") (Some y) ;;
  c <- IntegerCell (Name "Cell C") (Some z) ;;
  simpleCellTriangle [a; b; c].

(** The store [integer_triangle] leaves when run in the empty store: the three
    cells at the addresses 0, 1 and 2, wired to each other. *)
Definition triangle_store (x y z : Z) : heap :=
  [with_neighbors [Some 1%nat; Some 2%nat] (new_cell KInteger (Name "Cell A") (VInt x));
   with_neighbors [Some 0%nat; Some 2%nat] (new_cell KInteger (Name "Cell B") (VInt y));
   with_neighbors [Some 0%nat; Some 1%nat] (new_cell KInteger (Name "Cell C") (VInt z))].

(** The steps of [testIntegerCell] in [testCell.py] that concern the rule:
    [c4.mutate()], then [c4.update(state=100)] and [c1.state = 10], then
    [c4.nextGen('Cell 5')]; the result holds the state of [c4] after
    [mutate] and the state of the next generation. *)
Definition testIntegerCell : option (value * value) :=
  fst <$>
  (c1 <- IntegerCell (Name "Cell 1") None ;;
   c2 <- IntegerCell (Name "Cell 2") (Some 1) ;;
   c3 <- IntegerCell (Name "Cell 3") (Some 5) ;;
   c4 <- IntegerCell (Name "Cell 4") (Some 10) ;;
   addNeighbor c4 c1 ;;; addNeighbor c4 c2 ;;; addNeighbor c4 c3 ;;;
   mutate c4 None ;;;
   after_mutate <- get c4 ;;
   mutate c4 (Some (VInt 100)) ;;;
   assign c1 (with_state (VInt 10)) ;;;
   c5 <- nextGen c4 (Some (Name "Cell 5")) ;;
   next <- get c5 ;;
   ret (state after_mutate, state next)) [].

(** What [dump] shows of a cell: its identity and generation, and those of its
    ancestor, its descendant and its neighbors. *)
Definition label (h : heap) (r : ref) : option (ident * Z) :=
  (fun c => (identity c, generation c)) <$> h !! r.

Definition dump (h : heap) (r : ref)
  : option ((ident * Z) * option (ident * Z) * option (ident * Z) * list (ident * Z)) :=
  c ← h !! r;
  l ← label h r;
  ns ← mapM (fun n => n ≫= label h) (neighbors c);
  Some (l, ancestor c ≫= label h, descendant c ≫= label h, ns).

(** The steps of [testBaseCellCloneUpdate] in [testCell.py]: the dumps of
    [cell4], [cell2] and [cell5] after the two calls of [clone], the dump of
    [cell6] after [nextGen], and whether the ancestor and descendant links are
    the cells the test compares them with. *)
Definition testBaseCellCloneUpdate :=
  fst <$>
  (cell1 <- BaseCell (Name "Cell 1") ;;
   cell2 <- BaseCell (Name "Cell 2") ;;
   cell4 <- clone cell1 None ;;
   cell5 <- clone cell2 (Some (Name "Cell 5")) ;;
   dumps <- read (fun h => Some [dump h cell4; dump h cell2; dump h cell5]) ;;
   links <- read (fun h => Some [bool_decide (ancestor <$> h !! cell4 = Some (Some cell1));
                                 bool_decide (descendant <$> h !! cell1 = Some (Some cell4));
                                 bool_decide (ancestor <$> h !! cell5 = Some (Some cell2));
                                 bool_decide (descendant <$> h !! cell2 = Some (Some cell5))]) ;;
   cell6 <- nextGen cell5 (Some (Name "Cell 6")) ;;
   dump6 <- read (fun h => Some (dump h cell6)) ;;
   links6 <- read (fun h => Some [bool_decide (ancestor <$> h !! cell6 = Some (Some cell5));
                                  bool_decide (descendant <$> h !! cell5 = Some (Some cell6))]) ;;
   ret (dumps ++ [dump6], links ++ links6)) [].

(** The usage example of [BooleanGrid_VC]: a 3 x 3 boolean grid whose middle
    column is set through [mutate(state=1)]. *)
Definition boolean_grid_example : SE heap CellNet :=
  g <- BooleanCellGrid 3 3 ;;
  cells <- lift (toList g) ;;
  for_each [1; 4; 7]%nat (fun i => c <- lift (cells !! i) ;; mutate c (Some (VInt 1))) ;;;
  ret g.

(** Building a net in the empty store, ticking it, and reading the states:
    [cn = ...; cn.tick(generations); [cell.state for cell in cn.cells]]. *)
Definition states_after (build : SE heap CellNet) (generations : Z) : option (list value) :=
  match (cn <- build ;; tick cn generations) [] with
  | Some (cn', h) => l ← toList cn'; states h l
  | None => None
  end.

(** ** Notions used to state the properties *)

(** A rectangular array of [rows] rows of [cols] cells. *)
Definition grid_shape {A} (rows cols : Z) (g : list (list A)) : Prop :=
  length g = Z.to_nat rows /\ Forall (fun r => length r = Z.to_nat cols) g.

(** Cutting a list into [n] consecutive rows of [c] items. *)
Fixpoint reshape {A} (n c : nat) (l : list A) : list (list A) :=
  match n with
  | O => []
  | S n' => take c l :: reshape n' c (drop c l)
  end.

(** The positions around [(row, col)] named by the eight compass offsets, and
    whether a position lies in [[0, rows) x [0, cols)]. *)
Definition offsets (row col : Z) : list (Z * Z) :=
  [(row - 1, col); (row - 1, col + 1); (row, col + 1); (row + 1, col + 1);
   (row + 1, col); (row + 1, col - 1); (row, col - 1); (row - 1, col - 1)].

Definition in_grid (rows cols : Z) (p : Z * Z) : bool :=
  (0 <=? p.1) && (p.1 <? rows) && (0 <=? p.2) && (p.2 <? cols).

(** The positions of a grid in the order of the loops of [setupNeighbors]. *)
Definition positions (rows cols : Z) : list (Z * Z) :=
  concat (map (fun row => map (pair row) (range cols)) (range rows)).

(** The number of neighbors of each cell of a grid, row by row. *)
Definition neighbor_counts (h : heap) (cells : list (list ref)) : option (list (list nat)) :=
  mapM (mapM (fun r => (fun c => length (neighbors c)) <$> h !! r)) cells.

(** The state of the descendant of the cell at [c]. *)
Definition descendant_state (h : heap) (c : ref) : option value :=
  cell ← h !! c; d ← descendant cell; state <$> h !! d.

(** A neighbor entry that refers to a cell of the store. *)
Definition valid_neighbor (h : heap) (n : option ref) : Prop :=
  exists r, n = Some r /\ (r < length h)%nat.

(** The cells of a net are objects of the store, and so are the neighbors
    they refer to: a store has no references to objects that do not exist. *)
Definition in_store (h : heap) (l : list ref) : Prop :=
  forall c, c ∈ l ->
    exists cell, h !! c = Some cell /\
      Forall (fun n => forall r, n = Some r -> (r < length h)%nat) (neighbors cell).

(** What [tick] needs of a cell of the net: it is in the store, its
    neighbors are cells of the store, and its rule is defined on them. *)
Definition ready (h : heap) (c : ref) : Prop :=
  exists cell, h !! c = Some cell /\
    Forall (valid_neighbor h) (neighbors cell) /\
    is_Some (regenerate h cell).

(** The data-model invariant of a net in a store: the flattened cells are
    distinct objects of the generation of the net, and they are neighbors of
    each other only. *)
Definition member_ok (h : heap) (l : list ref) (g : Z) (c : ref) : Prop :=
  exists cell, h !! c = Some cell /\
    generation cell = g /\
    Forall (fun n => exists r, n = Some r /\ r ∈ l) (neighbors cell) /\
    is_Some (regenerate h cell).

Definition net_inv (h : heap) (net : CellNet) : Prop :=
  exists l, toList net = Some l /\ NoDup l /\
    forall c, c ∈ l -> member_ok h l (net_generation net) c.

(** A cell fit to be a corner of a triangle with two others as neighbors: it is
    of generation 0 and, if it is an integer cell, the states of the two
    others are numbers. *)
Definition corner (c n1 n2 : Cell) : Prop :=
  generation c = 0 /\
  (kind c = KInteger -> is_Some (as_int (state n1)) /\ is_Some (as_int (state n2))).

(** The nets a program builds: an empty [CellNet()], a grid, a triangle on
    three distinct fit cells, and what [tick] makes of such a net. *)
Inductive built : heap -> CellNet -> Prop :=
| built_empty h : built h (FlatNet [] 0)
| built_grid boolean rows cols h net h' :
    grid_init boolean rows cols h = Some (net, h') -> built h' net
| built_triangle h a b c ca cb cc net h' :
    h !! a = Some ca -> h !! b = Some cb -> h !! c = Some cc ->
    a <> b -> a <> c -> b <> c ->
    corner ca cb cc -> corner cb ca cc -> corner cc ca cb ->
    simpleCellTriangle [a; b; c] h = Some (net, h') -> built h' net
| built_tick h net generations net' h' :
    built h net -> tick net generations h = Some (net', h') -> built h' net'.

(** A later store [h'] extends [h]: the objects of [h] are still there,
    changed at most in their descendant link. *)
Definition ext (h h' : heap) : Prop :=
  forall r c, h !! r = Some c -> exists d, h' !! r = Some (with_descendant d c).

(** The cell [makeCell] creates for a grid. *)
Definition grid_cell (boolean : bool) (i : ident) : Cell :=
  if boolean then new_cell KBoolean i (VBool false) else new_cell KBase i VNone.

(** ** Notions used in the further properties *)

(** How many of the positions [i - 1], [i], [i + 1] lie in [[0, n)], for [i]
    in that range. *)
Definition span (n i : Z) : nat :=
  let below := if 0 <? i then 1%nat else 0%nat in
  let above := if i <? n - 1 then 1%nat else 0%nat in
  (below + 1 + above)%nat.

(** A grid wired as [CellGrid.setupNeighbors] wires it: the neighbors of the
    cell at a position are the cells at the compass points around it that lie
    in the grid, in compass order. *)
Definition wired (rows cols : Z) (cells : list (list ref)) (h : heap) : Prop :=
  forall p r, p ∈ positions rows cols -> cell_at cells p = Some r ->
    exists cell ns,
      h !! r = Some cell /\
      mapM (cell_at cells) (List.filter (in_grid rows cols) (offsets p.1 p.2)) = Some ns /\
      neighbors cell = Some <$> ns.

(** ** Viewers *)

(** The classes of [CellViewerController.py]. A viewer holds the cell it shows
    and the string it shows for it; the viewers of a grid are objects of
    their own, one per cell, that nothing else refers to, so they are kept as
    values in the array of the controller. How a viewer renders its cell
    depends on its class; a viewer whose cell is [None] cannot read a state. *)
Module CellViewerController.

Inductive ViewerClass : Type :=
| CellViewer          (* CellViewerController *)
| IntegerCellViewer   (* IntegerCellViewerController *)
| BooleanCellViewer.  (* BooleanCellViewerController *)

(** [strValue] is [None] as long as the attribute is not set. *)
Record Viewer : Type := mkViewer {
  cls : ViewerClass;
  cell : option ref;
  strValue : option string
}.

(** [str(x)] for a state. *)
Definition str (v : value) : string :=
  match v with
  | VNone => "None"
  | VInt z => pretty z
  | VBool b => if b then "True" else "False"
  end.

(** [refresh], by class: ['X'], [str(self.cell.state)], or
    ['*' if self.cell.state else '-']. *)
Definition refresh (h : heap) (v : Viewer) : option Viewer :=
  match cls v with
  | CellViewer => Some (mkViewer (cls v) (cell v) (Some "X"))
  | IntegerCellViewer =>
      c ← deref h (cell v);
      Some (mkViewer (cls v) (cell v) (Some (str (state c))))
  | BooleanCellViewer =>
      c ← deref h (cell v);
      Some (mkViewer (cls v) (cell v) (Some (if truthy (state c) then "*" else "-")))
  end.

(** [setCell(cell)]: [self.cell = cell; self.refresh()] *)
Definition setCell (h : heap) (c : option ref) (v : Viewer) : option Viewer :=
  refresh h (mkViewer (cls v) c (strValue v)).

(** The constructor of a viewer of class [k]: [setCell(cell)], then, once
    subscribed, [refresh()]. *)
Definition init (k : ViewerClass) (c : option ref) (h : heap) : option Viewer :=
  v ← setCell h c (mkViewer k None None); refresh h v.

(** [CellGridViewerController(cellGrid)] for the viewer class [k]:
    [[ [ cls(cell) for cell in row ] for row in self.cellGrid.cells ]]. *)
Definition grid_viewers (k : ViewerClass) (cells : list (list ref)) (h : heap)
  : option (list (list Viewer)) :=
  mapM (mapM (fun c => init k (Some c) h)) cells.

(** [v.setCell(v.cell.descendant)] *)
Definition rebind (h : heap) (v : Viewer) : option Viewer :=
  c ← deref h (cell v); setCell h (descendant c) v.

(** [refreshOnTick]: every viewer, row by row, is pointed to the descendant
    of its cell. *)
Definition refreshOnTick (h : heap) (viewers : list (list Viewer))
  : option (list (list Viewer)) :=
  mapM (mapM (rebind h)) viewers.

End CellViewerController.

(** What a viewer of class [k] shows for a state. *)
Definition show (k : CellViewerController.ViewerClass) (v : value) : string :=
  match k with
  | CellViewerController.CellViewer => "X"
  | CellViewerController.IntegerCellViewer => CellViewerController.str v
  | CellViewerController.BooleanCellViewer => if truthy v then "*" else "-"
  end.

(** The references a viewer follows are objects of the store: its cell, if
    it is bound to one, and the descendant of that cell, if it has one. *)
Definition viewer_ok (h : heap) (v : CellViewerController.Viewer) : Prop :=
  forall c : ref, CellViewerController.cell v = Some c ->
    exists x : Cell, h !! c = Some x /\
      forall d : ref, descendant x = Some d -> is_Some (h !! d).

(** ** The notification of a tick *)

(** Modelled from the spec: [pub.sendMessage('CellNet-Ticked')], the last line
    of a round of [CellNet.tick]. The bus is a library that is not among the
    sources; by the spec it invokes the subscribers synchronously, in
    subscription order, before [tick] returns, and a subscriber that raises
    ends the tick. What subscribes to this topic is [refreshOnTick] of a
    controller ([CellViewerController.py], line 60, and likewise line 147 of
    [cellNet.py]); a subscribed controller is kept as its array of viewers. *)
Definition Bus : Type := list (list (list CellViewerController.Viewer)).

Definition sendMessage (h : heap) (bus : Bus) : option Bus :=
  mapM (CellViewerController.refreshOnTick h) bus.

(** One round of the loop of [CellNet.tick], notification included. The state
    is the store of the cells together with the subscribers. *)
Definition tick_round (net : CellNet) : SE (heap * Bus) CellNet :=
  fun s =>
    match tick1 net s.1 with
    | Some (net', h') =>
        match sendMessage h' s.2 with
        | Some bus' => Some (net', (h', bus'))
        | None => None
        end
    | None => None
    end.

(** [CellNet.tick(generations)] *)
Fixpoint CellNet_tick_loop (n : nat) (net : CellNet) : SE (heap * Bus) CellNet :=
  match n with
  | O => ret net
  | S n' => net' <- tick_round net ;; CellNet_tick_loop n' net'
  end.

Definition CellNet_tick (net : CellNet) (generations : Z) : SE (heap * Bus) CellNet :=
  CellNet_tick_loop (Z.to_nat generations) net.

(** Every subscribed viewer shows a cell of the list [l]. *)
Definition follows (l : list ref) (bus : Bus) : Prop :=
  Forall (Forall (Forall (fun v => exists c : ref,
                            CellViewerController.cell v = Some c /\ c ∈ l))) bus.

(** [self.generation = g] *)
Definition set_generation (g : Z) (net : CellNet) : CellNet :=
  match net with
  | FlatNet cells _ => FlatNet cells g
  | GridNet rows cols cells _ => GridNet rows cols cells g
  end.

(** The invariant of a net but for its counter: the flattened cells are
    distinct objects of the generation [k], and they are neighbors of each
    other only. *)
Definition cells_inv (h : heap) (net : CellNet) (k : Z) : Prop :=
  exists l, toList net = Some l /\ NoDup l /\
    forall c, c ∈ l -> member_ok h l k c.

(** ** Triangles made of cells with a history *)



(** A triangle of three clones. *)
Definition triangle_of_clones : SE heap CellNet :=
  a <- IntegerCell (Name "Cell A") (Some 1) ;;
  b <- IntegerCell (Name "Cell B") (Some 5) ;;
  c <- IntegerCell (Name "Cell C") (Some 7) ;;
  a' <- clone a None ;;
  b' <- clone b None ;;
  c' <- clone c None ;;
  simpleCellTriangle [a'; b'; c'].

(** The store [triangle_of_clones] leaves when run in the empty store: the
    three cells at the addresses 0, 1 and 2, each with its clone as
    descendant, and the clones at 3, 4 and 5, wired to each other. *)
Definition clones_store : heap :=
  [with_descendant (Some 3%nat) (new_cell KInteger (Name "Cell A") (VInt 1));
   with_descendant (Some 4%nat) (new_cell KInteger (Name "Cell B") (VInt 5));
   with_descendant (Some 5%nat) (new_cell KInteger (Name "Cell C") (VInt 7));
   mkCell KInteger (Name "Cell A") (VInt 1) 1 [Some 4%nat; Some 5%nat] (Some 0%nat) None;
   mkCell KInteger (Name "Cell B") (VInt 5) 1 [Some 3%nat; Some 5%nat] (Some 1%nat) None;
   mkCell KInteger (Name "Cell C") (VInt 7) 1 [Some 3%nat; Some 4%nat] (Some 2%nat) None].


(** * Properties *)

(** ** The monad *)

Section Monad.
Context {S A B : Type}.

Lemma se_bind_Some (m : SE S A) (k : A -> SE S B) s a s' :
  m s = Some (a, s') -> bind m k s = k a s'.
Proof. unfold bind. intros ->. reflexivity. Qed.

Lemma se_bind_None (m : SE S A) (k : A -> SE S B) s :
  m s = None -> bind m k s = None.
Proof. unfold bind. intros ->. reflexivity. Qed.

Lemma se_lift_Some (o : option A) (a : A) (s : S) : o = Some a -> lift o s = Some (a, s).
Proof. intros ->. reflexivity. Qed.
End Monad.

Lemma for_each_app {S A} (l1 l2 : list A) (f : A -> SE S unit) s :
  for_each (l1 ++ l2) f s = (for_each l1 f ;;; for_each l2 f) s.
Proof.
  revert s. induction l1 as [|x l1 IH]; intros s; simpl.
  - reflexivity.
  - unfold bind in *. destruct (f x s) as [[[] s1]|]; [|reflexivity].
    apply IH.
Qed.

Lemma for_each_ext {S A} (l : list A) (f g : A -> SE S unit) :
  (forall x, x ∈ l -> f x = g x) -> for_each l f = for_each l g.
Proof.
  induction l as [|x l IH]; intros Hfg; simpl; [reflexivity|].
  rewrite (Hfg x) by left. rewrite IH; [reflexivity|].
  intros y Hy. apply Hfg. right. exact Hy.
Qed.

(** ** Ranges and indexing *)

Lemma length_range n : length (range n) = Z.to_nat n.
Proof. unfold range. rewrite length_map, length_seq. reflexivity. Qed.

Lemma lookup_range n (i : nat) z :
  range n !! i = Some z <-> z = Z.of_nat i /\ (i < Z.to_nat n)%nat.
Proof.
  unfold range. change (map Z.of_nat) with (fmap (M := list) Z.of_nat).
  rewrite list_lookup_fmap. split.
  - destruct (seq 0 (Z.to_nat n) !! i) as [j|] eqn:E; [|discriminate].
    apply lookup_seq in E as [-> Hi]. simpl. intros [= <-]. split; [reflexivity|exact Hi].
  - intros [-> Hi]. rewrite (lookup_seq_lt 0 (Z.to_nat n) i Hi). reflexivity.
Qed.

Lemma elem_of_range n z : z ∈ range n <-> 0 <= z < n.
Proof.
  rewrite list_elem_of_lookup. split.
  - intros [i Hi]. apply lookup_range in Hi as [-> Hi]. lia.
  - intros Hz. exists (Z.to_nat z). apply lookup_range. lia.
Qed.

Lemma getitem_of_nat {A} (l : list A) (i : nat) : getitem l (Z.of_nat i) = l !! i.
Proof.
  unfold getitem. destruct (Z.leb_spec 0 (Z.of_nat i)); [|lia].
  rewrite Nat2Z.id. reflexivity.
Qed.

Lemma getitem_nonneg {A} (l : list A) (z : Z) : 0 <= z -> getitem l z = l !! Z.to_nat z.
Proof. intros Hz. unfold getitem. destruct (Z.leb_spec 0 z); [reflexivity|lia]. Qed.

(** ** Popping a reversed list *)

Section Pop.
Context {A K : Type}.
Implicit Types (l s xs : list A) (ks : list K).

Lemma pop_last_snoc l x : pop_last (l ++ [x]) = Some (x, l).
Proof.
  induction l as [|y l IH]; [reflexivity|].
  change ((y :: l) ++ [x]) with (y :: (l ++ [x])).
  cbn [pop_last]. rewrite IH.
  destruct (l ++ [x]) eqn:E; [|reflexivity].
  destruct l; discriminate.
Qed.

Lemma pop_last_inv l x r : pop_last l = Some (x, r) -> l = r ++ [x].
Proof.
  destruct l as [|y l' _] using rev_ind; [discriminate|].
  rewrite pop_last_snoc. intros [= -> ->]. reflexivity.
Qed.

Lemma pops_Some ks xs s :
  length xs = length ks ->
  traverse (fun _ => pop) ks (s ++ rev xs) = Some (xs, s).
Proof.
  revert xs. induction ks as [|k ks IH]; intros [|x xs] Hlen; try discriminate.
  - simpl. rewrite app_nil_r. reflexivity.
  - cbn [traverse rev].
    rewrite app_assoc.
    erewrite se_bind_Some; [|unfold pop; apply pop_last_snoc].
    erewrite se_bind_Some; [|apply IH; simpl in Hlen; lia].
    reflexivity.
Qed.

Lemma pops_None ks s :
  (length s < length ks)%nat -> traverse (fun _ => pop) ks s = None.
Proof.
  revert s. induction ks as [|k ks IH]; intros s Hlen; simpl in Hlen; [lia|].
  cbn [traverse].
  destruct s as [|y s' _] using rev_ind; [reflexivity|].
  erewrite se_bind_Some; [|unfold pop; apply pop_last_snoc].
  rewrite se_bind_None; [reflexivity|].
  apply IH. rewrite length_app in Hlen. simpl in Hlen. lia.
Qed.

Lemma pop_rows_Some (rs cs : list K) (g : list (list A)) s :
  length g = length rs ->
  Forall (fun r => length r = length cs) g ->
  traverse (fun _ => traverse (fun _ => pop) cs) rs (s ++ rev (concat g)) = Some (g, s).
Proof.
  revert g. induction rs as [|k rs IH]; intros [|r g] Hlen Hrows; try discriminate.
  - simpl. rewrite app_nil_r. reflexivity.
  - apply Forall_cons in Hrows as [Hr Hrows].
    cbn [traverse concat]. rewrite rev_app_distr, app_assoc.
    erewrite se_bind_Some; [|apply pops_Some; exact Hr].
    erewrite se_bind_Some; [|apply IH; [simpl in Hlen; lia|exact Hrows]].
    reflexivity.
Qed.

Lemma pop_rows_None (rs cs : list K) s :
  (length s < length rs * length cs)%nat ->
  traverse (fun _ => traverse (fun _ => pop) cs) rs s = None.
Proof.
  revert s. induction rs as [|k rs IH]; intros s Hlen; simpl in Hlen; [lia|].
  cbn [traverse].
  destruct (decide (length s < length cs)%nat) as [Hs|Hs].
  - rewrite se_bind_None; [reflexivity|]. apply pops_None. exact Hs.
  - rewrite <- (rev_involutive s), <- (take_drop (length cs) (rev s)), rev_app_distr.
    assert (Hlt : length (take (length cs) (rev s)) = length cs).
    { rewrite length_take, length_rev. lia. }
    erewrite se_bind_Some; [|apply pops_Some; exact Hlt].
    rewrite se_bind_None; [reflexivity|].
    apply IH. rewrite length_rev, length_drop, length_rev. nia.
Qed.
End Pop.

(** ** Reshaping *)

Section Reshape.
Context {A : Type}.
Implicit Types (l : list A) (g : list (list A)).

Lemma length_reshape n c l : length (reshape n c l) = n.
Proof. revert l. induction n as [|n IH]; intros l; simpl; [reflexivity|]. rewrite IH. reflexivity. Qed.

Lemma reshape_rows n c l :
  (n * c <= length l)%nat -> Forall (fun r => length r = c) (reshape n c l).
Proof.
  revert l. induction n as [|n IH]; intros l Hlen; simpl; [constructor|].
  constructor.
  - rewrite length_take. lia.
  - apply IH. rewrite length_drop. lia.
Qed.

Lemma concat_reshape n c l :
  (n * c <= length l)%nat -> concat (reshape n c l) = take (n * c) l.
Proof.
  revert l. induction n as [|n IH]; intros l Hlen; simpl.
  - reflexivity.
  - rewrite IH by (rewrite length_drop; lia).
    apply take_take_drop.
Qed.

Lemma reshape_concat g c rest :
  Forall (fun r => length r = c) g ->
  reshape (length g) c (concat g ++ rest) = g.
Proof.
  induction g as [|r g IH]; intros Hrows; [reflexivity|].
  apply Forall_cons in Hrows as [Hr Hrows].
  cbn [length reshape concat]. rewrite <- app_assoc.
  rewrite take_app_length' by (symmetry; exact Hr).
  rewrite drop_app_length' by (symmetry; exact Hr).
  rewrite IH by exact Hrows. reflexivity.
Qed.

Lemma length_concat_rows g c :
  Forall (fun r => length r = c) g -> length (concat g) = (length g * c)%nat.
Proof.
  induction 1 as [|r g Hr _ IH]; [reflexivity|].
  cbn [concat length]. rewrite length_app, IH, Hr. reflexivity.
Qed.
End Reshape.

(** ** Grids as lists and back *)

Lemma fromList_Some (rows cols : Z) (l : list ref) :
  (Z.to_nat rows * Z.to_nat cols <= length l)%nat ->
  CellGrid_fromList rows cols l =
    Some (reshape (Z.to_nat rows) (Z.to_nat cols) l,
          rev (drop (Z.to_nat rows * Z.to_nat cols) l)).
Proof.
  intros Hlen. unfold CellGrid_fromList.
  erewrite se_bind_Some; [|reflexivity].
  rewrite <- (take_drop (Z.to_nat rows * Z.to_nat cols) l) at 1.
  rewrite rev_app_distr, <- concat_reshape by exact Hlen.
  apply pop_rows_Some.
  - rewrite length_reshape, length_range. reflexivity.
  - rewrite length_range. apply reshape_rows. exact Hlen.
Qed.

Lemma fromList_None (rows cols : Z) (l : list ref) :
  (length l < Z.to_nat rows * Z.to_nat cols)%nat ->
  CellGrid_fromList rows cols l = None.
Proof.
  intros Hlen. unfold CellGrid_fromList.
  erewrite se_bind_Some; [|reflexivity].
  apply pop_rows_None. rewrite length_rev, !length_range. exact Hlen.
Qed.

Lemma mapM_getitem_range {A} (l : list A) (n : Z) :
  length l = Z.to_nat n -> mapM (getitem l) (range n) = Some l.
Proof.
  intros Hlen. apply mapM_Some, Forall2_same_length_lookup_2.
  - rewrite length_range. symmetry. exact Hlen.
  - intros i z x Hz Hx. apply lookup_range in Hz as [-> _].
    rewrite getitem_of_nat. exact Hx.
Qed.

Lemma toList_shape (rows cols : Z) (g : list (list ref)) :
  grid_shape rows cols g -> CellGrid_toList rows cols g = Some (concat g).
Proof.
  intros [Hlen Hrows]. unfold CellGrid_toList.
  assert (H : mapM (fun row => mapM (fun col => r ← getitem g row; getitem r col) (range cols))
                (range rows) = Some g); [|rewrite H; reflexivity].
  apply mapM_Some, Forall2_same_length_lookup_2.
  - rewrite length_range. symmetry. exact Hlen.
  - intros i z r Hz Hr. apply lookup_range in Hz as [-> _].
    rewrite <- (mapM_getitem_range r cols).
    + apply mapM_ext. intros col. rewrite getitem_of_nat, Hr. reflexivity.
    + eapply Forall_lookup_1 in Hrows; [exact Hrows|exact Hr].
Qed.

Lemma toList_length (rows cols : Z) (g : list (list ref)) (l : list ref) :
  CellGrid_toList rows cols g = Some l ->
  length l = (Z.to_nat rows * Z.to_nat cols)%nat.
Proof.
  unfold CellGrid_toList. intros H.
  apply fmap_Some in H as (g' & Hg' & ->).
  rewrite (length_concat_rows g' (Z.to_nat cols)).
  - apply length_mapM in Hg'. rewrite length_range in Hg'. rewrite Hg'. reflexivity.
  - apply mapM_Some in Hg'. apply Forall_forall. intros r Hr.
    apply list_elem_of_lookup in Hr as [i Hi].
    destruct (Forall2_lookup_r _ _ _ _ _ Hg' Hi) as (z & _ & Hz).
    apply length_mapM in Hz. rewrite length_range in Hz. symmetry. exact Hz.
Qed.

Lemma grid_shape_reshape (rows cols : Z) (l : list ref) :
  (Z.to_nat rows * Z.to_nat cols <= length l)%nat ->
  grid_shape rows cols (reshape (Z.to_nat rows) (Z.to_nat cols) l).
Proof.
  intros Hlen. split; [apply length_reshape|apply reshape_rows; exact Hlen].
Qed.

(** C5: flattening a rectangular grid and rebuilding it from the flattened
    list gives back the same array of cell references: the result equals the
    original, so at every position it holds the same reference; the list is
    used up. *)
Theorem fromList_toList_roundtrip (rows cols : Z) (cells : list (list ref)) :
  grid_shape rows cols cells ->
  exists l newCells,
    CellGrid_toList rows cols cells = Some l /\
    CellGrid_fromList rows cols l = Some (newCells, []) /\
    newCells = cells /\
    forall row col, cell_at newCells (row, col) = cell_at cells (row, col).
Proof.
  intros Hshape. exists (concat cells), cells.
  split; [apply toList_shape; exact Hshape|].
  split; [|split; reflexivity].
  destruct Hshape as [Hlen Hrows].
  pose proof (length_concat_rows _ _ Hrows) as Hc.
  rewrite fromList_Some by lia.
  rewrite drop_ge by lia.
  rewrite <- Hlen, <- (app_nil_r (concat cells)), reshape_concat by exact Hrows.
  reflexivity.
Qed.

Lemma fromList_toList_roundtrip_witness :
  exists l newCells,
    CellGrid_toList 2 3 [[0; 1; 2]; [3; 4; 5]]%nat = Some l /\
    CellGrid_fromList 2 3 l = Some (newCells, []) /\
    newCells = [[0; 1; 2]; [3; 4; 5]]%nat /\
    forall row col, cell_at newCells (row, col) = cell_at [[0; 1; 2]; [3; 4; 5]]%nat (row, col).
Proof.
  apply (fromList_toList_roundtrip 2 3 [[0; 1; 2]; [3; 4; 5]]%nat).
  split; [reflexivity|]. repeat constructor.
Defined.

(** C9, as stated, fails: a list with more cells than the grid has positions
    is accepted. [fromList] of a 1 x 1 grid on a list of two cells returns a
    grid holding the first cell and leaves the second in the list. *)
Lemma fromList_too_many_accepted :
  Z.of_nat (length [7; 8]%nat) <> 1 * 1 /\
  CellGrid_fromList 1 1 [7; 8]%nat = Some ([[7%nat]], [8%nat]).
Proof. split; [simpl; lia|reflexivity]. Qed.

(** C9, amended: [fromList] raises exactly when the list has fewer cells than
    the grid has positions; given more, it returns the grid made of the first
    [rows x cols] cells and leaves the surplus, reversed, in the list. *)
Theorem fromList_fails_iff_too_few (rows cols : Z) (l : list ref) :
  (CellGrid_fromList rows cols l = None <->
     Z.of_nat (length l) < Z.max 0 rows * Z.max 0 cols) /\
  (Z.max 0 rows * Z.max 0 cols <= Z.of_nat (length l) ->
     CellGrid_fromList rows cols l =
       Some (reshape (Z.to_nat rows) (Z.to_nat cols) l,
             rev (drop (Z.to_nat rows * Z.to_nat cols) l))).
Proof.
  assert (Hn : Z.max 0 rows * Z.max 0 cols = Z.of_nat (Z.to_nat rows * Z.to_nat cols)) by lia.
  rewrite Hn. split; [split|].
  - intros Hnone.
    destruct (decide (Z.to_nat rows * Z.to_nat cols <= length l)%nat) as [Hle|Hgt]; [|lia].
    rewrite fromList_Some in Hnone by exact Hle. discriminate.
  - intros Hlt. apply fromList_None. lia.
  - intros Hle. apply fromList_Some. lia.
Qed.

(** C10: [fromList] uses up the list object it is given: called on a list of
    exactly [rows x cols] cells it returns normally and leaves the list
    empty. *)
Theorem fromList_consumes_argument (rows cols : Z) (lst : list ref) :
  0 <= rows -> 0 <= cols ->
  Z.of_nat (length lst) = rows * cols ->
  exists newCells, CellGrid_fromList rows cols lst = Some (newCells, []).
Proof.
  intros Hr Hc Hlen.
  assert (Hn : length lst = (Z.to_nat rows * Z.to_nat cols)%nat) by nia.
  exists (reshape (Z.to_nat rows) (Z.to_nat cols) lst).
  rewrite fromList_Some by lia.
  rewrite drop_ge by lia. reflexivity.
Qed.

Lemma fromList_consumes_argument_witness :
  exists newCells, CellGrid_fromList 2 2 [4; 5; 6; 7]%nat = Some (newCells, []).
Proof.
  apply (fromList_consumes_argument 2 2 [4; 5; 6; 7]%nat); [lia|lia|reflexivity].
Defined.

(** ** Reading and assigning *)

Lemma assign_eq r f h c : h !! r = Some c -> assign r f h = Some (tt, <[r := f c]> h).
Proof. unfold assign. intros ->. reflexivity. Qed.

Lemma get_eq r h c : h !! r = Some c -> get r h = Some (c, h).
Proof. unfold get, read. intros ->. reflexivity. Qed.

(** ** The neighbors in a grid *)

Lemma in_grid_true (rows cols : Z) (p : Z * Z) :
  0 <= p.1 < rows -> 0 <= p.2 < cols -> in_grid rows cols p = true.
Proof.
  intros H1 H2. unfold in_grid.
  rewrite !andb_true_iff, !Z.leb_le, !Z.ltb_lt. lia.
Qed.

Lemma in_grid_false (rows cols : Z) (p : Z * Z) :
  ~ (0 <= p.1 < rows /\ 0 <= p.2 < cols) -> in_grid rows cols p = false.
Proof.
  intros H. apply not_true_is_false. intros Ht. apply H.
  unfold in_grid in Ht. rewrite !andb_true_iff, !Z.leb_le, !Z.ltb_lt in Ht. lia.
Qed.

Ltac settle_in_grid :=
  repeat match goal with
  | |- context [in_grid ?r ?c ?p] =>
      first [ rewrite (in_grid_true r c p) by (simpl; lia)
            | rewrite (in_grid_false r c p) by (simpl; lia) ]
  end.

(** The positions collected by [setupNeighbors] are the compass offsets that
    lie in the grid, in compass order. *)
Lemma compass_in_grid (rows cols row col : Z) :
  0 <= row < rows -> 0 <= col < cols ->
  omap id (compass rows cols row col) = List.filter (in_grid rows cols) (offsets row col).
Proof.
  intros Hrow Hcol. unfold compass, offsets. cbn [List.filter].
  destruct (Z.ltb_spec 0 row), (Z.ltb_spec 0 col),
           (Z.ltb_spec col (cols - 1)), (Z.ltb_spec row (rows - 1));
    settle_in_grid; reflexivity.
Qed.

Lemma for_each_map {S A B} (g : A -> B) (l : list A) (f : B -> SE S unit) :
  for_each (map g l) f = for_each l (fun x => f (g x)).
Proof. induction l as [|x l IH]; simpl; [reflexivity|]. rewrite IH. reflexivity. Qed.

Lemma for_each_nested {S A B} (rs : list A) (cs : list B) (b : A -> B -> SE S unit) s :
  for_each rs (fun r => for_each cs (b r)) s =
  for_each (concat (map (fun r => map (pair r) cs) rs)) (fun p => b p.1 p.2) s.
Proof.
  revert s. induction rs as [|r rs IH]; intros s; [reflexivity|].
  cbn [for_each map concat]. rewrite for_each_app, for_each_map.
  unfold bind. cbn [fst snd].
  destruct (for_each cs (fun x => b r x) s) as [[[] s']|]; [apply IH|reflexivity].
Qed.

Lemma elem_of_positions (rows cols : Z) (p : Z * Z) :
  p ∈ positions rows cols <-> 0 <= p.1 < rows /\ 0 <= p.2 < cols.
Proof.
  unfold positions. rewrite list_elem_of_In, in_concat. split.
  - intros (l & Hl & Hp). apply in_map_iff in Hl as (row & <- & Hrow).
    apply in_map_iff in Hp as (col & <- & Hcol).
    apply list_elem_of_In, elem_of_range in Hrow, Hcol. simpl. lia.
  - intros [H1 H2]. destruct p as [row col]. simpl in *.
    exists (map (pair row) (range cols)). split.
    + apply in_map_iff. exists row. split; [reflexivity|].
      apply list_elem_of_In, elem_of_range. exact H1.
    + apply in_map_iff. exists col. split; [reflexivity|].
      apply list_elem_of_In, elem_of_range. exact H2.
Qed.

Lemma getitem_elem_of {A} (l : list A) (i : Z) (x : A) : getitem l i = Some x -> x ∈ l.
Proof.
  unfold getitem. destruct (0 <=? i); [|destruct (_ <=? i); [|discriminate]];
    apply list_elem_of_lookup_2.
Qed.

Lemma cell_at_elem_of (cells : list (list ref)) (p : Z * Z) (r : ref) :
  cell_at cells p = Some r -> r ∈ concat cells.
Proof.
  unfold cell_at. intros H. apply bind_Some in H as (row & Hrow & Hr).
  apply getitem_elem_of in Hrow, Hr.
  apply list_elem_of_In, in_concat. exists row. split; apply list_elem_of_In; assumption.
Qed.

Section GridShape.
Variables (rows cols : Z) (cells : list (list ref)).
Hypothesis Hshape : grid_shape rows cols cells.

Lemma cell_at_lookup (i j : nat) :
  cell_at cells (Z.of_nat i, Z.of_nat j) = (row ← cells !! i; row !! j).
Proof.
  unfold cell_at. cbn [fst snd]. rewrite getitem_of_nat.
  destruct (cells !! i) as [row|]; [|reflexivity]. simpl. apply getitem_of_nat.
Qed.

Lemma cell_at_in_grid (p : Z * Z) :
  0 <= p.1 < rows -> 0 <= p.2 < cols -> is_Some (cell_at cells p).
Proof.
  destruct Hshape as [Hlen Hrows]. destruct p as [row col]. cbn [fst snd].
  intros Hrow Hcol. unfold cell_at. cbn [fst snd].
  rewrite getitem_nonneg by lia.
  destruct (lookup_lt_is_Some_2 cells (Z.to_nat row)) as [r Hr]; [lia|].
  rewrite Hr. simpl. rewrite getitem_nonneg by lia.
  apply lookup_lt_is_Some_2.
  eapply Forall_lookup_1 in Hrows; [|exact Hr]. simpl in Hrows. lia.
Qed.

(** The cells at the positions, in loop order, are the flattened grid. *)
Lemma cell_at_positions :
  map (fun p => default 0%nat (cell_at cells p)) (positions rows cols) = concat cells.
Proof.
  destruct Hshape as [Hlen Hrows]. unfold positions.
  rewrite concat_map, map_map. f_equal.
  apply list_eq. intros i.
  change (map ?f ?l) with (f <$> l). rewrite list_lookup_fmap.
  destruct (cells !! i) as [row|] eqn:Hrow.
  - rewrite (proj2 (lookup_range rows i (Z.of_nat i)))
      by (split; [reflexivity|apply lookup_lt_Some in Hrow; lia]).
    simpl. f_equal. rewrite map_map. apply list_eq. intros j.
    change (map ?f ?l) with (f <$> l). rewrite list_lookup_fmap.
    eapply Forall_lookup_1 in Hrows; [|exact Hrow]. simpl in Hrows.
    destruct (row !! j) as [r|] eqn:Hr.
    + rewrite (proj2 (lookup_range cols j (Z.of_nat j)))
        by (split; [reflexivity|apply lookup_lt_Some in Hr; lia]).
      simpl. rewrite cell_at_lookup, Hrow. simpl. rewrite Hr. reflexivity.
    + apply lookup_ge_None in Hr.
      destruct (range cols !! j) as [z|] eqn:Hz; [|reflexivity].
      apply lookup_range in Hz. lia.
  - apply lookup_ge_None in Hrow.
    destruct (range rows !! i) as [z|] eqn:Hz; [|reflexivity].
    apply lookup_range in Hz. lia.
Qed.

(** The neighbors [setupNeighbors] finds for a position of the grid. *)
Lemma compass_cells (row col : Z) :
  0 <= row < rows -> 0 <= col < cols ->
  exists ns,
    mapM (cell_at cells) (omap id (compass rows cols row col)) = Some ns /\
    mapM (cell_at cells) (List.filter (in_grid rows cols) (offsets row col)) = Some ns /\
    Forall (fun n => n ∈ concat cells) ns.
Proof.
  intros Hrow Hcol. rewrite compass_in_grid by assumption.
  destruct (mapM (cell_at cells) (List.filter (in_grid rows cols) (offsets row col)))
    as [ns|] eqn:Hns.
  - exists ns. split; [reflexivity|]. split; [reflexivity|].
    apply mapM_Some in Hns. eapply Forall2_Forall_r; [exact Hns|].
    apply Forall_forall. intros p _ n Hn. eapply cell_at_elem_of. exact Hn.
  - exfalso. apply mapM_None in Hns. apply Exists_exists in Hns as (p & Hp & Hnone).
    apply list_elem_of_In, filter_In in Hp as [_ Hp].
    unfold in_grid in Hp. rewrite !andb_true_iff, !Z.leb_le, !Z.ltb_lt in Hp.
    destruct (cell_at_in_grid p) as [r Hr]; [lia|lia|]. congruence.
Qed.
End GridShape.

(** A loop that assigns to one attribute of distinct objects. *)
Lemma for_each_assign {P} (ps : list P) (addr : P -> ref) (f : P -> Cell -> Cell)
    (body : P -> SE heap unit) :
  forall h,
  (forall p, p ∈ ps -> body p = assign (addr p) (f p)) ->
  NoDup (addr <$> ps) ->
  (forall p, p ∈ ps -> (addr p < length h)%nat) ->
  exists h',
    for_each ps body h = Some (tt, h') /\
    length h' = length h /\
    (forall r, r ∉ addr <$> ps -> h' !! r = h !! r) /\
    (forall p cell, p ∈ ps -> h !! addr p = Some cell -> h' !! addr p = Some (f p cell)).
Proof.
  induction ps as [|p ps IH]; intros h Hbody Hnd Hlt.
  - exists h. repeat split; try reflexivity. intros p cell Hp. inversion Hp.
  - rewrite fmap_cons in Hnd. apply NoDup_cons in Hnd as [Hp Hnd].
    destruct (lookup_lt_is_Some_2 h (addr p)) as [cell Hcell]; [apply Hlt; left|].
    set (h1 := <[addr p := f p cell]> h).
    destruct (IH h1) as (h' & Hrun & Hlen & Hsame & Hset).
    { intros q Hq. apply Hbody. right. exact Hq. }
    { exact Hnd. }
    { intros q Hq. unfold h1. rewrite length_insert. apply Hlt. right. exact Hq. }
    exists h'. cbn [for_each]. rewrite (Hbody p) by left.
    erewrite se_bind_Some; [|apply assign_eq; exact Hcell].
    split; [exact Hrun|]. split; [unfold h1 in Hlen; rewrite length_insert in Hlen; exact Hlen|].
    split.
    + intros r Hr. rewrite fmap_cons, not_elem_of_cons in Hr. destruct Hr as [Hne Hr].
      rewrite Hsame by exact Hr. unfold h1. apply list_lookup_insert_ne. congruence.
    + intros q cell' Hq Hcell'. apply elem_of_cons in Hq as [->|Hq].
      * rewrite Hcell in Hcell'. injection Hcell' as <-.
        rewrite Hsame by exact Hp. unfold h1.
        apply list_lookup_insert_eq. eapply lookup_lt_Some. exact Hcell.
      * apply Hset; [exact Hq|]. unfold h1. rewrite list_lookup_insert_ne; [exact Hcell'|].
        intros Heq. apply Hp. rewrite Heq. apply list_elem_of_fmap_2. exact Hq.
Qed.

Lemma setupNeighbors_spec (rows cols : Z) (cells : list (list ref)) (h : heap) :
  grid_shape rows cols cells ->
  NoDup (concat cells) ->
  (forall r, r ∈ concat cells -> (r < length h)%nat) ->
  exists h',
    CellGrid_setupNeighbors rows cols cells h = Some (tt, h') /\
    length h' = length h /\
    (forall r, r ∉ concat cells -> h' !! r = h !! r) /\
    (forall p r cell, p ∈ positions rows cols -> cell_at cells p = Some r ->
       h !! r = Some cell ->
       exists ns,
         mapM (cell_at cells) (List.filter (in_grid rows cols) (offsets p.1 p.2)) = Some ns /\
         Forall (fun n => n ∈ concat cells) ns /\
         h' !! r = Some (with_neighbors (Some <$> ns) cell)).
Proof.
  intros Hshape Hnd Hlt.
  set (addr := fun p : Z * Z => default 0%nat (cell_at cells p)).
  set (nbrs := fun p : Z * Z =>
         default [] (mapM (cell_at cells)
                          (List.filter (in_grid rows cols) (offsets p.1 p.2)))).
  set (body := fun row col : Z =>
         ns <- lift (mapM (cell_at cells) (omap id (compass rows cols row col))) ;;
         cell <- lift (cell_at cells (row, col)) ;;
         assign cell (with_neighbors (Some <$> ns))).
  assert (Haddr : addr <$> positions rows cols = concat cells)
    by (apply cell_at_positions; exact Hshape).
  destruct (for_each_assign (positions rows cols) addr
              (fun p => with_neighbors (Some <$> nbrs p))
              (fun p => body p.1 p.2) h)
    as (h' & Hrun & Hlen & Hsame & Hset).
  { intros [row col] Hp. apply elem_of_positions in Hp as [Hrow Hcol]. cbn [fst snd] in *.
    destruct (compass_cells rows cols cells Hshape row col Hrow Hcol) as (ns & Hc & Hf & _).
    destruct (cell_at_in_grid rows cols cells Hshape (row, col) Hrow Hcol) as [r Hr].
    unfold body, addr, nbrs. cbn [fst snd]. rewrite Hc, Hf, Hr. reflexivity. }
  { rewrite Haddr. exact Hnd. }
  { intros p Hp. apply Hlt. rewrite <- Haddr. apply list_elem_of_fmap_2. exact Hp. }
  exists h'. split.
  { unfold CellGrid_setupNeighbors, positions in *.
    rewrite <- Hrun. apply (for_each_nested (range rows) (range cols) body h). }
  split; [exact Hlen|]. split; [rewrite <- Haddr; exact Hsame|].
  intros p r cell Hp Hr Hcell.
  pose proof Hp as Hp'. apply elem_of_positions in Hp' as [Hrow Hcol].
  destruct (compass_cells rows cols cells Hshape p.1 p.2 Hrow Hcol) as (ns & _ & Hf & Hin).
  exists ns. split; [exact Hf|]. split; [exact Hin|].
  assert (Hap : addr p = r) by (unfold addr; rewrite Hr; reflexivity).
  specialize (Hset p cell Hp). rewrite Hap in Hset. rewrite (Hset Hcell).
  unfold nbrs. rewrite Hf. reflexivity.
Qed.

(** ** Building a grid *)

Lemma traverse_alloc {A} (f : A -> Cell) (l : list A) :
  forall h, traverse (fun x => alloc (f x)) l h
            = Some (seq (length h) (length l), h ++ (f <$> l)).
Proof.
  induction l as [|x l IH]; intros h; cbn [traverse].
  - unfold ret. simpl. rewrite app_nil_r. reflexivity.
  - erewrite se_bind_Some; [|reflexivity].
    erewrite se_bind_Some; [|apply IH].
    unfold ret. rewrite length_app, fmap_cons, <- app_assoc. simpl.
    rewrite Nat.add_1_r. reflexivity.
Qed.

Lemma traverse_rows_alloc {A B} (f : A -> B -> Cell) (rs : list A) (cs : list B) :
  forall h,
    traverse (fun r => traverse (fun c => alloc (f r c)) cs) rs h
    = Some (reshape (length rs) (length cs) (seq (length h) (length rs * length cs)),
            h ++ concat ((fun r => f r <$> cs) <$> rs)).
Proof.
  induction rs as [|r rs IH]; intros h; cbn [traverse].
  - unfold ret. simpl. rewrite app_nil_r. reflexivity.
  - erewrite se_bind_Some; [|apply traverse_alloc].
    erewrite se_bind_Some; [|apply IH].
    unfold ret. rewrite fmap_cons. cbn [concat length reshape].
    rewrite take_seq, drop_seq, length_app, length_fmap, <- app_assoc.
    repeat f_equal; lia.
Qed.

Lemma length_concat_fmap {A B C} (f : A -> B -> C) (rs : list A) (cs : list B) :
  length (concat ((fun r => f r <$> cs) <$> rs)) = (length rs * length cs)%nat.
Proof.
  induction rs as [|r rs IH]; [reflexivity|].
  rewrite fmap_cons. cbn [concat length]. rewrite length_app, length_fmap, IH. reflexivity.
Qed.

Lemma makeCell_alloc (boolean : bool) (i : ident) :
  makeCell boolean i = alloc (grid_cell boolean i).
Proof. destruct boolean; reflexivity. Qed.

Lemma grid_init_spec (boolean : bool) (rows cols : Z) (h : heap) :
  exists cells h',
    grid_init boolean rows cols h = Some (GridNet rows cols cells 0, h') /\
    grid_shape rows cols cells /\
    concat cells = seq (length h) (Z.to_nat rows * Z.to_nat cols) /\
    (forall r, (r < length h)%nat -> h' !! r = h !! r) /\
    (forall p r, p ∈ positions rows cols -> cell_at cells p = Some r ->
       exists cell ns,
         h' !! r = Some cell /\
         mapM (cell_at cells) (List.filter (in_grid rows cols) (offsets p.1 p.2)) = Some ns /\
         neighbors cell = Some <$> ns /\
         Forall (fun n => n ∈ concat cells) ns /\
         generation cell = 0 /\
         kind cell = (if boolean then KBoolean else KBase)).
Proof.
  set (n := (Z.to_nat rows * Z.to_nat cols)%nat).
  set (cells := reshape (Z.to_nat rows) (Z.to_nat cols) (seq (length h) n)).
  set (news := concat ((fun row => (fun col => grid_cell boolean (RowCol row col))
                                     <$> range cols) <$> range rows)).
  assert (Hbuild : traverse (fun row => traverse (fun col => makeCell boolean (RowCol row col))
                                                 (range cols)) (range rows) h
                   = Some (cells, h ++ news)).
  { unfold cells, news, n. rewrite <- (length_range rows), <- (length_range cols).
    rewrite <- traverse_rows_alloc. destruct boolean; reflexivity. }
  assert (Hshape : grid_shape rows cols cells).
  { apply grid_shape_reshape. rewrite length_seq. unfold n. lia. }
  assert (Hconcat : concat cells = seq (length h) n).
  { unfold cells. rewrite concat_reshape by (rewrite length_seq; unfold n; lia).
    apply take_ge. rewrite length_seq. unfold n. lia. }
  assert (Hnews : Forall (fun c => generation c = 0 /\
                                   kind c = (if boolean then KBoolean else KBase)) news).
  { unfold news. apply Forall_forall. intros c Hc.
    apply list_elem_of_In, in_concat in Hc as (l & Hl & Hc).
    apply list_elem_of_In, list_elem_of_fmap in Hl as (row & -> & _).
    apply list_elem_of_In, list_elem_of_fmap in Hc as (col & -> & _).
    destruct boolean; split; reflexivity. }
  assert (Hlennews : length news = n).
  { unfold news, n. rewrite length_concat_fmap, !length_range. reflexivity. }
  destruct (setupNeighbors_spec rows cols cells (h ++ news) Hshape)
    as (h' & Hrun & Hlen & Hsame & Hset).
  { rewrite Hconcat. apply NoDup_seq. }
  { intros r Hr. rewrite Hconcat in Hr. apply elem_of_seq in Hr.
    rewrite length_app. lia. }
  exists cells, h'. split.
  { unfold grid_init.
    erewrite se_bind_Some; [|exact Hbuild].
    erewrite se_bind_Some; [|exact Hrun]. reflexivity. }
  split; [exact Hshape|]. split; [exact Hconcat|]. split.
  { intros r Hr. rewrite Hsame.
    - apply lookup_app_l. exact Hr.
    - rewrite Hconcat, elem_of_seq. lia. }
  intros p r Hp Hr.
  assert (Hin : r ∈ concat cells) by (eapply cell_at_elem_of; exact Hr).
  rewrite Hconcat in Hin. apply elem_of_seq in Hin.
  destruct (lookup_lt_is_Some_2 (h ++ news) r) as [cell Hcell]; [rewrite length_app; lia|].
  destruct (Hset p r cell Hp Hr Hcell) as (ns & Hns & Hall & Hlook).
  exists (with_neighbors (Some <$> ns) cell), ns.
  split; [exact Hlook|]. split; [exact Hns|]. split; [reflexivity|]. split; [exact Hall|].
  rewrite lookup_app_r in Hcell by lia.
  apply list_elem_of_lookup_2 in Hcell.
  eapply Forall_forall in Hnews; [|exact Hcell]. exact Hnews.
Qed.

(** C6: in a grid built by [CellGrid] or [BooleanCellGrid] the cells are
    distinct objects, and the neighbors of the cell at [(row, col)] are the
    cells at those of the eight compass offsets that lie in
    [[0, rows) x [0, cols)], in compass order, and no others; in a 3 x 3 grid
    that makes 3 neighbors for a corner, 5 for an edge and 8 for the center. *)
Theorem grid_neighbors (boolean : bool) (rows cols : Z) (h : heap) :
  (exists cells h',
     grid_init boolean rows cols h = Some (GridNet rows cols cells 0, h') /\
     NoDup (concat cells) /\
     forall row col, 0 <= row < rows -> 0 <= col < cols ->
       exists r cell ns,
         cell_at cells (row, col) = Some r /\ h' !! r = Some cell /\
         mapM (cell_at cells) (List.filter (in_grid rows cols) (offsets row col)) = Some ns /\
         neighbors cell = Some <$> ns) /\
  (exists cells h',
     grid_init boolean 3 3 [] = Some (GridNet 3 3 cells 0, h') /\
     neighbor_counts h' cells = Some [[3; 5; 3]; [5; 8; 5]; [3; 5; 3]]%nat).
Proof.
  split.
  - destruct (grid_init_spec boolean rows cols h)
      as (cells & h' & Hrun & Hshape & Hconcat & _ & Hcells).
    exists cells, h'. split; [exact Hrun|]. split; [rewrite Hconcat; apply NoDup_seq|].
    intros row col Hrow Hcol.
    destruct (cell_at_in_grid rows cols cells Hshape (row, col) Hrow Hcol) as [r Hr].
    destruct (Hcells (row, col) r) as (cell & ns & Hlook & Hns & Hneigh & _);
      [apply elem_of_positions; split; assumption|exact Hr|].
    exists r, cell, ns. repeat split; assumption.
  - destruct boolean; eexists _, _; split; vm_compute; reflexivity.
Qed.

(** ** Stores *)

Lemma with_descendant_id c : with_descendant (descendant c) c = c.
Proof. destruct c. reflexivity. Qed.

Lemma with_descendant_twice d d' c :
  with_descendant d (with_descendant d' c) = with_descendant d c.
Proof. reflexivity. Qed.

Lemma ext_refl h : ext h h.
Proof. intros r c Hr. exists (descendant c). rewrite with_descendant_id. exact Hr. Qed.

Lemma ext_trans h1 h2 h3 : ext h1 h2 -> ext h2 h3 -> ext h1 h3.
Proof.
  intros H12 H23 r c Hr.
  destruct (H12 r c Hr) as [d Hd]. destruct (H23 _ _ Hd) as [d' Hd'].
  exists d'. rewrite Hd'. reflexivity.
Qed.

Lemma ext_length h h' : ext h h' -> (length h <= length h')%nat.
Proof.
  intros Hext. destruct (decide (length h <= length h')%nat) as [|Hgt]; [assumption|].
  destruct (lookup_lt_is_Some_2 h (length h')) as [c Hc]; [lia|].
  destruct (Hext _ _ Hc) as [d Hd]. apply lookup_lt_Some in Hd. lia.
Qed.

Lemma ext_deref_state h h' n c :
  ext h h' -> deref h n = Some c ->
  exists c', deref h' n = Some c' /\ state c' = state c.
Proof.
  intros Hext. destruct n as [r|]; [|discriminate]. simpl. intros Hr.
  destruct (Hext _ _ Hr) as [d Hd]. exists (with_descendant d c).
  split; [exact Hd|reflexivity].
Qed.

Lemma ext_neighbor_states h h' ns vs :
  ext h h' -> neighbor_states h ns = Some vs -> neighbor_states h' ns = Some vs.
Proof.
  intros Hext. unfold neighbor_states. rewrite !mapM_Some.
  intros H. eapply Forall2_impl; [exact H|]. clear H. intros n v Hn.
  apply fmap_Some in Hn as (c & Hc & ->).
  destruct (ext_deref_state _ _ _ _ Hext Hc) as (c' & -> & <-). reflexivity.
Qed.

(** The rule of a cell gives the same value in an extended store, also when
    the cell itself has moved on in its lineage. *)
Lemma ext_regenerate h h' c c' v :
  ext h h' ->
  kind c' = kind c -> state c' = state c -> neighbors c' = neighbors c ->
  regenerate h c = Some v -> regenerate h' c' = Some v.
Proof.
  intros Hext Hk Hs Hn. unfold regenerate. rewrite Hk, Hs, Hn.
  destruct (kind c); try (intros H; exact H).
  intros H. apply bind_Some in H as (vs & Hvs & Hsum).
  rewrite (ext_neighbor_states _ _ _ _ Hext Hvs). exact Hsum.
Qed.

(** ** Cloning and the next generation *)

Lemma clone_eq (h : heap) (self : ref) (cell : Cell) (newIdentity : option ident) :
  h !! self = Some cell ->
  clone self newIdentity h =
    Some (length h,
          <[self := with_descendant (Some (length h)) cell]> h ++
          [mkCell (kind cell) (default (identity cell) newIdentity) (state cell)
                  (generation cell + 1) [] (Some self) None]).
Proof.
  intros Hself. unfold clone.
  erewrite se_bind_Some; [|apply get_eq; exact Hself].
  erewrite se_bind_Some; [|reflexivity].
  erewrite se_bind_Some; [|apply assign_eq, lookup_app_l_Some; exact Hself].
  unfold ret. rewrite insert_app_l by (eapply lookup_lt_Some; exact Hself).
  reflexivity.
Qed.

Lemma lookup_last {A} (l : list A) (n : nat) (x : A) :
  n = length l -> (l ++ [x]) !! n = Some x.
Proof. intros ->. apply list_lookup_middle. reflexivity. Qed.

Lemma insert_last {A} (l : list A) (n : nat) (x y : A) :
  n = length l -> <[n := y]> (l ++ [x]) = l ++ [y].
Proof. intros ->. rewrite insert_app_r_alt, Nat.sub_diag by lia. reflexivity. Qed.

Lemma ext_insert_descendant h r c d :
  h !! r = Some c -> ext h (<[r := with_descendant d c]> h).
Proof.
  intros Hr r' c' Hr'. destruct (decide (r' = r)) as [->|Hne].
  - exists d. rewrite Hr in Hr'. injection Hr' as <-.
    apply list_lookup_insert_eq. eapply lookup_lt_Some. exact Hr.
  - exists (descendant c'). rewrite with_descendant_id.
    rewrite list_lookup_insert_ne by congruence. exact Hr'.
Qed.

Lemma ext_app h l : ext h (h ++ l).
Proof.
  intros r c Hr. exists (descendant c). rewrite with_descendant_id.
  apply lookup_app_l_Some. exact Hr.
Qed.

Lemma nextGen_eq (h : heap) (self : ref) (cell : Cell) (newIdentity : option ident) (v : value) :
  h !! self = Some cell ->
  regenerate h cell = Some v ->
  nextGen self newIdentity h =
    Some (length h,
          <[self := with_descendant (Some (length h)) cell]> h ++
          [mkCell (kind cell) (default (identity cell) newIdentity) v
                  (generation cell + 1) (neighbors cell) (Some self) None]).
Proof.
  intros Hself Hv. unfold nextGen.
  pose proof (lookup_lt_Some _ _ _ Hself) as Hlt.
  erewrite se_bind_Some; [|apply clone_eq; exact Hself].
  assert (Hlen : length h = length (<[self := with_descendant (Some (length h)) cell]> h))
    by (symmetry; apply length_insert).
  erewrite se_bind_Some; cycle 1.
  { apply get_eq. apply lookup_app_l_Some. apply list_lookup_insert_eq. exact Hlt. }
  erewrite se_bind_Some; cycle 1.
  { apply assign_eq. apply lookup_last. exact Hlen. }
  rewrite insert_last by exact Hlen.
  cbn [neighbors with_descendant with_neighbors kind identity state generation ancestor
       descendant].
  unfold mutate.
  erewrite se_bind_Some; cycle 1.
  { erewrite se_bind_Some; [|apply get_eq, lookup_last; exact Hlen].
    erewrite se_bind_Some; cycle 1.
    { unfold read. apply se_lift_Some.
      eapply (ext_regenerate h); [| | | |exact Hv]; try reflexivity.
      eapply ext_trans; [|apply ext_app].
      apply ext_insert_descendant. exact Hself. }
    apply assign_eq, lookup_last. exact Hlen. }
  unfold ret. rewrite insert_last by exact Hlen.
  reflexivity.
Qed.



(** C7: [clone] on a cell without a descendant returns a new object, one
    generation on, whose ancestor is the cell, without descendant, with the
    state and kind of the cell, without neighbors, and with the identity given
    or else inherited; in the store only the descendant link of the cell
    changes, to the new object. *)
Theorem clone_spec (h : heap) (self : ref) (cell : Cell) (newIdentity : option ident) :
  h !! self = Some cell ->
  descendant cell = None ->
  exists new c' h',
    clone self newIdentity h = Some (new, h') /\
    h !! new = None /\ h' !! new = Some c' /\
    generation c' = generation cell + 1 /\
    ancestor c' = Some self /\
    descendant c' = None /\
    state c' = state cell /\
    neighbors c' = [] /\
    kind c' = kind cell /\
    identity c' = default (identity cell) newIdentity /\
    h' !! self = Some (with_descendant (Some new) cell) /\
    (forall r, r <> self -> r <> new -> h' !! r = h !! r).
Proof.
  intros Hself _. pose proof (lookup_lt_Some _ _ _ Hself) as Hlt.
  eexists (length h), _, _. split; [apply clone_eq; exact Hself|].
  split; [apply lookup_ge_None; lia|].
  split; [apply lookup_last; symmetry; apply length_insert|].
  do 7 (split; [reflexivity|]).
  split.
  - apply lookup_app_l_Some, list_lookup_insert_eq. exact Hlt.
  - intros r Hr Hnew. destruct (decide (r < length h)%nat) as [Hr'|Hr'].
    + rewrite lookup_app_l by (rewrite length_insert; exact Hr').
      apply list_lookup_insert_ne. congruence.
    + rewrite !lookup_ge_None_2; [reflexivity|lia|].
      rewrite length_app, length_insert. simpl. lia.
Qed.

Lemma clone_spec_witness :
  exists new c' h',
    clone 0%nat (Some (Name "Cell 5")) [new_cell KInteger (Name "Cell 2") (VInt 3)]
      = Some (new, h') /\
    [new_cell KInteger (Name "Cell 2") (VInt 3)] !! new = None /\ h' !! new = Some c' /\
    generation c' = 0 + 1 /\
    ancestor c' = Some 0%nat /\
    descendant c' = None /\
    state c' = VInt 3 /\
    neighbors c' = [] /\
    kind c' = KInteger /\
    identity c' = Name "Cell 5" /\
    h' !! 0%nat = Some (with_descendant (Some new) (new_cell KInteger (Name "Cell 2") (VInt 3))) /\
    (forall r, r <> 0%nat -> r <> new ->
               h' !! r = [new_cell KInteger (Name "Cell 2") (VInt 3)] !! r).
Proof.
  apply (clone_spec [new_cell KInteger (Name "Cell 2") (VInt 3)] 0%nat
                    (new_cell KInteger (Name "Cell 2") (VInt 3)) (Some (Name "Cell 5")));
    reflexivity.
Defined.

(** The model of [cell.py] gives what [testBaseCellCloneUpdate] asserts: the
    dumps ['Cell 1<1> A: Cell 1<0> D: None N: None'],
    ['Cell 2<0> A: None D: Cell 5<1> N: None'],
    ['Cell 5<1> A: Cell 2<0> D: None N: None'] and
    ['Cell 6<2> A: Cell 5<1> D: None N: None'], and all the links. *)
Lemma testBaseCellCloneUpdate_passes :
  testBaseCellCloneUpdate =
    Some ([Some ((Name "Cell 1", 1), Some (Name "Cell 1", 0), None, []);
           Some ((Name "Cell 2", 0), None, Some (Name "Cell 5", 1), []);
           Some ((Name "Cell 5", 1), Some (Name "Cell 2", 0), None, []);
           Some ((Name "Cell 6", 2), Some (Name "Cell 5", 1), None, [])],
          [true; true; true; true; true; true]).
Proof. reflexivity. Qed.

(** The model of [cell.py] gives what [testIntegerCell] asserts: state 6
    after [mutate], state 16 in the next generation. *)
Lemma testIntegerCell_passes : testIntegerCell = Some (VInt 6, VInt 16).
Proof. reflexivity. Qed.

(** ** One round of [tick]: the new generation *)

Lemma seq_cons (a n : nat) : a :: seq (S a) n = seq a (S n).
Proof. reflexivity. Qed.

Lemma traverse_nextGen (h0 : heap) (l : list ref) :
  (forall c, c ∈ l -> exists cell v, h0 !! c = Some cell /\ regenerate h0 cell = Some v) ->
  forall h, ext h0 h ->
  exists h1,
    traverse (fun cell => nextGen cell None) l h = Some (seq (length h) (length l), h1) /\
    length h1 = (length h + length l)%nat /\
    ext h h1 /\
    (forall r, r ∉ l -> (r < length h)%nat -> h1 !! r = h !! r) /\
    (forall i c cell, l !! i = Some c -> h0 !! c = Some cell ->
       exists v, regenerate h0 cell = Some v /\
                 h1 !! (length h + i)%nat = Some (next_cell c cell v)) /\
    (forall r, r ∈ l ->
       exists i, l !! i = Some r /\ (forall j, (i < j)%nat -> l !! j <> Some r) /\
                 descendant <$> h1 !! r = Some (Some (length h + i)%nat)).
Proof.
  induction l as [|c l IH]; intros Hl h Hext.
  - exists h. cbn [traverse length seq]. unfold ret. rewrite Nat.add_0_r.
    repeat split; try reflexivity.
    + apply ext_refl.
    + intros i c cell Hi. discriminate.
    + intros r Hr. inversion Hr.
  - destruct (Hl c) as (cell & v & Hc0 & Hv); [left|].
    destruct (Hext _ _ Hc0) as [d Hc].
    pose proof (lookup_lt_Some _ _ _ Hc) as Hlt.
    assert (Hv' : regenerate h (with_descendant d cell) = Some v).
    { eapply ext_regenerate; [exact Hext| | | |exact Hv]; reflexivity. }
    pose proof (nextGen_eq h c _ None v Hc Hv') as Hnext.
    rewrite with_descendant_twice in Hnext.
    change (mkCell _ _ _ _ _ _ _) with (next_cell c cell v) in Hnext.
    set (h' := <[c := with_descendant (Some (length h)) cell]> h ++ [next_cell c cell v]) in *.
    assert (Hlen' : length h' = S (length h)).
    { unfold h'. rewrite length_app, length_insert. simpl. lia. }
    assert (Hext' : ext h h').
    { eapply ext_trans; [|apply ext_app].
      intros r x Hr. destruct (decide (r = c)) as [->|Hne].
      - exists (Some (length h)). rewrite Hc in Hr. injection Hr as <-.
        rewrite with_descendant_twice. apply list_lookup_insert_eq. exact Hlt.
      - exists (descendant x). rewrite with_descendant_id.
        rewrite list_lookup_insert_ne by congruence. exact Hr. }
    assert (Hold : forall r, r ∈ l -> (r < length h)%nat).
    { intros r Hr. destruct (Hl r) as (x & _ & Hx & _); [right; exact Hr|].
      apply lookup_lt_Some in Hx. apply ext_length in Hext. lia. }
    destruct (IH (fun r Hr => Hl r (list_elem_of_further _ _ _ Hr)) h'
                 (ext_trans _ _ _ Hext Hext'))
      as (h1 & Htr & Hlen1 & Hext1 & Hsame & Hnew & Hdesc).
    exists h1. cbn [traverse length].
    erewrite se_bind_Some; [|exact Hnext].
    erewrite se_bind_Some; [|exact Htr].
    unfold ret. rewrite Hlen', seq_cons.
    split; [reflexivity|]. split; [lia|].
    split; [eapply ext_trans; eassumption|].
    assert (Hsame' : forall r, r ∉ l -> r <> c -> (r < length h)%nat -> h1 !! r = h !! r).
    { intros r Hr Hne Hrlt. rewrite Hsame by (try exact Hr; lia).
      unfold h'. rewrite lookup_app_l by (rewrite length_insert; exact Hrlt).
      apply list_lookup_insert_ne. congruence. }
    split; [|split].
    + intros r Hr Hrlt. apply Hsame'; [| |exact Hrlt].
      * intros Hin. apply Hr. right. exact Hin.
      * intros ->. apply Hr. left.
    + intros [|i] c' cell' Hi Hc'; cbn in Hi.
      * injection Hi as <-. rewrite Hc0 in Hc'. injection Hc' as <-.
        exists v. split; [exact Hv|]. rewrite Nat.add_0_r.
        rewrite Hsame; [| |lia].
        -- unfold h'. apply lookup_last. symmetry. apply length_insert.
        -- intros Hin. apply Hold in Hin. lia.
      * destruct (Hnew i c' cell' Hi Hc') as (v' & Hv'' & Hlook).
        exists v'. split; [exact Hv''|].
        rewrite Hlen' in Hlook. rewrite <- Hlook. f_equal. lia.
    + intros r Hr. destruct (decide (r ∈ l)) as [Hin|Hnin].
      * destruct (Hdesc r Hin) as (i & Hi & Hlast & Hd).
        exists (S i). split; [exact Hi|]. split.
        -- intros [|j] Hj; [lia|]. cbn. apply Hlast. lia.
        -- rewrite Hd, Hlen'. do 2 f_equal. lia.
      * assert (r = c) as -> by (inversion Hr; subst; [reflexivity|contradiction]).
        exists 0%nat. split; [reflexivity|]. split.
        -- intros [|j] Hj; [lia|]. cbn. intros Hj'. apply Hnin.
           eapply list_elem_of_lookup_2. exact Hj'.
        -- rewrite Hsame by (try exact Hnin; lia).
           unfold h'. rewrite lookup_app_l by (rewrite length_insert; exact Hlt).
           rewrite list_lookup_insert_eq by exact Hlt. rewrite Nat.add_0_r. reflexivity.
Qed.

(** ** One round of [tick]: rewiring *)

Lemma descendants_of_agree (h h' : heap) (ns : list (option ref)) :
  Forall (fun n => deref h' n = deref h n) ns ->
  descendants_of h' ns = descendants_of h ns.
Proof.
  intros H. unfold descendants_of. apply Forall_mapM_ext.
  eapply Forall_impl; [exact H|]. intros n Hn. simpl in Hn. rewrite Hn. reflexivity.
Qed.

Lemma descendants_of_is_Some (h : heap) (ns : list (option ref)) :
  Forall (valid_neighbor h) ns -> is_Some (descendants_of h ns).
Proof.
  intros H. unfold descendants_of. apply mapM_is_Some.
  eapply Forall_impl; [exact H|]. intros n (r & -> & Hr).
  apply lookup_lt_is_Some_2 in Hr as [x Hx].
  unfold compose, deref. simpl. rewrite Hx. eexists. reflexivity.
Qed.

Lemma rewire_eq (h : heap) (c : ref) (cell : Cell) (ns : list (option ref)) :
  h !! c = Some cell ->
  descendants_of h (neighbors cell) = Some ns ->
  rewire c h = Some (tt, <[c := with_neighbors ns cell]> h).
Proof.
  intros Hc Hns. unfold rewire.
  erewrite se_bind_Some; [|apply get_eq; exact Hc].
  erewrite se_bind_Some; [|unfold read; apply se_lift_Some; exact Hns].
  apply assign_eq. exact Hc.
Qed.

(** Rewiring a list of distinct cells none of which is a neighbor of any of
    them: each gets the descendants of its neighbors as the store had them
    before, and nothing else changes. *)
Lemma for_each_rewire (l : list ref) :
  forall h,
  NoDup l ->
  (forall c, c ∈ l -> exists cell, h !! c = Some cell /\
     Forall (fun n => valid_neighbor h n /\ forall r, n = Some r -> r ∉ l) (neighbors cell)) ->
  exists h',
    for_each l rewire h = Some (tt, h') /\
    length h' = length h /\
    (forall r, r ∉ l -> h' !! r = h !! r) /\
    (forall c cell, c ∈ l -> h !! c = Some cell ->
       exists ns, descendants_of h (neighbors cell) = Some ns /\
                  h' !! c = Some (with_neighbors ns cell)).
Proof.
  induction l as [|c l IH]; intros h Hnd Hl.
  - exists h. repeat split; try reflexivity. intros c cell Hc. inversion Hc.
  - apply NoDup_cons in Hnd as [Hc Hnd].
    destruct (Hl c) as (cell & Hcell & Hns); [left|].
    destruct (descendants_of_is_Some h (neighbors cell)) as [ns Hdesc].
    { eapply Forall_impl; [exact Hns|]. intros n [Hn _]. exact Hn. }
    set (h1 := <[c := with_neighbors ns cell]> h).
    assert (Hother : forall r, r <> c -> h1 !! r = h !! r).
    { intros r Hr. unfold h1. apply list_lookup_insert_ne. congruence. }
    assert (Hlen1 : length h1 = length h) by apply length_insert.
    assert (Hagree : forall c' cell', c' ∈ c :: l -> h !! c' = Some cell' ->
              descendants_of h1 (neighbors cell') = descendants_of h (neighbors cell')).
    { intros c' cell' Hc' Hcell'. apply descendants_of_agree.
      destruct (Hl c' Hc') as (x & Hx & Hxs). rewrite Hcell' in Hx. injection Hx as <-.
      eapply Forall_impl; [exact Hxs|]. intros n [(r & -> & _) Hnotin]. simpl.
      apply Hother. intros ->. apply (Hnotin c); [reflexivity|left]. }
    destruct (IH h1 Hnd) as (h' & Hrun & Hlen & Hsame & Hnew).
    { intros c' Hc'. destruct (Hl c') as (cell' & Hcell' & Hns'); [right; exact Hc'|].
      exists cell'. split.
      - rewrite Hother; [exact Hcell'|]. intros ->. contradiction.
      - eapply Forall_impl; [exact Hns'|]. intros n [(r & -> & Hr) Hnotin].
        split; [exists r; split; [reflexivity|lia]|].
        intros r' [= <-] Hin. apply (Hnotin r); [reflexivity|right; exact Hin]. }
    exists h'. cbn [for_each].
    erewrite se_bind_Some; [|eapply rewire_eq; [exact Hcell|exact Hdesc]].
    split; [exact Hrun|]. split; [lia|]. split.
    + intros r Hr. rewrite Hsame.
      * apply Hother. intros ->. apply Hr. left.
      * intros Hin. apply Hr. right. exact Hin.
    + intros c' cell' Hc' Hcell'. destruct (decide (c' = c)) as [->|Hne].
      * rewrite Hcell in Hcell'. injection Hcell' as <-.
        exists ns. split; [exact Hdesc|]. rewrite Hsame by exact Hc.
        unfold h1. apply list_lookup_insert_eq. eapply lookup_lt_Some. exact Hcell.
      * assert (Hin : c' ∈ l) by (inversion Hc'; subst; [contradiction|assumption]).
        destruct (Hnew c' cell' Hin) as (ns' & Hns' & Hlook).
        { rewrite Hother by exact Hne. exact Hcell'. }
        exists ns'. split; [|exact Hlook].
        rewrite <- Hns'. symmetry. apply (Hagree c' cell' Hc' Hcell').
Qed.

(** ** One round of [tick] *)

Lemma ready_regenerate h c :
  ready h c -> exists cell v, h !! c = Some cell /\ regenerate h cell = Some v.
Proof. intros (cell & Hc & _ & [v Hv]). exists cell, v. split; assumption. Qed.

(** The new cells of the net after [tick1], as a list, for both classes. *)
Lemma fromList_toList (net : CellNet) (l newList : list ref) :
  toList net = Some l -> length newList = length l ->
  exists net',
    fromList net newList = Some net' /\
    toList (next_generation net') = Some newList /\
    net_generation (next_generation net') = net_generation net + 1.
Proof.
  intros Hl Hlen. destruct net as [cells g|rows cols cells g]; simpl in Hl.
  - exists (FlatNet newList g). repeat split.
  - apply toList_length in Hl.
    exists (GridNet rows cols (reshape (Z.to_nat rows) (Z.to_nat cols) newList) g).
    cbn [fromList]. rewrite fromList_Some by lia. split; [reflexivity|]. split; [|reflexivity].
    simpl. rewrite toList_shape by (apply grid_shape_reshape; lia).
    rewrite concat_reshape, take_ge by lia. reflexivity.
Qed.

Lemma tick1_spec (net : CellNet) (h : heap) (l : list ref) :
  toList net = Some l ->
  (forall c, c ∈ l -> ready h c) ->
  exists net' h',
    tick1 net h = Some (net', h') /\
    toList net' = Some (seq (length h) (length l)) /\
    net_generation net' = net_generation net + 1 /\
    length h' = (length h + length l)%nat /\
    ext h h' /\
    (forall r, r ∉ l -> (r < length h)%nat -> h' !! r = h !! r) /\
    (forall r, r ∈ l ->
       exists i, l !! i = Some r /\ (forall j, (i < j)%nat -> l !! j <> Some r) /\
                 descendant <$> h' !! r = Some (Some (length h + i)%nat)) /\
    (forall i c cell, l !! i = Some c -> h !! c = Some cell ->
       exists v ns, regenerate h cell = Some v /\
                    descendants_of h' (neighbors cell) = Some ns /\
                    h' !! (length h + i)%nat = Some (with_neighbors ns (next_cell c cell v))).
Proof.
  intros Hl Hready.
  destruct (traverse_nextGen h l (fun c Hc => ready_regenerate h c (Hready c Hc)) h (ext_refl h))
    as (h1 & Htr & Hlen1 & Hext1 & Hsame1 & Hnew1 & Hdesc1).
  set (newList := seq (length h) (length l)) in *.
  assert (Hidx : forall c', c' ∈ newList ->
            exists i c cell, c' = (length h + i)%nat /\ l !! i = Some c /\ h !! c = Some cell /\
                             Forall (valid_neighbor h) (neighbors cell)).
  { intros c' Hc'. apply elem_of_seq in Hc'.
    destruct (lookup_lt_is_Some_2 l (c' - length h)) as [c Hc]; [lia|].
    destruct (Hready c) as (cell & Hcell & Hns & _); [eapply list_elem_of_lookup_2; exact Hc|].
    exists (c' - length h)%nat, c, cell. repeat split; try assumption. lia. }
  destruct (for_each_rewire newList h1 (NoDup_seq _ _)) as (h2 & Hrun & Hlen2 & Hsame2 & Hnew2).
  { intros c' Hc'. destruct (Hidx c' Hc') as (i & c & cell & -> & Hi & Hcell & Hns).
    destruct (Hnew1 i c cell Hi Hcell) as (v & _ & Hlook).
    exists (next_cell c cell v). split; [exact Hlook|]. cbn [next_cell neighbors].
    eapply Forall_impl; [exact Hns|]. intros n (r & -> & Hr). split.
    - exists r. split; [reflexivity|lia].
    - intros r' [= <-]. unfold newList. rewrite elem_of_seq. lia. }
  assert (Hsame2' : forall r, (r < length h)%nat -> h2 !! r = h1 !! r).
  { intros r Hr. apply Hsame2. unfold newList. rewrite elem_of_seq. lia. }
  destruct (fromList_toList net l newList Hl) as (net' & Hnet' & HtoList & Hgen).
  { unfold newList. apply length_seq. }
  exists (next_generation net'), h2. split; [|split; [exact HtoList|split; [exact Hgen|]]].
  { unfold tick1.
    erewrite se_bind_Some; [|apply se_lift_Some; exact Hl].
    erewrite se_bind_Some; [|exact Htr].
    erewrite se_bind_Some; [|exact Hrun].
    erewrite se_bind_Some; [|apply se_lift_Some; exact Hnet'].
    reflexivity. }
  split; [lia|]. split; [|split; [|split]].
  - intros r c Hr. destruct (Hext1 r c Hr) as [d Hd]. exists d.
    rewrite Hsame2'; [exact Hd|]. eapply lookup_lt_Some. exact Hr.
  - intros r Hr Hlt. rewrite Hsame2' by exact Hlt. apply Hsame1; assumption.
  - intros r Hr. destruct (Hdesc1 r Hr) as (i & Hi & Hlast & Hd).
    exists i. split; [exact Hi|]. split; [exact Hlast|].
    rewrite Hsame2'; [exact Hd|].
    destruct (Hready r Hr) as (cell & Hcell & _). eapply lookup_lt_Some. exact Hcell.
  - intros i c cell Hi Hcell.
    destruct (Hnew1 i c cell Hi Hcell) as (v & Hv & Hlook).
    destruct (Hnew2 (length h + i)%nat (next_cell c cell v)) as (ns & Hns & Hlook2).
    { unfold newList. rewrite elem_of_seq. apply lookup_lt_Some in Hi. lia. }
    { exact Hlook. }
    exists v, ns. split; [exact Hv|]. split; [|exact Hlook2].
    rewrite <- Hns. cbn [next_cell neighbors]. apply descendants_of_agree.
    destruct (Hready c) as (cell' & Hcell' & Hvalid & _);
      [eapply list_elem_of_lookup_2; exact Hi|].
    rewrite Hcell in Hcell'. injection Hcell' as <-.
    eapply Forall_impl; [exact Hvalid|]. intros n (r & -> & Hr). simpl.
    apply Hsame2'. exact Hr.
Qed.

(** ** When a round of [tick] returns *)

Lemma ext_neighbor_states_inv h h' ns vs :
  ext h h' ->
  Forall (fun n => forall r, n = Some r -> (r < length h)%nat) ns ->
  neighbor_states h' ns = Some vs -> neighbor_states h ns = Some vs.
Proof.
  intros Hext Hns. unfold neighbor_states. rewrite !mapM_Some. intros H.
  induction H as [|n v ns vs Hn _ IH]; [constructor|].
  apply Forall_cons in Hns as [Hr Hns]. constructor; [|apply IH; exact Hns].
  destruct n as [r|]; [|discriminate]. simpl in *.
  destruct (lookup_lt_is_Some_2 h r (Hr r eq_refl)) as [x Hx].
  destruct (Hext r x Hx) as [d Hd]. rewrite Hd in Hn. rewrite Hx. exact Hn.
Qed.

Lemma ext_regenerate_inv h h' c c' v :
  ext h h' ->
  kind c' = kind c -> state c' = state c -> neighbors c' = neighbors c ->
  Forall (fun n => forall r, n = Some r -> (r < length h)%nat) (neighbors c) ->
  regenerate h' c' = Some v -> regenerate h c = Some v.
Proof.
  intros Hext Hk Hs Hn Hns. unfold regenerate. rewrite Hk, Hs, Hn.
  destruct (kind c); try (intros H; exact H).
  intros H. apply bind_Some in H as (vs & Hvs & Hsum).
  rewrite (ext_neighbor_states_inv _ _ _ _ Hext Hns Hvs). exact Hsum.
Qed.

(** If [nextGen] returns, the rule of the cell is defined in the store as it
    was when the round began. *)
Lemma nextGen_Some_inv (h0 h : heap) (c : ref) (cell : Cell) (r : ref) (h' : heap) :
  ext h0 h ->
  h0 !! c = Some cell ->
  Forall (fun n => forall r, n = Some r -> (r < length h0)%nat) (neighbors cell) ->
  nextGen c None h = Some (r, h') ->
  is_Some (regenerate h0 cell).
Proof.
  intros Hext Hc Hns Hrun.
  destruct (Hext c cell Hc) as [d Hd].
  pose proof (lookup_lt_Some _ _ _ Hd) as Hlt.
  assert (Hlen : length h = length (<[c := with_descendant (Some (length h))
                                              (with_descendant d cell)]> h))
    by (symmetry; apply length_insert).
  unfold nextGen in Hrun.
  erewrite se_bind_Some in Hrun; [|apply clone_eq; exact Hd].
  erewrite se_bind_Some in Hrun; cycle 1.
  { apply get_eq, lookup_app_l_Some, list_lookup_insert_eq. exact Hlt. }
  erewrite se_bind_Some in Hrun; cycle 1.
  { apply assign_eq, lookup_last. exact Hlen. }
  rewrite insert_last in Hrun by exact Hlen.
  unfold mutate, bind in Hrun.
  rewrite (get_eq (length h) _ _ (lookup_last _ _ _ Hlen)) in Hrun.
  unfold read, lift in Hrun.
  match type of Hrun with
  | context [regenerate ?h2 ?c2] => destruct (regenerate h2 c2) as [v|] eqn:Hv
  end; [|discriminate].
  exists v. eapply ext_regenerate_inv; [| | | |exact Hns|exact Hv]; try reflexivity.
  eapply ext_trans; [exact Hext|]. eapply ext_trans; [|apply ext_app].
  apply ext_insert_descendant. exact Hd.
Qed.

Lemma traverse_nextGen_inv (h0 : heap) (l : list ref) :
  in_store h0 l ->
  forall h nl h1, ext h0 h ->
  traverse (fun cell => nextGen cell None) l h = Some (nl, h1) ->
  forall c, c ∈ l -> exists cell v, h0 !! c = Some cell /\ regenerate h0 cell = Some v.
Proof.
  induction l as [|c l IH]; intros Hin h nl h1 Hext Hrun c' Hc'; [inversion Hc'|].
  cbn [traverse] in Hrun. unfold bind at 1 in Hrun.
  destruct (nextGen c None h) as [[r h']|] eqn:Hnext; [|discriminate].
  destruct (Hin c) as (cell & Hcell & Hns); [left|].
  destruct (nextGen_Some_inv h0 h c cell r h' Hext Hcell Hns Hnext) as [v Hv].
  apply elem_of_cons in Hc' as [->|Hc']; [exists cell, v; split; assumption|].
  unfold bind at 1 in Hrun.
  destruct (traverse (fun cell => nextGen cell None) l h') as [[nl' h1']|] eqn:Htr;
    [|discriminate].
  eapply (IH (fun x Hx => Hin x (list_elem_of_further _ _ _ Hx)) h' nl' h1'); [|exact Htr|exact Hc'].
  destruct (Hext c cell Hcell) as [d Hd].
  erewrite nextGen_eq in Hnext;
    [|exact Hd|eapply ext_regenerate; [exact Hext| | | |exact Hv]; reflexivity].
  injection Hnext as _ <-.
  eapply ext_trans; [exact Hext|]. eapply ext_trans; [|apply ext_app].
  apply ext_insert_descendant. exact Hd.
Qed.

(** If the rewiring loop returns, none of the cells it went through had
    [None] among its neighbors. *)
Lemma for_each_rewire_inv (l : list ref) :
  forall h h', NoDup l ->
  for_each l rewire h = Some (tt, h') ->
  forall c, c ∈ l -> exists cell, h !! c = Some cell /\ Forall is_Some (neighbors cell).
Proof.
  induction l as [|c l IH]; intros h h' Hnd Hrun c' Hc'; [inversion Hc'|].
  apply NoDup_cons in Hnd as [Hc Hnd].
  cbn [for_each] in Hrun. unfold bind at 1 in Hrun.
  destruct (rewire c h) as [[[] h1]|] eqn:Hre; [|discriminate].
  unfold rewire, bind, get, read, lift in Hre.
  destruct (h !! c) as [cell|] eqn:Hcell; [|discriminate].
  destruct (descendants_of h (neighbors cell)) as [ns|] eqn:Hns; [|discriminate].
  unfold assign in Hre. rewrite Hcell in Hre. injection Hre as <-.
  apply elem_of_cons in Hc' as [->|Hc'].
  - exists cell. split; [exact Hcell|].
    unfold descendants_of in Hns. apply mapM_Some in Hns.
    clear -Hns. induction Hns as [|n d ns ds Hn _ IH']; constructor; [|exact IH'].
    destruct n; [eexists; reflexivity|discriminate].
  - destruct (IH _ _ Hnd Hrun c' Hc') as (cell' & Hcell' & Hall).
    exists cell'. split; [|exact Hall].
    rewrite list_lookup_insert_ne in Hcell'; [exact Hcell'|].
    intros ->. contradiction.
Qed.

(** A round of [tick] returns exactly when every cell of the net is ready. *)
Lemma tick1_Some_iff (net : CellNet) (h : heap) (l : list ref) :
  toList net = Some l -> in_store h l ->
  (is_Some (tick1 net h) <-> forall c, c ∈ l -> ready h c).
Proof.
  intros Hl Hin. split.
  - intros [[net' h'] Hrun] c Hc. unfold tick1 in Hrun.
    erewrite se_bind_Some in Hrun; [|apply se_lift_Some; exact Hl].
    unfold bind at 1 in Hrun.
    destruct (traverse (fun cell => nextGen cell None) l h) as [[nl h1]|] eqn:Htr; [|discriminate].
    pose proof (traverse_nextGen_inv h l Hin h nl h1 (ext_refl h) Htr) as Hreg.
    destruct (traverse_nextGen h l Hreg h (ext_refl h)) as (h1' & Htr' & _ & _ & _ & Hnew & _).
    rewrite Htr in Htr'. injection Htr' as -> <-.
    unfold bind at 1 in Hrun.
    destruct (for_each (seq (length h) (length l)) rewire h1) as [[[] h2]|] eqn:Hre; [|discriminate].
    destruct (Hin c Hc) as (cell & Hcell & Hns).
    destruct (Hreg c Hc) as (cell' & v & Hcell' & Hv).
    rewrite Hcell in Hcell'. injection Hcell' as <-.
    exists cell. split; [exact Hcell|]. split; [|eexists; exact Hv].
    apply list_elem_of_lookup in Hc as [i Hi].
    destruct (Hnew i c cell Hi Hcell) as (v' & _ & Hlook).
    destruct (for_each_rewire_inv _ h1 h2 (NoDup_seq _ _) Hre (length h + i)%nat)
      as (x & Hx & Hsome).
    { apply elem_of_seq. apply lookup_lt_Some in Hi. lia. }
    rewrite Hlook in Hx. injection Hx as <-. cbn [next_cell neighbors] in Hsome.
    apply Forall_forall. intros n Hn.
    eapply Forall_forall in Hsome; [|exact Hn]. destruct Hsome as [r ->].
    eapply Forall_forall in Hns; [|exact Hn].
    exists r. split; [reflexivity|apply Hns; reflexivity].
  - intros Hready. destruct (tick1_spec net h l Hl Hready) as (net' & h' & Hrun & _).
    eexists. exact Hrun.
Qed.

(** ** The usage examples *)

Lemma integer_triangle_tick (x y z : Z) :
  states_after (integer_triangle x y z) 0 = Some [VInt x; VInt y; VInt z] /\
  states_after (integer_triangle x y z) 1 = Some [VInt (y + z); VInt (x + z); VInt (x + y)].
Proof.
  split; [reflexivity|].
  cbv -[Z.add]. rewrite !Z.add_0_r. reflexivity.
Qed.

(** C1: the triangle of integer cells with states 1, 5 and 7, ticked once,
    has the states 12, 8 and 6 in cell order; whatever the three states, each
    new state is the sum of the other two states before the tick. *)
Theorem triangle_tick_states :
  states_after (integer_triangle 1 5 7) 0 = Some [VInt 1; VInt 5; VInt 7] /\
  states_after (integer_triangle 1 5 7) 1 = Some [VInt 12; VInt 8; VInt 6] /\
  forall x y z,
    states_after (integer_triangle x y z) 1 = Some [VInt (y + z); VInt (x + z); VInt (x + y)].
Proof.
  split; [reflexivity|]. split; [reflexivity|].
  intros x y z. apply integer_triangle_tick.
Qed.

(** The boolean grid of the usage example shows [- * -] in every row and,
    after one tick, [* - *]. *)
Lemma boolean_grid_example_ticks :
  fmap (M := list) truthy <$> states_after boolean_grid_example 0
    = Some [false; true; false; false; true; false; false; true; false] /\
  fmap (M := list) truthy <$> states_after boolean_grid_example 1
    = Some [true; false; true; true; false; true; true; false; true].
Proof. split; reflexivity. Qed.

(** ** When the rule of a cell is defined *)

Lemma sum_states_is_Some (vs : list value) :
  is_Some (sum_states vs) <-> Forall (fun v => is_Some (as_int v)) vs.
Proof.
  induction vs as [|v vs IH]; simpl.
  - split; [constructor|eexists; reflexivity].
  - rewrite Forall_cons, <- IH. split.
    + intros [s Hs]. destruct (as_int v); [|discriminate].
      destruct (sum_states vs); [|discriminate]. split; eexists; reflexivity.
    + intros [[z ->] [s ->]]. eexists. reflexivity.
Qed.

Lemma regenerate_integer (h : heap) (c : Cell) :
  kind c = KInteger ->
  (is_Some (regenerate h c) <->
   Forall (fun n => exists x, deref h n = Some x /\ is_Some (as_int (state x))) (neighbors c)).
Proof.
  intros Hk. unfold regenerate. rewrite Hk. split.
  - intros [v Hv]. apply bind_Some in Hv as (vs & Hvs & Hsum).
    apply fmap_Some in Hsum as (s & Hs & _).
    assert (Hall : Forall (fun v => is_Some (as_int v)) vs)
      by (apply sum_states_is_Some; eexists; exact Hs).
    unfold neighbor_states in Hvs. apply mapM_Some in Hvs.
    clear Hs. induction Hvs as [|n v' ns vs' Hn _ IH]; [constructor|].
    apply Forall_cons in Hall as [Hv' Hall]. constructor; [|apply IH; exact Hall].
    apply fmap_Some in Hn as (x & Hx & ->). exists x. split; assumption.
  - intros Hns.
    assert (Hvs : exists vs, neighbor_states h (neighbors c) = Some vs /\
                             Forall (fun v => is_Some (as_int v)) vs).
    { unfold neighbor_states. induction Hns as [|n ns (x & Hx & Hs) _ (vs & Hvs & Hall)].
      - exists []. split; [reflexivity|constructor].
      - exists (state x :: vs). split; [|constructor; assumption].
        apply mapM_Some. constructor; [rewrite Hx; reflexivity|].
        apply mapM_Some. exact Hvs. }
    destruct Hvs as (vs & -> & Hall). apply sum_states_is_Some in Hall as [s Hs].
    simpl. rewrite Hs. eexists. reflexivity.
Qed.

(** A state that can be summed stays so under every rule. *)
Lemma regenerate_summable (h : heap) (c : Cell) (v : value) :
  regenerate h c = Some v -> is_Some (as_int (state c)) -> is_Some (as_int v).
Proof.
  unfold regenerate. destruct (kind c).
  - intros [= <-] H. exact H.
  - intros H _. apply bind_Some in H as (vs & _ & H).
    apply fmap_Some in H as (s & _ & ->). eexists. reflexivity.
  - intros [= <-] _. eexists. reflexivity.
Qed.

(** ** The invariant of a net across [tick] *)

Lemma member_ok_ready (h : heap) (l : list ref) (g : Z) :
  (forall c, c ∈ l -> member_ok h l g c) -> forall c, c ∈ l -> ready h c.
Proof.
  intros Hmem c Hc. destruct (Hmem c Hc) as (cell & Hcell & _ & Hns & Hreg).
  exists cell. split; [exact Hcell|]. split; [|exact Hreg].
  eapply Forall_impl; [exact Hns|]. intros n (r & -> & Hr).
  exists r. split; [reflexivity|].
  destruct (Hmem r Hr) as (x & Hx & _). eapply lookup_lt_Some. exact Hx.
Qed.

Lemma tick1_inv (net : CellNet) (h : heap) :
  net_inv h net ->
  exists net' h' l l',
    tick1 net h = Some (net', h') /\
    net_inv h' net' /\
    net_generation net' = net_generation net + 1 /\
    ext h h' /\
    toList net = Some l /\ toList net' = Some l' /\
    Forall2 (fun c d => descendant <$> h' !! c = Some (Some d)) l l'.
Proof.
  intros (l & Hl & Hnd & Hmem).
  pose proof (member_ok_ready h l _ Hmem) as Hready.
  destruct (tick1_spec net h l Hl Hready)
    as (net' & h' & Htick & Hl' & Hgen & Hlen & Hext & _ & Hdesc & Hnew).
  exists net', h', l, (seq (length h) (length l)).
  split; [exact Htick|].
  (* each old member, its descendant and that descendant's state *)
  assert (Hstep : forall r, r ∈ l ->
            exists j cellr vr nsr,
              l !! j = Some r /\ h !! r = Some cellr /\
              descendant <$> h' !! r = Some (Some (length h + j)%nat) /\
              regenerate h cellr = Some vr /\
              h' !! (length h + j)%nat = Some (with_neighbors nsr (next_cell r cellr vr))).
  { intros r Hr. destruct (Hdesc r Hr) as (j & Hj & _ & Hd).
    destruct (Hmem r Hr) as (cellr & Hcellr & _).
    destruct (Hnew j r cellr Hj Hcellr) as (vr & nsr & Hvr & _ & Hlook).
    exists j, cellr, vr, nsr. repeat split; assumption. }
  split; [|split; [exact Hgen|split; [exact Hext|split; [exact Hl|split; [exact Hl'|]]]]].
  - exists (seq (length h) (length l)). split; [exact Hl'|]. split; [apply NoDup_seq|].
    intros c' Hc'. apply elem_of_seq in Hc'.
    destruct (lookup_lt_is_Some_2 l (c' - length h)) as [c Hc]; [lia|].
    assert (Hcl : c ∈ l) by (eapply list_elem_of_lookup_2; exact Hc).
    destruct (Hmem c Hcl) as (cell & Hcell & Hg & Hns & Hreg).
    destruct (Hnew _ c cell Hc Hcell) as (v & ns & Hv & Hdns & Hlook).
    replace (length h + (c' - length h))%nat with c' in Hlook by lia.
    exists (with_neighbors ns (next_cell c cell v)).
    split; [exact Hlook|]. split; [cbn; rewrite Hg, Hgen; reflexivity|].
    cbn [with_neighbors next_cell neighbors].
    (* what the rewired neighbors are *)
    assert (Hns' : Forall (fun d => exists r', d = Some r' /\ r' ∈ seq (length h) (length l) /\
                     (kind cell = KInteger ->
                      exists x, h' !! r' = Some x /\ is_Some (as_int (state x)))) ns).
    { unfold descendants_of in Hdns. apply mapM_Some in Hdns.
      eapply Forall2_Forall_r; [exact Hdns|].
      assert (Hint : kind cell = KInteger ->
                Forall (fun n => exists x, deref h n = Some x /\ is_Some (as_int (state x)))
                       (neighbors cell)).
      { intros Hk. apply regenerate_integer; assumption. }
      apply Forall_forall. intros n Hn d Hd.
      eapply Forall_forall in Hns; [|exact Hn]. destruct Hns as (r & -> & Hr).
      destruct (Hstep r Hr) as (j & cellr & vr & nsr & Hj & Hcellr & Hdr & Hvr & Hlookr).
      simpl in Hd. rewrite Hdr in Hd. injection Hd as <-.
      exists (length h + j)%nat. split; [reflexivity|]. split.
      - apply elem_of_seq. apply lookup_lt_Some in Hj. lia.
      - intros Hk. eexists. split; [exact Hlookr|]. cbn.
        eapply regenerate_summable; [exact Hvr|].
        specialize (Hint Hk). eapply Forall_forall in Hint; [|exact Hn].
        destruct Hint as (x & Hx & Hsum). simpl in Hx. rewrite Hcellr in Hx.
        injection Hx as <-. exact Hsum. }
    split.
    + eapply Forall_impl; [exact Hns'|]. intros d (r' & -> & Hr' & _).
      exists r'. split; [reflexivity|exact Hr'].
    + destruct (kind cell) eqn:Hk.
      * unfold regenerate. cbn. rewrite Hk. eexists. reflexivity.
      * apply regenerate_integer; [cbn; exact Hk|]. cbn.
        eapply Forall_impl; [exact Hns'|]. intros d (r' & -> & _ & Hx).
        destruct (Hx eq_refl) as (x & Hx' & Hsum). exists x. split; assumption.
      * unfold regenerate. cbn. rewrite Hk. eexists. reflexivity.
  - apply Forall2_same_length_lookup_2; [rewrite length_seq; reflexivity|].
    intros i c d Hc Hd. apply lookup_seq in Hd as [-> _].
    destruct (Hdesc c) as (j & Hj & _ & Hdj); [eapply list_elem_of_lookup_2; exact Hc|].
    rewrite (NoDup_lookup l i j c Hnd Hc Hj). exact Hdj.
Qed.

Lemma tick_one (net : CellNet) (h : heap) : tick net 1 h = tick1 net h.
Proof.
  unfold tick. change (Z.to_nat 1) with 1%nat. cbn [tick_loop]. unfold bind, ret.
  destruct (tick1 net h) as [[net' h']|]; reflexivity.
Qed.

Lemma tick_loop_inv (n : nat) :
  forall net h, net_inv h net ->
  exists net' h',
    tick_loop n net h = Some (net', h') /\
    net_inv h' net' /\
    net_generation net' = net_generation net + Z.of_nat n /\
    ext h h'.
Proof.
  induction n as [|n IH]; intros net h Hinv.
  - exists net, h. split; [reflexivity|]. split; [exact Hinv|].
    split; [lia|apply ext_refl].
  - destruct (tick1_inv net h Hinv) as (net1 & h1 & _ & _ & Htick & Hinv1 & Hgen1 & Hext1 & _).
    destruct (IH net1 h1 Hinv1) as (net' & h' & Hloop & Hinv' & Hgen' & Hext').
    exists net', h'. cbn [tick_loop].
    erewrite se_bind_Some; [|exact Htick].
    split; [exact Hloop|]. split; [exact Hinv'|].
    split; [lia|eapply ext_trans; eassumption].
Qed.

(** ** Nets that satisfy the invariant *)

Lemma grid_init_inv (boolean : bool) (rows cols : Z) (h : heap) :
  exists net h', grid_init boolean rows cols h = Some (net, h') /\ net_inv h' net.
Proof.
  destruct (grid_init_spec boolean rows cols h)
    as (cells & h' & Hrun & Hshape & Hconcat & _ & Hcells).
  exists (GridNet rows cols cells 0), h'. split; [exact Hrun|].
  exists (concat cells). split; [apply toList_shape; exact Hshape|].
  split; [rewrite Hconcat; apply NoDup_seq|].
  intros c Hc.
  pose proof (cell_at_positions rows cols cells Hshape) as Hpos.
  change (map ?f ?l) with (f <$> l) in Hpos.
  rewrite <- Hpos in Hc. apply list_elem_of_fmap in Hc as (p & -> & Hp).
  pose proof Hp as Hp'. apply elem_of_positions in Hp' as [Hrow Hcol].
  destruct (cell_at_in_grid rows cols cells Hshape p Hrow Hcol) as [r Hr].
  rewrite Hr. cbn [default].
  destruct (Hcells p r Hp Hr) as (cell & ns & Hlook & _ & Hns & Hall & Hgen & Hkind).
  exists cell. split; [exact Hlook|]. split; [exact Hgen|]. split.
  - rewrite Hns. apply Forall_fmap. eapply Forall_impl; [exact Hall|].
    intros n Hn. exists n. split; [reflexivity|exact Hn].
  - unfold regenerate. rewrite Hkind. destruct boolean; eexists; reflexivity.
Qed.

(** A triangle made of three distinct fit cells satisfies the invariant. *)
Lemma simpleCellTriangle_inv (h : heap) (a b c : ref) (ca cb cc : Cell) :
  h !! a = Some ca -> h !! b = Some cb -> h !! c = Some cc ->
  a <> b -> a <> c -> b <> c ->
  corner ca cb cc -> corner cb ca cc -> corner cc ca cb ->
  exists net h',
    simpleCellTriangle [a; b; c] h = Some (net, h') /\
    toList net = Some [a; b; c] /\ net_inv h' net.
Proof.
  intros Ha Hb Hc Hab Hac Hbc [Hga Hsa] [Hgb Hsb] [Hgc Hsc].
  pose proof (lookup_lt_Some _ _ _ Ha) as Hla.
  pose proof (lookup_lt_Some _ _ _ Hb) as Hlb.
  pose proof (lookup_lt_Some _ _ _ Hc) as Hlc.
  set (h1 := <[a := with_neighbors [Some b; Some c] ca]> h).
  set (h2 := <[b := with_neighbors [Some a; Some c] cb]> h1).
  set (h3 := <[c := with_neighbors [Some a; Some b] cc]> h2).
  assert (Ha3 : h3 !! a = Some (with_neighbors [Some b; Some c] ca)).
  { unfold h3, h2, h1. rewrite !list_lookup_insert_ne by congruence.
    apply list_lookup_insert_eq. exact Hla. }
  assert (Hb3 : h3 !! b = Some (with_neighbors [Some a; Some c] cb)).
  { unfold h3, h2, h1. rewrite list_lookup_insert_ne by congruence.
    apply list_lookup_insert_eq. rewrite length_insert. exact Hlb. }
  assert (Hc3 : h3 !! c = Some (with_neighbors [Some a; Some b] cc)).
  { unfold h3, h2, h1. apply list_lookup_insert_eq. rewrite !length_insert. exact Hlc. }
  exists (FlatNet [a; b; c] 0), h3. split.
  { unfold simpleCellTriangle, simpleCellTriangle_setupNeighbors, getitem.
    cbv [bind lift ret Z.leb Z.compare Z.to_nat Pos.to_nat Pos.iter_op Nat.add].
    cbn [lookup list_lookup].
    rewrite (assign_eq a _ h ca Ha).
    rewrite (assign_eq b _ h1 cb)
      by (unfold h1; rewrite list_lookup_insert_ne by congruence; exact Hb).
    rewrite (assign_eq c _ h2 cc)
      by (unfold h2, h1; rewrite !list_lookup_insert_ne by congruence; exact Hc).
    reflexivity. }
  split; [reflexivity|].
  exists [a; b; c]. split; [reflexivity|]. split.
  { repeat (apply NoDup_cons; split; [rewrite ?elem_of_cons, elem_of_nil; intuition congruence|]).
    apply NoDup_nil_2. }
  assert (Hrule : forall x y cx cy nx ny cz,
            h3 !! x = Some (with_neighbors nx cx) -> h3 !! y = Some (with_neighbors ny cy) ->
            (kind cz = KInteger -> is_Some (as_int (state cx)) /\ is_Some (as_int (state cy))) ->
            is_Some (regenerate h3 (with_neighbors [Some x; Some y] cz))).
  { intros x y cx cy nx ny cz Hx Hy Hs. unfold regenerate. cbn.
    destruct (kind cz); try (eexists; reflexivity).
    destruct (Hs eq_refl) as [[zx Hzx] [zy Hzy]].
    unfold neighbor_states. cbn. rewrite Hx, Hy. cbn. rewrite Hzx, Hzy.
    eexists. reflexivity. }
  intros r Hr. rewrite !elem_of_cons, elem_of_nil in Hr.
  destruct Hr as [->|[->|[->|[]]]].
  - exists (with_neighbors [Some b; Some c] ca). split; [exact Ha3|].
    split; [exact Hga|]. split.
    + repeat constructor; eexists; (split; [reflexivity|]); rewrite !elem_of_cons; auto.
    + eapply (Hrule b c); eassumption.
  - exists (with_neighbors [Some a; Some c] cb). split; [exact Hb3|].
    split; [exact Hgb|]. split.
    + repeat constructor; eexists; (split; [reflexivity|]); rewrite !elem_of_cons; auto.
    + eapply (Hrule a c); eassumption.
  - exists (with_neighbors [Some a; Some b] cc). split; [exact Hc3|].
    split; [exact Hgc|]. split.
    + repeat constructor; eexists; (split; [reflexivity|]); rewrite !elem_of_cons; auto.
    + eapply (Hrule a b); eassumption.
Qed.

(** Every net a program builds satisfies the invariant. *)
Lemma built_inv (h : heap) (net : CellNet) : built h net -> net_inv h net.
Proof.
  induction 1 as [h|boolean rows cols h net h' Hrun
                  |h a b c ca cb cc net h' Ha Hb Hc Hab Hac Hbc Hca Hcb Hcc Hrun
                  |h net g net' h' _ IH Hrun].
  - exists []. split; [reflexivity|]. split; [apply NoDup_nil_2|].
    intros c Hc. inversion Hc.
  - destruct (grid_init_inv boolean rows cols h) as (net0 & h0 & Hrun0 & Hinv).
    rewrite Hrun in Hrun0. injection Hrun0 as <- <-. exact Hinv.
  - destruct (simpleCellTriangle_inv h a b c ca cb cc Ha Hb Hc Hab Hac Hbc Hca Hcb Hcc)
      as (net0 & h0 & Hrun0 & _ & Hinv).
    rewrite Hrun in Hrun0. injection Hrun0 as <- <-. exact Hinv.
  - destruct (tick_loop_inv (Z.to_nat g) net h IH) as (net0 & h0 & Hrun0 & Hinv & _).
    unfold tick in Hrun. rewrite Hrun in Hrun0. injection Hrun0 as <- <-. exact Hinv.
Qed.

Lemma integer_triangle_store (x y z : Z) :
  integer_triangle x y z [] = Some (FlatNet [0; 1; 2]%nat 0, triangle_store x y z).
Proof. reflexivity. Qed.

Lemma triangle_store_inv (x y z : Z) :
  net_inv (triangle_store x y z) (FlatNet [0; 1; 2]%nat 0).
Proof.
  exists [0; 1; 2]%nat. split; [reflexivity|]. split.
  - repeat (apply NoDup_cons; split; [rewrite ?elem_of_cons, elem_of_nil; lia|]).
    apply NoDup_nil_2.
  - intros c Hc. rewrite !elem_of_cons, elem_of_nil in Hc.
    destruct Hc as [->|[->|[->|[]]]]; (eexists; split; [reflexivity|]);
      (split; [reflexivity|]);
      (split; [repeat constructor; eexists; (split; [reflexivity|]);
               rewrite !elem_of_cons; lia
              |eexists; reflexivity]).
Qed.

(** ** The states of the new generation *)

Lemma tick1_descendant_state (net : CellNet) (h : heap) (l : list ref) :
  toList net = Some l ->
  (forall c, c ∈ l -> ready h c) ->
  exists net' h',
    tick1 net h = Some (net', h') /\
    forall c cell, c ∈ l -> h !! c = Some cell ->
                   descendant_state h' c = regenerate h cell.
Proof.
  intros Hl Hready.
  destruct (tick1_spec net h l Hl Hready)
    as (net' & h' & Htick & _ & _ & _ & _ & _ & Hdesc & Hnew).
  exists net', h'. split; [exact Htick|].
  intros c cell Hc Hcell.
  destruct (Hdesc c Hc) as (i & Hi & _ & Hd).
  destruct (Hnew i c cell Hi Hcell) as (v & ns & Hv & _ & Hlook).
  apply fmap_Some in Hd as (x & Hx & Hdx).
  unfold descendant_state. rewrite Hx. simpl. rewrite <- Hdx. simpl.
  rewrite Hlook, Hv. reflexivity.
Qed.

(** C2: for every net whose cells are in the store, one tick returns exactly
    when every cell is ready, and when it returns, the state of the
    descendant of every cell of the net is the rule of the cell evaluated in
    the store as it was before the tick; hence ticking the same cells in
    another order gives every cell a descendant with the same state. *)
Theorem tick_uses_pre_tick_states (net : CellNet) (h : heap) (l : list ref) :
  toList net = Some l ->
  in_store h l ->
  (is_Some (tick net 1 h) <-> forall c, c ∈ l -> ready h c) /\
  forall net' h',
    tick net 1 h = Some (net', h') ->
    (forall c cell, c ∈ l -> h !! c = Some cell ->
                    descendant_state h' c = regenerate h cell) /\
    (forall l2 g, l2 ≡ₚ l ->
       exists net2 h2,
         tick (FlatNet l2 g) 1 h = Some (net2, h2) /\
         forall c, c ∈ l -> descendant_state h2 c = descendant_state h' c).
Proof.
  intros Hl Hin. rewrite tick_one.
  split; [apply tick1_Some_iff; assumption|].
  intros net' h' Hrun.
  assert (Hready : forall c, c ∈ l -> ready h c).
  { apply (tick1_Some_iff net h l Hl Hin). eexists. exact Hrun. }
  destruct (tick1_descendant_state net h l Hl Hready) as (net1 & h1 & Htick & Hstate).
  rewrite Hrun in Htick. injection Htick as <- <-.
  split; [exact Hstate|].
  intros l2 g Hperm.
  destruct (tick1_descendant_state (FlatNet l2 g) h l2 eq_refl)
    as (net2 & h2 & Htick2 & Hstate2).
  { intros c Hc. apply Hready. rewrite <- Hperm. exact Hc. }
  exists net2, h2. rewrite tick_one. split; [exact Htick2|].
  intros c Hc. destruct (Hready c Hc) as (cell & Hcell & _).
  rewrite (Hstate c cell Hc Hcell). apply Hstate2; [|exact Hcell].
  rewrite Hperm. exact Hc.
Qed.

Lemma tick_uses_pre_tick_states_witness :
  (is_Some (tick (FlatNet [0; 1; 2]%nat 0) 1 (triangle_store 1 5 7)) <->
   forall c, c ∈ [0; 1; 2]%nat -> ready (triangle_store 1 5 7) c) /\
  forall net' h',
    tick (FlatNet [0; 1; 2]%nat 0) 1 (triangle_store 1 5 7) = Some (net', h') ->
    (forall c cell, c ∈ [0; 1; 2]%nat -> triangle_store 1 5 7 !! c = Some cell ->
                    descendant_state h' c = regenerate (triangle_store 1 5 7) cell) /\
    (forall l2 g, l2 ≡ₚ [0; 1; 2]%nat ->
       exists net2 h2,
         tick (FlatNet l2 g) 1 (triangle_store 1 5 7) = Some (net2, h2) /\
         forall c, c ∈ [0; 1; 2]%nat -> descendant_state h2 c = descendant_state h' c).
Proof.
  apply (tick_uses_pre_tick_states (FlatNet [0; 1; 2]%nat 0) (triangle_store 1 5 7)
           [0; 1; 2]%nat eq_refl).
  intros c Hc. rewrite !elem_of_cons, elem_of_nil in Hc.
  destruct Hc as [->|[->|[->|[]]]]; (eexists; split; [reflexivity|]);
    repeat (apply Forall_cons; split; [intros r [= <-]; simpl; lia|]);
    apply Forall_nil_2.
Defined.

(** * Further properties *)

(** ** More on grids as lists *)

Lemma lookup_reshape {A} (n c : nat) (l : list A) (i : nat) :
  (i < n)%nat -> reshape n c l !! i = Some (take c (drop (i * c) l)).
Proof.
  revert l i. induction n as [|n IH]; intros l [|i] Hi; try lia.
  - reflexivity.
  - cbn [reshape lookup list_lookup]. rewrite IH by lia. rewrite drop_drop. reflexivity.
Qed.

Lemma cell_at_reshape (rows cols : Z) (l : list ref) (r c : Z) :
  0 <= r < rows -> 0 <= c < cols ->
  cell_at (reshape (Z.to_nat rows) (Z.to_nat cols) l) (r, c) = l !! Z.to_nat (r * cols + c).
Proof.
  intros Hr Hc. unfold cell_at. cbn [fst snd].
  rewrite getitem_nonneg by lia. rewrite lookup_reshape by lia. simpl.
  rewrite getitem_nonneg by lia. rewrite lookup_take_lt by lia.
  rewrite lookup_drop. f_equal. nia.
Qed.

Lemma fromList_Some_inv (rows cols : Z) (l : list ref) (newCells : list (list ref)) (rest : list ref) :
  CellGrid_fromList rows cols l = Some (newCells, rest) ->
  (Z.to_nat rows * Z.to_nat cols <= length l)%nat /\
  newCells = reshape (Z.to_nat rows) (Z.to_nat cols) l /\
  rest = rev (drop (Z.to_nat rows * Z.to_nat cols) l).
Proof.
  intros H.
  destruct (decide (Z.to_nat rows * Z.to_nat cols <= length l)%nat) as [Hle|Hgt].
  - rewrite fromList_Some in H by exact Hle. injection H as <- <-. auto.
  - rewrite fromList_None in H by lia. discriminate.
Qed.

(** X1: [fromList] fills the grid row by row: the cell at [(row, col)] of the
    grid it returns is item [row * cols + col] of the list it was given. *)
Theorem fromList_row_major
    (rows cols : Z) (l : list ref) (newCells : list (list ref)) (rest : list ref) (row col : Z) :
  CellGrid_fromList rows cols l = Some (newCells, rest) ->
  0 <= row < rows -> 0 <= col < cols ->
  exists x, l !! Z.to_nat (row * cols + col) = Some x /\
            cell_at newCells (row, col) = Some x.
Proof.
  intros H Hrow Hcol. apply fromList_Some_inv in H as (Hlen & -> & _).
  destruct (lookup_lt_is_Some_2 l (Z.to_nat (row * cols + col))) as [x Hx]; [nia|].
  exists x. split; [exact Hx|]. rewrite cell_at_reshape by assumption. exact Hx.
Qed.

Lemma fromList_row_major_witness :
  exists x, [10; 11; 12; 13; 14; 15]%nat !! Z.to_nat (1 * 3 + 2) = Some x /\
            cell_at [[10; 11; 12]; [13; 14; 15]]%nat (1, 2) = Some x.
Proof.
  apply (fromList_row_major 2 3 [10; 11; 12; 13; 14; 15]%nat
           [[10; 11; 12]; [13; 14; 15]]%nat []); [reflexivity|lia|lia].
Defined.

(** X2: flattening what [fromList] built gives back the first [rows x cols]
    items of the list in their order, the whole list when the length fits. *)
Theorem toList_fromList
    (rows cols : Z) (l : list ref) (newCells : list (list ref)) (rest : list ref) :
  CellGrid_fromList rows cols l = Some (newCells, rest) ->
  CellGrid_toList rows cols newCells = Some (take (Z.to_nat rows * Z.to_nat cols) l) /\
  (length l = (Z.to_nat rows * Z.to_nat cols)%nat ->
   CellGrid_toList rows cols newCells = Some l).
Proof.
  intros H. apply fromList_Some_inv in H as (Hlen & -> & _).
  assert (Hto : CellGrid_toList rows cols (reshape (Z.to_nat rows) (Z.to_nat cols) l)
                = Some (take (Z.to_nat rows * Z.to_nat cols) l)).
  { rewrite toList_shape by (apply grid_shape_reshape; exact Hlen).
    rewrite concat_reshape by exact Hlen. reflexivity. }
  split; [exact Hto|]. intros Heq. rewrite Hto, take_ge by lia. reflexivity.
Qed.

Lemma toList_fromList_witness :
  CellGrid_toList 2 2 [[10; 11]; [12; 13]]%nat = Some (take (Z.to_nat 2 * Z.to_nat 2) [10; 11; 12; 13; 14]%nat) /\
  (length [10; 11; 12; 13; 14]%nat = (Z.to_nat 2 * Z.to_nat 2)%nat ->
   CellGrid_toList 2 2 [[10; 11]; [12; 13]]%nat = Some [10; 11; 12; 13; 14]%nat).
Proof.
  apply (toList_fromList 2 2 [10; 11; 12; 13; 14]%nat [[10; 11]; [12; 13]]%nat [14%nat]).
  reflexivity.
Defined.

(** X4: for a grid without rows or without columns [fromList] pops nothing:
    it returns no rows, or [rows] empty rows, and yet leaves the list it was
    given reversed. *)
Theorem fromList_no_positions (rows cols : Z) (l : list ref) :
  (rows <= 0 -> CellGrid_fromList rows cols l = Some ([], rev l)) /\
  (cols <= 0 -> CellGrid_fromList rows cols l = Some (replicate (Z.to_nat rows) [], rev l)).
Proof.
  split; intros H.
  - rewrite fromList_Some by lia.
    replace (Z.to_nat rows) with 0%nat by lia. reflexivity.
  - rewrite fromList_Some by lia.
    replace (Z.to_nat cols) with 0%nat by lia. rewrite Nat.mul_0_r, drop_0.
    f_equal. f_equal. generalize (Z.to_nat rows). intros n. revert l.
    induction n as [|n IH]; intros l; [reflexivity|].
    cbn [reshape replicate]. rewrite take_0, drop_0, IH. reflexivity.
Qed.

Lemma mapM_getitem_take {A} (l : list A) (n : Z) :
  (Z.to_nat n <= length l)%nat -> mapM (getitem l) (range n) = Some (take (Z.to_nat n) l).
Proof.
  intros Hlen. rewrite <- (mapM_getitem_range (take (Z.to_nat n) l) n)
    by (rewrite length_take; lia).
  apply Forall_mapM_ext, Forall_forall. intros z Hz. apply elem_of_range in Hz.
  rewrite !getitem_nonneg by lia. rewrite lookup_take_lt by lia. reflexivity.
Qed.

Lemma mapM_getitem_short {A} (l : list A) (n : Z) :
  (length l < Z.to_nat n)%nat -> mapM (getitem l) (range n) = None.
Proof.
  intros Hlen. apply mapM_None, Exists_exists. exists (Z.of_nat (length l)). split.
  - apply elem_of_range. lia.
  - rewrite getitem_of_nat. apply lookup_ge_None. lia.
Qed.

(** One row of [toList]: the first [cols] cells of row [i], if they are there. *)
Lemma toList_row (cols : Z) (cells : list (list ref)) (i : nat) :
  0 < cols ->
  mapM (fun col => r ← getitem cells (Z.of_nat i); getitem r col) (range cols)
  = (r ← cells !! i; if decide (Z.to_nat cols <= length r)%nat
                     then Some (take (Z.to_nat cols) r) else None).
Proof.
  intros Hcols. rewrite getitem_of_nat. destruct (cells !! i) as [r|] eqn:Hr; simpl.
  - destruct (decide (Z.to_nat cols <= length r)%nat) as [Hle|Hgt].
    + apply mapM_getitem_take. exact Hle.
    + apply mapM_getitem_short. lia.
  - apply mapM_None, Exists_exists. exists 0. split; [apply elem_of_range; lia|reflexivity].
Qed.

(** X3: [toList] reads the upper left [rows x cols] block of the array and
    nothing else. It raises exactly when a row or a cell of that block is
    missing; further rows and longer rows are passed over in silence. *)
Theorem toList_block (rows cols : Z) (cells : list (list ref)) :
  (is_Some (CellGrid_toList rows cols cells) <->
     cols <= 0 \/
     ((Z.to_nat rows <= length cells)%nat /\
      Forall (fun r => (Z.to_nat cols <= length r)%nat) (take (Z.to_nat rows) cells))) /\
  (forall l, CellGrid_toList rows cols cells = Some l ->
             l = concat (take (Z.to_nat cols) <$> take (Z.to_nat rows) cells)).
Proof.
  unfold CellGrid_toList.
  destruct (decide (cols <= 0)) as [Hc|Hc].
  - (* no columns: every row is empty and no index is evaluated *)
    assert (H : mapM (fun row => mapM (fun col => r ← getitem cells row; getitem r col)
                                      (range cols)) (range rows)
                = Some (replicate (Z.to_nat rows) [])).
    { apply mapM_Some, Forall2_same_length_lookup_2.
      - rewrite length_range, length_replicate. reflexivity.
      - intros i z x _ Hx. apply lookup_replicate in Hx as [-> _].
        unfold range. replace (Z.to_nat cols) with 0%nat by lia. reflexivity. }
    rewrite H. split; [split; [left; exact Hc|eexists; reflexivity]|].
    intros l [= <-]. replace (Z.to_nat cols) with 0%nat by lia.
    transitivity (@nil ref).
    + generalize (Z.to_nat rows). intros n. induction n as [|n IH]; [reflexivity|exact IH].
    + generalize (take (Z.to_nat rows) cells). intros g.
      induction g as [|r g IH]; [reflexivity|]. rewrite fmap_cons, take_0. exact IH.
  - assert (Hrow : forall i z, range rows !! i = Some z ->
              mapM (fun col => r ← getitem cells z; getitem r col) (range cols)
              = (r ← cells !! i; if decide (Z.to_nat cols <= length r)%nat
                                 then Some (take (Z.to_nat cols) r) else None)).
    { intros i z Hz. apply lookup_range in Hz as [-> _]. apply toList_row. lia. }
    destruct (decide ((Z.to_nat rows <= length cells)%nat /\
                      Forall (fun r => (Z.to_nat cols <= length r)%nat)
                             (take (Z.to_nat rows) cells))) as [[Hlen Hall]|Hno].
    + assert (H : mapM (fun row => mapM (fun col => r ← getitem cells row; getitem r col)
                                        (range cols)) (range rows)
                  = Some (take (Z.to_nat cols) <$> take (Z.to_nat rows) cells)).
      { apply mapM_Some, Forall2_same_length_lookup_2.
        - rewrite length_range, length_fmap, length_take. lia.
        - intros i z x Hz Hx. rewrite (Hrow i z Hz).
          rewrite list_lookup_fmap in Hx.
          destruct (take (Z.to_nat rows) cells !! i) as [r|] eqn:Hr; [|discriminate].
          injection Hx as <-.
          eapply Forall_lookup_1 in Hall; [|exact Hr]. simpl in Hall.
          apply lookup_take_Some in Hr as [Hr _]. rewrite Hr. simpl.
          destruct (decide (Z.to_nat cols <= length r)%nat); [reflexivity|lia]. }
      rewrite H. split; [split; [right; split; assumption|eexists; reflexivity]|].
      intros l [= <-]. reflexivity.
    + assert (H : mapM (fun row => mapM (fun col => r ← getitem cells row; getitem r col)
                                        (range cols)) (range rows) = None).
      { apply mapM_None, Exists_exists.
        destruct (decide (Z.to_nat rows <= length cells)%nat) as [Hlen|Hlen].
        - assert (Hex : Exists (fun r => ~ (Z.to_nat cols <= length r)%nat)
                               (take (Z.to_nat rows) cells)).
          { apply not_Forall_Exists; [intros r; apply _|]. intros Hall. apply Hno. auto. }
          apply Exists_exists in Hex as (r & Hr & Hshort).
          apply list_elem_of_lookup in Hr as [i Hi].
          pose proof Hi as Hi'. apply lookup_take_Some in Hi' as [Hcell Hlt].
          exists (Z.of_nat i). split; [apply elem_of_range; lia|].
          rewrite (Hrow i (Z.of_nat i)) by (apply lookup_range; split; [reflexivity|lia]).
          rewrite Hcell. simpl.
          destruct (decide (Z.to_nat cols <= length r)%nat); [contradiction|reflexivity].
        - exists (Z.of_nat (length cells)). split; [apply elem_of_range; lia|].
          rewrite (Hrow (length cells) (Z.of_nat (length cells)))
            by (apply lookup_range; split; [reflexivity|lia]).
          rewrite (lookup_ge_None_2 cells (length cells)) by lia. reflexivity. }
      rewrite H. split; [|intros l Hl; discriminate].
      split; [intros [x Hx]; discriminate|]. intros [Hcols|Hyes]; [lia|contradiction].
Qed.

(** ** More on the neighbors in a grid *)

Lemma elem_of_offsets (p q : Z * Z) :
  q ∈ offsets p.1 p.2 <->
  -1 <= q.1 - p.1 <= 1 /\ -1 <= q.2 - p.2 <= 1 /\ q <> p.
Proof.
  destruct p as [pr pc], q as [qr qc]. unfold offsets. cbn [fst snd].
  rewrite !elem_of_cons, elem_of_nil, !pair_equal_spec.
  split.
  - intros H. repeat split; lia.
  - intros (Hr & Hc & Hne). lia.
Qed.

Lemma NoDup_offsets (row col : Z) : NoDup (offsets row col).
Proof.
  unfold offsets.
  repeat (apply NoDup_cons; split;
          [rewrite ?elem_of_cons, elem_of_nil, ?pair_equal_spec; lia|]).
  apply NoDup_nil_2.
Qed.

Lemma elem_of_in_grid_offsets (rows cols : Z) (p q : Z * Z) :
  q ∈ List.filter (in_grid rows cols) (offsets p.1 p.2) <->
  q ∈ offsets p.1 p.2 /\ 0 <= q.1 < rows /\ 0 <= q.2 < cols.
Proof.
  rewrite list_elem_of_In, filter_In, <- list_elem_of_In.
  unfold in_grid. rewrite !andb_true_iff, !Z.leb_le, !Z.ltb_lt. intuition lia.
Qed.

(** Being a neighbor position is symmetric. *)
Lemma in_grid_offsets_sym (rows cols : Z) (p q : Z * Z) :
  0 <= p.1 < rows -> 0 <= p.2 < cols ->
  q ∈ List.filter (in_grid rows cols) (offsets p.1 p.2) ->
  p ∈ List.filter (in_grid rows cols) (offsets q.1 q.2).
Proof.
  intros Hr Hc. rewrite !elem_of_in_grid_offsets, !elem_of_offsets.
  intros ((H1 & H2 & Hne) & H3 & H4). repeat split; try lia. congruence.
Qed.

Lemma mapM_elem_of_r {A B} (f : A -> option B) (l : list A) (k : list B) (y : B) :
  mapM f l = Some k -> y ∈ k -> exists x, x ∈ l /\ f x = Some y.
Proof.
  intros H Hy. apply mapM_Some in H. apply list_elem_of_lookup in Hy as [i Hi].
  destruct (Forall2_lookup_r _ _ _ _ _ H Hi) as (x & Hx & Hfx).
  exists x. split; [eapply list_elem_of_lookup_2; exact Hx|exact Hfx].
Qed.

Lemma mapM_elem_of_l {A B} (f : A -> option B) (l : list A) (k : list B) (x : A) (y : B) :
  mapM f l = Some k -> x ∈ l -> f x = Some y -> y ∈ k.
Proof.
  intros H Hx Hfx. apply mapM_Some in H. apply list_elem_of_lookup in Hx as [i Hi].
  destruct (Forall2_lookup_l _ _ _ _ _ H Hi) as (y' & Hy' & Hfx').
  rewrite Hfx in Hfx'. injection Hfx' as <-. eapply list_elem_of_lookup_2. exact Hy'.
Qed.

Section Wired.
Variables (rows cols : Z) (cells : list (list ref)).
Hypothesis Hshape : grid_shape rows cols cells.
Hypothesis Hnodup : NoDup (concat cells).

(** Distinct positions of the grid hold distinct cells. *)
Lemma cell_at_inj (p q : Z * Z) (r : ref) :
  p ∈ positions rows cols -> q ∈ positions rows cols ->
  cell_at cells p = Some r -> cell_at cells q = Some r -> p = q.
Proof.
  intros Hp Hq Hpr Hqr.
  pose proof (cell_at_positions rows cols cells Hshape) as Hpos.
  change (map ?f ?l) with (f <$> l) in Hpos.
  apply list_elem_of_lookup in Hp as [i Hi]. apply list_elem_of_lookup in Hq as [j Hj].
  assert (Hij : i = j).
  { eapply (NoDup_lookup (concat cells) i j r Hnodup); rewrite <- Hpos, list_lookup_fmap.
    - rewrite Hi. simpl. rewrite Hpr. reflexivity.
    - rewrite Hj. simpl. rewrite Hqr. reflexivity. }
  subst j. congruence.
Qed.

(** Every cell of the grid sits at a position. *)
Lemma cell_position (r : ref) :
  r ∈ concat cells -> exists p, p ∈ positions rows cols /\ cell_at cells p = Some r.
Proof.
  intros Hr. pose proof (cell_at_positions rows cols cells Hshape) as Hpos.
  change (map ?f ?l) with (f <$> l) in Hpos.
  rewrite <- Hpos in Hr. apply list_elem_of_fmap in Hr as (p & -> & Hp).
  exists p. split; [exact Hp|].
  apply elem_of_positions in Hp as [H1 H2].
  destruct (cell_at_in_grid rows cols cells Hshape p H1 H2) as [x Hx]. rewrite Hx. reflexivity.
Qed.

(** The cells at the neighbor positions of a position are distinct. *)
Lemma NoDup_compass_cells (p : Z * Z) (ns : list ref) :
  mapM (cell_at cells) (List.filter (in_grid rows cols) (offsets p.1 p.2)) = Some ns ->
  NoDup ns.
Proof.
  intros Hns. apply mapM_Some in Hns.
  apply NoDup_alt. intros i j r Hi Hj.
  destruct (Forall2_lookup_r _ _ _ _ _ Hns Hi) as (q1 & Hq1 & Hc1).
  destruct (Forall2_lookup_r _ _ _ _ _ Hns Hj) as (q2 & Hq2 & Hc2).
  assert (Hin : forall q k, List.filter (in_grid rows cols) (offsets p.1 p.2) !! k = Some q ->
                  q ∈ positions rows cols).
  { intros q k Hk. apply list_elem_of_lookup_2 in Hk.
    apply elem_of_in_grid_offsets in Hk as (_ & H1 & H2).
    apply elem_of_positions. split; assumption. }
  assert (q1 = q2) as <- by (eapply cell_at_inj; eauto).
  eapply NoDup_lookup; [|exact Hq1|exact Hq2].
  apply NoDup_ListNoDup, List.NoDup_filter, NoDup_ListNoDup, NoDup_offsets.
Qed.
End Wired.

Lemma length_in_grid_offsets (rows cols row col : Z) :
  0 <= row < rows -> 0 <= col < cols ->
  length (List.filter (in_grid rows cols) (offsets row col))
  = (span rows row * span cols col - 1)%nat.
Proof.
  intros Hrow Hcol. unfold offsets, span. cbn [List.filter].
  destruct (Z.ltb_spec 0 row), (Z.ltb_spec 0 col),
           (Z.ltb_spec col (cols - 1)), (Z.ltb_spec row (rows - 1));
    settle_in_grid; reflexivity.
Qed.

(** X5: in a grid built by [CellGrid] or [BooleanCellGrid] being a neighbor is
    mutual: a cell of the grid is among the neighbors of each of its
    neighbors, and these are cells of the grid too. *)
Theorem grid_neighbors_symmetric (boolean : bool) (rows cols : Z) (h : heap) :
  exists cells h',
    grid_init boolean rows cols h = Some (GridNet rows cols cells 0, h') /\
    forall r1 r2 c1,
      r1 ∈ concat cells -> h' !! r1 = Some c1 -> Some r2 ∈ neighbors c1 ->
      exists c2, r2 ∈ concat cells /\ h' !! r2 = Some c2 /\ Some r1 ∈ neighbors c2.
Proof.
  destruct (grid_init_spec boolean rows cols h)
    as (cells & h' & Hrun & Hshape & Hconcat & _ & Hcells).
  assert (Hnodup : NoDup (concat cells)) by (rewrite Hconcat; apply NoDup_seq).
  exists cells, h'. split; [exact Hrun|].
  intros r1 r2 c1 Hr1 Hc1 Hn.
  destruct (cell_position rows cols cells Hshape r1 Hr1) as (p & Hp & Hpr).
  destruct (Hcells p r1 Hp Hpr) as (c1' & ns1 & Hc1' & Hns1 & Hnb1 & _).
  rewrite Hc1 in Hc1'. injection Hc1' as <-.
  rewrite Hnb1 in Hn. apply list_elem_of_fmap in Hn as (r2' & [= <-] & Hr2).
  destruct (mapM_elem_of_r _ _ _ _ Hns1 Hr2) as (q & Hq & Hqr).
  pose proof Hp as Hp'. apply elem_of_positions in Hp' as [Hp1 Hp2].
  pose proof (in_grid_offsets_sym rows cols p q Hp1 Hp2 Hq) as Hsym.
  apply elem_of_in_grid_offsets in Hq as (_ & Hq1 & Hq2).
  assert (Hqpos : q ∈ positions rows cols) by (apply elem_of_positions; split; assumption).
  destruct (Hcells q r2 Hqpos Hqr) as (c2 & ns2 & Hc2 & Hns2 & Hnb2 & _).
  exists c2. split; [eapply cell_at_elem_of; exact Hqr|]. split; [exact Hc2|].
  rewrite Hnb2. apply list_elem_of_fmap_2.
  eapply mapM_elem_of_l; [exact Hns2|exact Hsym|exact Hpr].
Qed.

(** X6: in a built grid no cell is its own neighbor, no cell is a neighbor
    twice, every neighbor is a cell and never [None], and there are at most
    eight of them. *)
Theorem grid_neighbors_distinct (boolean : bool) (rows cols : Z) (h : heap) :
  exists cells h',
    grid_init boolean rows cols h = Some (GridNet rows cols cells 0, h') /\
    forall r c,
      r ∈ concat cells -> h' !! r = Some c ->
      NoDup (neighbors c) /\ (Some r ∉ neighbors c) /\ (None ∉ neighbors c) /\
      (length (neighbors c) <= 8)%nat.
Proof.
  destruct (grid_init_spec boolean rows cols h)
    as (cells & h' & Hrun & Hshape & Hconcat & _ & Hcells).
  assert (Hnodup : NoDup (concat cells)) by (rewrite Hconcat; apply NoDup_seq).
  exists cells, h'. split; [exact Hrun|].
  intros r c Hr Hc.
  destruct (cell_position rows cols cells Hshape r Hr) as (p & Hp & Hpr).
  destruct (Hcells p r Hp Hpr) as (c' & ns & Hc' & Hns & Hnb & _).
  rewrite Hc in Hc'. injection Hc' as <-. rewrite Hnb.
  split; [|split; [|split]].
  - apply (NoDup_fmap_2 Some).
    eapply (NoDup_compass_cells rows cols cells Hshape Hnodup p). exact Hns.
  - intros Hin. apply list_elem_of_fmap in Hin as (r' & [= <-] & Hin).
    destruct (mapM_elem_of_r _ _ _ _ Hns Hin) as (q & Hq & Hqr).
    apply elem_of_in_grid_offsets in Hq as (Hoff & Hq1 & Hq2).
    assert (q = p).
    { eapply (cell_at_inj rows cols cells Hshape Hnodup); [|exact Hp|exact Hqr|exact Hpr].
      apply elem_of_positions. split; assumption. }
    subst q. apply elem_of_offsets in Hoff as (_ & _ & Hne). congruence.
  - intros Hin. apply list_elem_of_fmap in Hin as (r' & Hr' & _). discriminate.
  - rewrite length_fmap. apply length_mapM in Hns. rewrite <- Hns.
    apply elem_of_positions in Hp as [Hp1 Hp2].
    rewrite (length_in_grid_offsets rows cols p.1 p.2 Hp1 Hp2).
    unfold span. repeat destruct (_ <? _); simpl; lia.
Qed.

(** X7: the number of neighbors of the cell at [(row, col)] of a built grid is
    one less than the number of positions within one step of it in each
    direction: eight in the interior of the grid, fewer on its border, none
    in a grid of a single cell. *)
Theorem grid_neighbor_count (boolean : bool) (rows cols : Z) (h : heap) :
  exists cells h',
    grid_init boolean rows cols h = Some (GridNet rows cols cells 0, h') /\
    forall row col, 0 <= row < rows -> 0 <= col < cols ->
      exists r c,
        cell_at cells (row, col) = Some r /\ h' !! r = Some c /\
        length (neighbors c) = (span rows row * span cols col - 1)%nat /\
        (0 < row < rows - 1 -> 0 < col < cols - 1 -> length (neighbors c) = 8%nat) /\
        (rows = 1 -> cols = 1 -> neighbors c = []).
Proof.
  destruct (grid_init_spec boolean rows cols h)
    as (cells & h' & Hrun & Hshape & Hconcat & _ & Hcells).
  exists cells, h'. split; [exact Hrun|].
  intros row col Hrow Hcol.
  destruct (cell_at_in_grid rows cols cells Hshape (row, col) Hrow Hcol) as [r Hr].
  destruct (Hcells (row, col) r) as (c & ns & Hc & Hns & Hnb & _);
    [apply elem_of_positions; split; assumption|exact Hr|].
  exists r, c. split; [exact Hr|]. split; [exact Hc|].
  assert (Hlen : length (neighbors c) = (span rows row * span cols col - 1)%nat).
  { rewrite Hnb, length_fmap. apply length_mapM in Hns. rewrite <- Hns.
    apply length_in_grid_offsets; assumption. }
  split; [exact Hlen|]. split.
  - intros Hr' Hc'. rewrite Hlen. unfold span.
    destruct (Z.ltb_spec 0 row), (Z.ltb_spec 0 col),
             (Z.ltb_spec col (cols - 1)), (Z.ltb_spec row (rows - 1));
      solve [lia | reflexivity].
  - intros -> ->. apply length_zero_iff_nil. rewrite Hlen.
    assert (row = 0) as -> by lia. assert (col = 0) as -> by lia. reflexivity.
Qed.

Lemma with_neighbors_twice (ns ns' : list (option ref)) (c : Cell) :
  with_neighbors ns' (with_neighbors ns c) = with_neighbors ns' c.
Proof. reflexivity. Qed.

(** X8: [CellGrid.setupNeighbors] on a grid of distinct existing cells assigns
    nothing but the [neighbors] of the grid's cells, and what it assigns
    depends on the layout alone: objects outside the grid are untouched, every
    other attribute is kept, and running it a second time changes nothing. *)
Theorem setupNeighbors_idempotent (rows cols : Z) (cells : list (list ref)) (h : heap) :
  grid_shape rows cols cells ->
  NoDup (concat cells) ->
  (forall r, r ∈ concat cells -> (r < length h)%nat) ->
  exists h',
    CellGrid_setupNeighbors rows cols cells h = Some (tt, h') /\
    CellGrid_setupNeighbors rows cols cells h' = Some (tt, h') /\
    (forall r, r ∉ concat cells -> h' !! r = h !! r) /\
    (forall r c, h !! r = Some c ->
       exists ns, h' !! r = Some (with_neighbors ns c)).
Proof.
  intros Hshape Hnodup Hlt.
  destruct (setupNeighbors_spec rows cols cells h Hshape Hnodup Hlt)
    as (h' & Hrun & Hlen & Hout & Hin).
  assert (Hlt' : forall r, r ∈ concat cells -> (r < length h')%nat).
  { intros r Hr. rewrite Hlen. apply Hlt, Hr. }
  destruct (setupNeighbors_spec rows cols cells h' Hshape Hnodup Hlt')
    as (h'' & Hrun' & Hlen' & Hout' & Hin').
  assert (h'' = h') as ->.
  { apply list_eq. intros r.
    destruct (decide (r ∈ concat cells)) as [Hr|Hr]; [|apply Hout', Hr].
    destruct (cell_position rows cols cells Hshape r Hr) as (p & Hp & Hpr).
    destruct (lookup_lt_is_Some_2 h r (Hlt r Hr)) as [c Hc].
    destruct (Hin p r c Hp Hpr Hc) as (ns & Hns & _ & Hc').
    destruct (Hin' p r _ Hp Hpr Hc') as (ns' & Hns' & _ & Hc'').
    rewrite Hns in Hns'. injection Hns' as <-.
    rewrite Hc'', Hc'. reflexivity. }
  exists h'. split; [exact Hrun|]. split; [exact Hrun'|]. split; [exact Hout|].
  intros r c Hc.
  destruct (decide (r ∈ concat cells)) as [Hr|Hr].
  - destruct (cell_position rows cols cells Hshape r Hr) as (p & Hp & Hpr).
    destruct (Hin p r c Hp Hpr Hc) as (ns & _ & _ & Hc').
    exists (Some <$> ns). exact Hc'.
  - exists (neighbors c). rewrite (Hout r Hr), Hc. destruct c; reflexivity.
Qed.

Lemma setupNeighbors_idempotent_witness :
  let h := [new_cell KBase (RowCol 0 0) VNone; new_cell KInteger (Name "old") (VInt 3);
            new_cell KBase (RowCol 0 1) VNone] in
  exists h',
    CellGrid_setupNeighbors 1 2 [[0; 2]]%nat h = Some (tt, h') /\
    CellGrid_setupNeighbors 1 2 [[0; 2]]%nat h' = Some (tt, h') /\
    (forall r, r ∉ concat [[0; 2]]%nat -> h' !! r = h !! r) /\
    (forall r c, h !! r = Some c ->
       exists ns, h' !! r = Some (with_neighbors ns c)).
Proof.
  apply (setupNeighbors_idempotent 1 2 [[0; 2]]%nat).
  - split; [reflexivity|]. repeat constructor.
  - simpl. apply NoDup_cons. split; [|apply NoDup_singleton].
    intros Hin. apply list_elem_of_singleton in Hin. lia.
  - simpl. intros r Hr.
    apply elem_of_cons in Hr as [->|Hr]; [lia|].
    apply list_elem_of_singleton in Hr as ->. lia.
Defined.

(** ** More on the triangle *)

Lemma assign_lt (r : ref) (f : Cell -> Cell) (h : heap) :
  (r < length h)%nat ->
  exists c, h !! r = Some c /\ assign r f h = Some (tt, <[r := f c]> h).
Proof.
  intros Hr. destruct (lookup_lt_is_Some_2 h r Hr) as [c Hc].
  exists c. split; [exact Hc|]. apply assign_eq, Hc.
Qed.

(** X9: [simpleCellTriangle(listOfCells)] raises when it is given fewer than
    three cells. Given three or more it takes the list as it is, wires the
    first three and touches no other object, so that cells after the third
    are part of the net without being anyone's neighbor; where the first
    three are not three distinct objects the later assignment wins. *)
Theorem simpleCellTriangle_wires (l : list ref) (h : heap) :
  Forall (fun r => (r < length h)%nat) l ->
  ((length l < 3)%nat -> simpleCellTriangle l h = None) /\
  (forall a b c rest, l = a :: b :: c :: rest ->
     exists h',
       simpleCellTriangle l h = Some (FlatNet l 0, h') /\
       length h' = length h /\
       (forall r, r <> a -> r <> b -> r <> c -> h' !! r = h !! r) /\
       (forall r x, h !! r = Some x -> exists ns, h' !! r = Some (with_neighbors ns x)) /\
       neighbors <$> h' !! c = Some [Some a; Some b] /\
       (b <> c -> neighbors <$> h' !! b = Some [Some a; Some c]) /\
       (a <> b -> a <> c -> neighbors <$> h' !! a = Some [Some b; Some c])).
Proof.
  intros Hstore. split.
  - intros Hlen. destruct l as [|a [|b [|c rest]]]; simpl in Hlen; try lia; reflexivity.
  - intros a b c rest ->.
    apply Forall_cons in Hstore as [Hla Hstore].
    apply Forall_cons in Hstore as [Hlb Hstore].
    apply Forall_cons in Hstore as [Hlc _].
    destruct (assign_lt a (with_neighbors [Some b; Some c]) h Hla) as (ca & Ha & Hrun1).
    set (h1 := <[a := with_neighbors [Some b; Some c] ca]> h) in *.
    assert (Hlb1 : (b < length h1)%nat) by (unfold h1; rewrite length_insert; exact Hlb).
    destruct (assign_lt b (with_neighbors [Some a; Some c]) h1 Hlb1) as (cb & Hb & Hrun2).
    set (h2 := <[b := with_neighbors [Some a; Some c] cb]> h1) in *.
    assert (Hlc2 : (c < length h2)%nat)
      by (unfold h2, h1; rewrite !length_insert; exact Hlc).
    destruct (assign_lt c (with_neighbors [Some a; Some b]) h2 Hlc2) as (cc & Hc & Hrun3).
    set (h3 := <[c := with_neighbors [Some a; Some b] cc]> h2) in *.
    exists h3. split.
    { unfold simpleCellTriangle, simpleCellTriangle_setupNeighbors, getitem.
      cbv [bind lift ret Z.leb Z.compare Z.to_nat Pos.to_nat Pos.iter_op Nat.add].
      cbn [lookup list_lookup].
      rewrite Hrun1, Hrun2, Hrun3. reflexivity. }
    split; [unfold h3, h2, h1; rewrite !length_insert; reflexivity|].
    split.
    { intros r Hra Hrb Hrc. unfold h3, h2, h1.
      rewrite !list_lookup_insert_ne by congruence. reflexivity. }
    split.
    { intros r x Hx.
      assert (H1 : exists ns, h1 !! r = Some (with_neighbors ns x)).
      { unfold h1. destruct (decide (a = r)) as [->|Hne].
        - rewrite list_lookup_insert_eq by exact Hla.
          rewrite Hx in Ha. injection Ha as <-. eexists. reflexivity.
        - rewrite list_lookup_insert_ne by exact Hne.
          exists (neighbors x). rewrite Hx. destruct x; reflexivity. }
      destruct H1 as [ns1 H1].
      assert (H2 : exists ns, h2 !! r = Some (with_neighbors ns x)).
      { unfold h2. destruct (decide (b = r)) as [->|Hne].
        - rewrite list_lookup_insert_eq by exact Hlb1.
          rewrite H1 in Hb. injection Hb as <-. eexists. reflexivity.
        - rewrite list_lookup_insert_ne by exact Hne. exists ns1. exact H1. }
      destruct H2 as [ns2 H2].
      unfold h3. destruct (decide (c = r)) as [->|Hne].
      - rewrite list_lookup_insert_eq by exact Hlc2.
        rewrite H2 in Hc. injection Hc as <-. eexists. reflexivity.
      - rewrite list_lookup_insert_ne by exact Hne. exists ns2. exact H2. }
    split.
    { unfold h3. rewrite list_lookup_insert_eq by exact Hlc2. reflexivity. }
    split.
    { intros Hbc. unfold h3. rewrite list_lookup_insert_ne by congruence.
      unfold h2. rewrite list_lookup_insert_eq by exact Hlb1. reflexivity. }
    intros Hab Hac. unfold h3, h2. rewrite !list_lookup_insert_ne by congruence.
    unfold h1. rewrite list_lookup_insert_eq by exact Hla. reflexivity.
Qed.

Lemma simpleCellTriangle_wires_witness :
  let h := [new_cell KInteger (Name "a") (VInt 1); new_cell KInteger (Name "b") (VInt 5);
            new_cell KInteger (Name "c") (VInt 7); new_cell KInteger (Name "d") (VInt 9)] in
  let l := [0; 1; 2; 3]%nat in
  ((length l < 3)%nat -> simpleCellTriangle l h = None) /\
  (forall a b c rest, l = a :: b :: c :: rest ->
     exists h',
       simpleCellTriangle l h = Some (FlatNet l 0, h') /\
       length h' = length h /\
       (forall r, r <> a -> r <> b -> r <> c -> h' !! r = h !! r) /\
       (forall r x, h !! r = Some x -> exists ns, h' !! r = Some (with_neighbors ns x)) /\
       neighbors <$> h' !! c = Some [Some a; Some b] /\
       (b <> c -> neighbors <$> h' !! b = Some [Some a; Some c]) /\
       (a <> b -> a <> c -> neighbors <$> h' !! a = Some [Some b; Some c])).
Proof.
  apply (simpleCellTriangle_wires [0; 1; 2; 3]%nat).
  repeat (apply Forall_cons; split; [simpl; lia|]). apply Forall_nil_2.
Defined.

(** ** More on [tick] *)

Lemma tick_loop_add (n m : nat) :
  forall net h,
    tick_loop (n + m) net h = (net' <- tick_loop n net ;; tick_loop m net') h.
Proof.
  induction n as [|n IH]; intros net h; cbn [tick_loop Nat.add].
  - reflexivity.
  - unfold bind in *. destruct (tick1 net h) as [[net1 h1]|]; [|reflexivity].
    apply IH.
Qed.

(** X10: the loop of [tick] counts down and does nothing else with its
    argument: [tick(a + b)] is [tick(a)] followed by [tick(b)], a failure of
    either one included, and [tick] of zero or of a negative number of
    generations returns at once and leaves the net and every cell as they
    are. *)
Theorem tick_composes (net : CellNet) (h : heap) :
  (forall g, g <= 0 -> tick net g h = Some (net, h)) /\
  (forall a b, 0 <= a -> 0 <= b ->
     tick net (a + b) h = (net' <- tick net a ;; tick net' b) h).
Proof.
  split.
  - intros g Hg. unfold tick. replace (Z.to_nat g) with 0%nat by lia. reflexivity.
  - intros a b Ha Hb. unfold tick. rewrite Z2Nat.inj_add by assumption.
    apply tick_loop_add.
Qed.

Lemma Forall2_reshape {A B} (P : A -> B -> Prop) (n c : nat) :
  forall l l', Forall2 P l l' -> Forall2 (Forall2 P) (reshape n c l) (reshape n c l').
Proof.
  induction n as [|n IH]; intros l l' H; cbn [reshape]; constructor.
  - apply Forall2_take, H.
  - apply IH, Forall2_drop, H.
Qed.

Lemma grid_shape_concat {A} (rows cols : Z) (g : list (list A)) :
  grid_shape rows cols g -> g = reshape (Z.to_nat rows) (Z.to_nat cols) (concat g).
Proof.
  intros [Hlen Hrows]. rewrite <- Hlen.
  rewrite <- (app_nil_r (concat g)). symmetry. apply reshape_concat. exact Hrows.
Qed.

Lemma tick1_class (net net' : CellNet) (h h' : heap) :
  tick1 net h = Some (net', h') ->
  match net with
  | FlatNet _ g => exists l', net' = FlatNet l' (g + 1)
  | GridNet rows cols _ g =>
      exists cells', net' = GridNet rows cols cells' (g + 1) /\ grid_shape rows cols cells'
  end.
Proof.
  unfold tick1. unfold bind, lift, ret.
  destruct (toList net) as [l|]; [|discriminate].
  destruct (traverse _ l h) as [[newList h1]|]; [|discriminate].
  destruct (for_each newList rewire h1) as [[[] h2]|]; [|discriminate].
  destruct net as [cells g|rows cols cells g]; cbn [fromList].
  - intros [= <- <-]. eexists. reflexivity.
  - destruct (CellGrid_fromList rows cols newList) as [[newCells rest]|] eqn:Hfrom;
      [|discriminate].
    cbn. intros [= <- <-]. exists newCells. split; [reflexivity|].
    apply fromList_Some_inv in Hfrom as (Hlen & -> & _).
    apply grid_shape_reshape, Hlen.
Qed.

(** One tick of a grid that satisfies the invariant, cell by cell. *)
Lemma tick1_grid (rows cols : Z) (cells : list (list ref)) (g : Z) (h : heap) :
  net_inv h (GridNet rows cols cells g) ->
  grid_shape rows cols cells ->
  exists cells' h',
    tick1 (GridNet rows cols cells g) h = Some (GridNet rows cols cells' (g + 1), h') /\
    net_inv h' (GridNet rows cols cells' (g + 1)) /\
    grid_shape rows cols cells' /\
    concat cells' = seq (length h) (Z.to_nat rows * Z.to_nat cols) /\
    length h' = (length h + Z.to_nat rows * Z.to_nat cols)%nat /\
    ext h h' /\
    Forall2 (Forall2 (fun c d =>
               descendant <$> h' !! c = Some (Some d) /\
               exists cell v ns,
                 h !! c = Some cell /\ regenerate h cell = Some v /\
                 descendants_of h' (neighbors cell) = Some ns /\
                 h' !! d = Some (with_neighbors ns (next_cell c cell v))))
            cells cells'.
Proof.
  intros Hinv Hshape.
  destruct (tick1_inv _ h Hinv) as (net1 & h1 & _ & _ & Htick1 & Hinv1 & _).
  destruct Hinv as (l & Hl & Hnd & Hmem).
  pose proof (member_ok_ready h l _ Hmem) as Hready.
  destruct (tick1_spec _ h l Hl Hready)
    as (net' & h' & Htick & Hl' & _ & Hlen & Hext & _ & Hdesc & Hnew).
  rewrite Htick in Htick1. injection Htick1 as <- <-.
  destruct (tick1_class _ _ _ _ Htick) as (cells' & -> & Hshape').
  cbn [toList] in Hl, Hl'.
  rewrite (toList_shape rows cols cells Hshape) in Hl. injection Hl as <-.
  rewrite (toList_shape rows cols cells' Hshape') in Hl'. injection Hl' as Hconcat'.
  assert (Hn : length (concat cells) = (Z.to_nat rows * Z.to_nat cols)%nat).
  { destruct Hshape as [Hrows Hcols]. rewrite (length_concat_rows _ _ Hcols), Hrows.
    reflexivity. }
  rewrite Hn in Hconcat', Hlen.
  exists cells', h'. split; [exact Htick|]. split; [exact Hinv1|]. split; [exact Hshape'|].
  split; [exact Hconcat'|]. split; [exact Hlen|]. split; [exact Hext|].
  rewrite (grid_shape_concat rows cols cells Hshape).
  rewrite (grid_shape_concat rows cols cells' Hshape').
  apply Forall2_reshape.
  apply Forall2_same_length_lookup_2; [rewrite Hconcat', length_seq; exact Hn|].
  intros i c d Hc Hd. rewrite Hconcat' in Hd. apply lookup_seq in Hd as [-> _].
  destruct (Hdesc c) as (j & Hj & _ & Hdj); [eapply list_elem_of_lookup_2; exact Hc|].
  rewrite (NoDup_lookup _ i j c Hnd Hc Hj). split; [exact Hdj|].
  destruct (Hmem c) as (cell & Hcell & _); [eapply list_elem_of_lookup_2; exact Hc|].
  destruct (Hnew j c cell Hj Hcell) as (v & ns & Hv & Hns & Hlook).
  exists cell, v, ns. repeat split; assumption.
Qed.

Lemma Forall2_cell_at {B} (P : ref -> B -> Prop) (rows cols : Z)
    (cells : list (list ref)) (others : list (list B)) (row col : Z) (r : ref) :
  Forall2 (Forall2 P) cells others ->
  0 <= row -> 0 <= col ->
  cell_at cells (row, col) = Some r ->
  exists x, (i ← others !! Z.to_nat row; i !! Z.to_nat col) = Some x /\ P r x.
Proof.
  intros Hall Hrow Hcol. unfold cell_at. cbn [fst snd].
  rewrite !getitem_nonneg by assumption.
  destruct (cells !! Z.to_nat row) as [line|] eqn:Hline; [|discriminate]. simpl.
  rewrite getitem_nonneg by assumption. intros Hr.
  destruct (Forall2_lookup_l _ _ _ _ _ Hall Hline) as (line' & Hline' & Hrowall).
  destruct (Forall2_lookup_l _ _ _ _ _ Hrowall Hr) as (x & Hx & HP).
  exists x. rewrite Hline'. simpl. split; [exact Hx|exact HP].
Qed.

(** A grid of one row of two boolean cells, as [BooleanCellGrid(1, 2)] leaves
    it in the empty store. *)
Lemma pair_store_inv :
  net_inv [with_neighbors [Some 1%nat] (grid_cell true (RowCol 0 0));
           with_neighbors [Some 0%nat] (grid_cell true (RowCol 0 1))]
          (GridNet 1 2 [[0; 1]]%nat 0).
Proof.
  exists [0; 1]%nat. split; [reflexivity|]. split.
  - repeat (apply NoDup_cons; split; [rewrite ?elem_of_cons, elem_of_nil; lia|]).
    apply NoDup_nil_2.
  - intros c Hc. rewrite !elem_of_cons, elem_of_nil in Hc.
    destruct Hc as [->|[->|[]]]; (eexists; split; [reflexivity|]);
      (split; [reflexivity|]);
      (split; [repeat constructor; eexists; (split; [reflexivity|]);
               rewrite !elem_of_cons; lia
              |eexists; reflexivity]).
Qed.

(** X11: one tick of a grid keeps every cell in its place. The new array has
    the shape of the old one, the store grows by one object per cell, and the
    cell at [(row, col)] afterwards is a new object: the descendant of the
    cell that was at [(row, col)] before, with that cell as its ancestor and
    with its identity. *)
Theorem tick_keeps_positions (rows cols : Z) (cells : list (list ref)) (g : Z) (h : heap) :
  net_inv h (GridNet rows cols cells g) ->
  grid_shape rows cols cells ->
  exists cells' h',
    tick (GridNet rows cols cells g) 1 h = Some (GridNet rows cols cells' (g + 1), h') /\
    grid_shape rows cols cells' /\
    length h' = (length h + Z.to_nat rows * Z.to_nat cols)%nat /\
    forall row col, 0 <= row < rows -> 0 <= col < cols ->
      exists old new c c',
        cell_at cells (row, col) = Some old /\ cell_at cells' (row, col) = Some new /\
        h !! new = None /\
        h' !! old = Some c /\ descendant c = Some new /\
        h' !! new = Some c' /\ ancestor c' = Some old /\ identity c' = identity c.
Proof.
  intros Hinv Hshape.
  destruct (tick1_grid rows cols cells g h Hinv Hshape)
    as (cells' & h' & Htick & _ & Hshape' & Hconcat' & Hlen & Hext & Hall).
  exists cells', h'. split; [rewrite tick_one; exact Htick|].
  split; [exact Hshape'|]. split; [exact Hlen|].
  intros row col Hrow Hcol.
  destruct (cell_at_in_grid rows cols cells Hshape (row, col) Hrow Hcol) as [old Hold].
  destruct (Forall2_cell_at _ rows cols cells cells' row col old Hall) as (new & Hnew & Hd & Hc');
    [lia|lia|exact Hold|].
  destruct Hc' as (cell & v & ns & Hcell & _ & _ & Hlook).
  assert (Hnew' : cell_at cells' (row, col) = Some new).
  { unfold cell_at. cbn [fst snd]. rewrite getitem_nonneg by lia.
    destruct (cells' !! Z.to_nat row) as [line|]; [|discriminate]. simpl in *.
    rewrite getitem_nonneg by lia. exact Hnew. }
  destruct (Hext old cell Hcell) as [d Hold'].
  rewrite Hold' in Hd. cbn in Hd. injection Hd as ->.
  exists old, new, (with_descendant (Some new) cell), (with_neighbors ns (next_cell old cell v)).
  split; [exact Hold|]. split; [exact Hnew'|]. split.
  { apply lookup_ge_None.
    assert (Hin : new ∈ concat cells') by (eapply cell_at_elem_of; exact Hnew').
    rewrite Hconcat' in Hin. apply elem_of_seq in Hin. lia. }
  split; [exact Hold'|]. split; [reflexivity|]. split; [exact Hlook|].
  split; reflexivity.
Qed.

Lemma tick_keeps_positions_witness :
  let h := [with_neighbors [Some 1%nat] (grid_cell true (RowCol 0 0));
            with_neighbors [Some 0%nat] (grid_cell true (RowCol 0 1))] in
  let cells := [[0; 1]]%nat in
  exists cells' h',
    tick (GridNet 1 2 cells 0) 1 h = Some (GridNet 1 2 cells' (0 + 1), h') /\
    grid_shape 1 2 cells' /\
    length h' = (length h + Z.to_nat 1 * Z.to_nat 2)%nat /\
    forall row col, 0 <= row < 1 -> 0 <= col < 2 ->
      exists old new c c',
        cell_at cells (row, col) = Some old /\ cell_at cells' (row, col) = Some new /\
        h !! new = None /\
        h' !! old = Some c /\ descendant c = Some new /\
        h' !! new = Some c' /\ ancestor c' = Some old /\ identity c' = identity c.
Proof.
  apply (tick_keeps_positions 1 2 [[0; 1]]%nat 0 _ pair_store_inv).
  split; [reflexivity|]. repeat constructor.
Defined.

Lemma tick_loop_frame (n : nat) :
  forall net h l,
    net_inv h net -> toList net = Some l ->
    exists net' h' l',
      tick_loop n net h = Some (net', h') /\
      toList net' = Some l' /\
      length l' = length l /\
      length h' = (length h + n * length l)%nat /\
      ext h h' /\
      (forall r, r ∉ l -> (r < length h)%nat -> h' !! r = h !! r).
Proof.
  induction n as [|n IH]; intros net h l Hinv Hl.
  - exists net, h, l. split; [reflexivity|]. split; [exact Hl|]. split; [reflexivity|].
    split; [simpl; lia|]. split; [apply ext_refl|]. reflexivity.
  - destruct (tick1_inv net h Hinv) as (net1 & h1 & _ & _ & Htick1 & Hinv1 & _).
    destruct Hinv as (l0 & Hl0 & _ & Hmem). rewrite Hl in Hl0. injection Hl0 as <-.
    pose proof (member_ok_ready h l _ Hmem) as Hready.
    destruct (tick1_spec net h l Hl Hready)
      as (net1' & h1' & Htick & Hl1 & _ & Hlen1 & Hext1 & Hframe1 & _).
    rewrite Htick in Htick1. injection Htick1 as <- <-.
    destruct (IH net1' h1' _ Hinv1 Hl1) as (net' & h' & l' & Hrun & Hl' & Hlen' & Hlenh & Hext & Hframe).
    exists net', h', l'. split.
    { cbn [tick_loop]. erewrite se_bind_Some; [|exact Htick]. exact Hrun. }
    split; [exact Hl'|]. split; [rewrite Hlen', length_seq; reflexivity|].
    split; [rewrite Hlenh, Hlen1, length_seq; lia|].
    split; [eapply ext_trans; eassumption|].
    intros r Hr Hlt. rewrite Hframe.
    + apply Hframe1; assumption.
    + rewrite elem_of_seq. lia.
    + lia.
Qed.

Lemma cell_at_Forall2 (P : ref -> ref -> Prop) (cells cells' : list (list ref))
    (p : Z * Z) (r : ref) :
  Forall2 (Forall2 P) cells cells' ->
  0 <= p.1 -> 0 <= p.2 ->
  cell_at cells p = Some r ->
  exists d, cell_at cells' p = Some d /\ P r d.
Proof.
  intros Hall Hrow Hcol. unfold cell_at.
  rewrite !getitem_nonneg by assumption.
  destruct (cells !! Z.to_nat p.1) as [line|] eqn:Hline; [|discriminate]. simpl.
  rewrite getitem_nonneg by assumption. intros Hr.
  destruct (Forall2_lookup_l _ _ _ _ _ Hall Hline) as (line' & Hline' & Hrowall).
  destruct (Forall2_lookup_l _ _ _ _ _ Hrowall Hr) as (x & Hx & HP).
  exists x. rewrite Hline'. simpl. rewrite getitem_nonneg by assumption.
  split; [exact Hx|exact HP].
Qed.

Lemma mapM_follow {A B C} (f : A -> option B) (g : A -> option C) (R : B -> C -> Prop) :
  forall qs ns,
    mapM f qs = Some ns ->
    (forall q n, q ∈ qs -> f q = Some n -> exists d, g q = Some d /\ R n d) ->
    exists ns', mapM g qs = Some ns' /\ Forall2 R ns ns'.
Proof.
  induction qs as [|q qs IH]; intros ns Hns Hstep.
  - injection Hns as <-. exists []. split; [reflexivity|constructor].
  - cbn [mapM] in Hns. destruct (f q) as [n|] eqn:Hn; [|discriminate].
    destruct (mapM f qs) as [ns0|]; [|discriminate]. injection Hns as <-.
    destruct (Hstep q n) as (d & Hd & HR); [left|exact Hn|].
    destruct (IH ns0 eq_refl) as (ns' & Hns' & Hall).
    { intros q' n' Hq'. apply Hstep. right. exact Hq'. }
    exists (d :: ns'). cbn [mapM]. rewrite Hd, Hns'. split; [reflexivity|].
    constructor; assumption.
Qed.

Lemma descendants_of_fmap (h : heap) (ns ns' : list ref) :
  Forall2 (fun n d => descendant <$> h !! n = Some (Some d)) ns ns' ->
  descendants_of h (Some <$> ns) = Some (Some <$> ns').
Proof.
  unfold descendants_of. induction 1 as [|n d ns ns' Hd _ IH]; [reflexivity|].
  rewrite !fmap_cons. cbn [mapM]. cbn [deref mbind option_bind]. rewrite Hd, IH.
  reflexivity.
Qed.

(** One tick of a wired grid gives a wired grid. *)
Lemma tick1_wired (rows cols : Z) (cells : list (list ref)) (g : Z) (h : heap) :
  net_inv h (GridNet rows cols cells g) ->
  grid_shape rows cols cells ->
  wired rows cols cells h ->
  exists cells' h',
    tick1 (GridNet rows cols cells g) h = Some (GridNet rows cols cells' (g + 1), h') /\
    net_inv h' (GridNet rows cols cells' (g + 1)) /\
    grid_shape rows cols cells' /\
    wired rows cols cells' h'.
Proof.
  intros Hinv Hshape Hwired.
  destruct (tick1_grid rows cols cells g h Hinv Hshape)
    as (cells' & h' & Htick & Hinv' & Hshape' & _ & _ & _ & Hall).
  exists cells', h'. split; [exact Htick|]. split; [exact Hinv'|]. split; [exact Hshape'|].
  intros p d Hp Hd.
  pose proof Hp as Hp'. apply elem_of_positions in Hp' as [Hp1 Hp2].
  destruct (cell_at_in_grid rows cols cells Hshape p Hp1 Hp2) as [c Hc].
  destruct (cell_at_Forall2 _ cells cells' p c Hall) as (d' & Hd' & _ & Hnew);
    [lia|lia|exact Hc|].
  rewrite Hd in Hd'. injection Hd' as <-.
  destruct Hnew as (cell & v & ns & Hcell & _ & Hns & Hlook).
  destruct (Hwired p c Hp Hc) as (cell0 & ns0 & Hcell0 & Hns0 & Hnb).
  rewrite Hcell in Hcell0. injection Hcell0 as <-.
  destruct (mapM_follow (cell_at cells) (cell_at cells')
              (fun n d => descendant <$> h' !! n = Some (Some d)) _ _ Hns0)
    as (ns0' & Hns0' & Hdesc).
  { intros q n Hq Hn.
    apply elem_of_in_grid_offsets in Hq as (_ & Hq1 & Hq2).
    destruct (cell_at_Forall2 _ cells cells' q n Hall) as (dn & Hdn & Hdd & _);
      [lia|lia|exact Hn|].
    exists dn. split; assumption. }
  rewrite Hnb, (descendants_of_fmap h' ns0 ns0' Hdesc) in Hns. injection Hns as <-.
  exists (with_neighbors (Some <$> ns0') (next_cell c cell v)), ns0'.
  split; [exact Hlook|]. split; [exact Hns0'|reflexivity].
Qed.

Lemma tick_loop_wired (rows cols : Z) (n : nat) :
  forall cells g h,
    net_inv h (GridNet rows cols cells g) ->
    grid_shape rows cols cells ->
    wired rows cols cells h ->
    exists cells' h',
      tick_loop n (GridNet rows cols cells g) h
      = Some (GridNet rows cols cells' (g + Z.of_nat n), h') /\
      grid_shape rows cols cells' /\
      wired rows cols cells' h'.
Proof.
  induction n as [|n IH]; intros cells g h Hinv Hshape Hwired.
  - exists cells, h. rewrite Z.add_0_r. split; [reflexivity|]. split; assumption.
  - destruct (tick1_wired rows cols cells g h Hinv Hshape Hwired)
      as (cells1 & h1 & Htick & Hinv1 & Hshape1 & Hwired1).
    destruct (IH cells1 (g + 1) h1 Hinv1 Hshape1 Hwired1)
      as (cells' & h' & Hrun & Hshape' & Hwired').
    exists cells', h'. split; [|split; assumption].
    cbn [tick_loop]. erewrite se_bind_Some; [|exact Htick]. rewrite Hrun.
    replace (g + Z.of_nat (S n)) with (g + 1 + Z.of_nat n) by lia. reflexivity.
Qed.

(** The grid of one row of two boolean cells is wired. *)
Lemma pair_store_wired :
  wired 1 2 [[0; 1]]%nat
        [with_neighbors [Some 1%nat] (grid_cell true (RowCol 0 0));
         with_neighbors [Some 0%nat] (grid_cell true (RowCol 0 1))].
Proof.
  intros p r Hp Hr. change (positions 1 2) with [(0, 0); (0, 1)] in Hp.
  rewrite !elem_of_cons, elem_of_nil in Hp.
  destruct Hp as [->|[->|[]]]; injection Hr as <-;
    eexists; eexists; (split; [reflexivity|]); split; reflexivity.
Qed.

(** X13: [tick] keeps the topology of a grid. If the cells of a grid are
    wired as [setupNeighbors] wires them, then after any number of ticks the
    new cells are wired in the same way among themselves: the neighbors of
    the cell at a position are the cells now at the compass points around
    it, in compass order. *)
Theorem tick_keeps_wiring (rows cols : Z) (cells : list (list ref)) (g n : Z) (h : heap) :
  net_inv h (GridNet rows cols cells g) ->
  grid_shape rows cols cells ->
  wired rows cols cells h ->
  0 <= n ->
  exists cells' h',
    tick (GridNet rows cols cells g) n h = Some (GridNet rows cols cells' (g + n), h') /\
    grid_shape rows cols cells' /\
    wired rows cols cells' h'.
Proof.
  intros Hinv Hshape Hwired Hn.
  destruct (tick_loop_wired rows cols (Z.to_nat n) cells g h Hinv Hshape Hwired)
    as (cells' & h' & Hrun & Hshape' & Hwired').
  exists cells', h'. unfold tick. rewrite Hrun, Z2Nat.id by exact Hn.
  split; [reflexivity|]. split; assumption.
Qed.

Lemma tick_keeps_wiring_witness :
  let h := [with_neighbors [Some 1%nat] (grid_cell true (RowCol 0 0));
            with_neighbors [Some 0%nat] (grid_cell true (RowCol 0 1))] in
  exists cells' h',
    tick (GridNet 1 2 [[0; 1]]%nat 0) 2 h = Some (GridNet 1 2 cells' (0 + 2), h') /\
    grid_shape 1 2 cells' /\
    wired 1 2 cells' h'.
Proof.
  apply (tick_keeps_wiring 1 2 [[0; 1]]%nat 0 2 _ pair_store_inv).
  - split; [reflexivity|]. repeat constructor.
  - exact pair_store_wired.
  - lia.
Defined.

(** ** More on building a grid *)

Lemma lookup_concat_fmap {A B C} (f : A -> B -> C) (rs : list A) (cs : list B) :
  forall (i j : nat) (a : A) (b : B),
    rs !! i = Some a -> cs !! j = Some b ->
    concat ((fun r => f r <$> cs) <$> rs) !! (i * length cs + j)%nat = Some (f a b).
Proof.
  induction rs as [|r rs IH]; intros i j a b Ha Hb; [discriminate|].
  rewrite fmap_cons. cbn [concat]. destruct i as [|i].
  - injection Ha as ->. change (0 * length cs + j)%nat with j. rewrite lookup_app_l.
    + rewrite list_lookup_fmap, Hb. reflexivity.
    + rewrite length_fmap. apply lookup_lt_Some in Hb. exact Hb.
  - rewrite lookup_app_r by (rewrite length_fmap; simpl; lia).
    rewrite length_fmap.
    replace (S i * length cs + j - length cs)%nat with (i * length cs + j)%nat by lia.
    apply IH; assumption.
Qed.

(** X14: [CellGrid(rows, cols)] and [BooleanCellGrid(rows, cols)] create one
    new object per position, row by row, and change no object that was there
    before: the cell at [(row, col)] is the object number [row * cols + col]
    among the new ones, and it is the cell [makeCell] makes for the identity
    [(row, col)] but for its neighbors. *)
Theorem grid_init_cells (boolean : bool) (rows cols : Z) (h : heap) :
  exists cells h',
    grid_init boolean rows cols h = Some (GridNet rows cols cells 0, h') /\
    length h' = (length h + Z.to_nat rows * Z.to_nat cols)%nat /\
    (forall r, (r < length h)%nat -> h' !! r = h !! r) /\
    forall row col, 0 <= row < rows -> 0 <= col < cols ->
      exists ns,
        cell_at cells (row, col) = Some (length h + Z.to_nat (row * cols + col))%nat /\
        h' !! (length h + Z.to_nat (row * cols + col))%nat
        = Some (with_neighbors ns (grid_cell boolean (RowCol row col))).
Proof.
  set (n := (Z.to_nat rows * Z.to_nat cols)%nat).
  set (cells := reshape (Z.to_nat rows) (Z.to_nat cols) (seq (length h) n)).
  set (news := concat ((fun row => (fun col => grid_cell boolean (RowCol row col))
                                     <$> range cols) <$> range rows)).
  assert (Hbuild : traverse (fun row => traverse (fun col => makeCell boolean (RowCol row col))
                                                 (range cols)) (range rows) h
                   = Some (cells, h ++ news)).
  { unfold cells, news, n. rewrite <- (length_range rows), <- (length_range cols).
    rewrite <- traverse_rows_alloc. destruct boolean; reflexivity. }
  assert (Hshape : grid_shape rows cols cells).
  { apply grid_shape_reshape. rewrite length_seq. unfold n. lia. }
  assert (Hconcat : concat cells = seq (length h) n).
  { unfold cells. rewrite concat_reshape by (rewrite length_seq; unfold n; lia).
    apply take_ge. rewrite length_seq. unfold n. lia. }
  assert (Hlennews : length news = n).
  { unfold news, n. rewrite length_concat_fmap, !length_range. reflexivity. }
  destruct (setupNeighbors_spec rows cols cells (h ++ news) Hshape)
    as (h' & Hrun & Hlen & Hsame & Hset).
  { rewrite Hconcat. apply NoDup_seq. }
  { intros r Hr. rewrite Hconcat in Hr. apply elem_of_seq in Hr.
    rewrite length_app. lia. }
  exists cells, h'. split.
  { unfold grid_init.
    erewrite se_bind_Some; [|exact Hbuild].
    erewrite se_bind_Some; [|exact Hrun]. reflexivity. }
  split; [rewrite Hlen, length_app, Hlennews; reflexivity|]. split.
  { intros r Hr. rewrite Hsame.
    - apply lookup_app_l. exact Hr.
    - rewrite Hconcat, elem_of_seq. lia. }
  intros row col Hrow Hcol.
  set (idx := Z.to_nat (row * cols + col)).
  assert (Hidx : idx = (Z.to_nat row * Z.to_nat cols + Z.to_nat col)%nat) by (unfold idx; nia).
  assert (Hlt : (idx < n)%nat) by (unfold n; nia).
  assert (Hat : cell_at cells (row, col) = Some (length h + idx)%nat).
  { unfold cells. rewrite cell_at_reshape by assumption.
    apply lookup_seq. split; [reflexivity|exact Hlt]. }
  assert (Hcell : (h ++ news) !! (length h + idx)%nat
                  = Some (grid_cell boolean (RowCol row col))).
  { rewrite lookup_app_r by lia.
    replace (length h + idx - length h)%nat with idx by lia.
    rewrite Hidx, <- (length_range cols). unfold news.
    apply (lookup_concat_fmap (fun row col => grid_cell boolean (RowCol row col))).
    - apply lookup_range. split; lia.
    - apply lookup_range. split; lia. }
  destruct (Hset (row, col) _ _ (proj2 (elem_of_positions rows cols (row, col))
                                       (conj Hrow Hcol)) Hat Hcell)
    as (ns & _ & _ & Hlook).
  exists (Some <$> ns). split; [exact Hat|exact Hlook].
Qed.

(** ** The viewers of a grid *)

Lemma mapM_pair {A B C} (f : A -> option C) (g : B -> option C) (T : B -> C -> Prop) :
  forall l1 l2,
    Forall2 (fun a b => exists o, f a = Some o /\ g b = Some o /\ T b o) l1 l2 ->
    exists out, mapM f l1 = Some out /\ mapM g l2 = Some out /\ Forall2 T l2 out.
Proof.
  induction 1 as [|a b l1 l2 (o & Hf & Hg & HT) _ (out & Hout1 & Hout2 & Hall)].
  - exists []. repeat split. constructor.
  - exists (o :: out). cbn [mapM]. rewrite Hf, Hg, Hout1, Hout2.
    repeat split. constructor; assumption.
Qed.

Lemma Forall2_common {A B C} (P : A -> B -> Prop) (Q : A -> C -> Prop) (R : B -> C -> Prop) :
  (forall a b c, P a b -> Q a c -> R b c) ->
  forall l lb lc, Forall2 P l lb -> Forall2 Q l lc -> Forall2 R lb lc.
Proof.
  intros HR l lb lc HP. revert lc.
  induction HP as [|a b l lb Hab _ IH]; intros lc HQ; inversion HQ; subst; constructor.
  - eapply HR; eassumption.
  - apply IH. assumption.
Qed.

Section Viewers.
Import CellViewerController.

Lemma refresh_bound (h : heap) (k : ViewerClass) (c : ref) (s : option string) (x : Cell) :
  h !! c = Some x ->
  refresh h (mkViewer k (Some c) s) = Some (mkViewer k (Some c) (Some (show k (state x)))).
Proof. intros Hx. unfold refresh. destruct k; cbn; rewrite ?Hx; reflexivity. Qed.

Lemma init_bound (h : heap) (k : ViewerClass) (c : ref) (x : Cell) :
  h !! c = Some x ->
  init k (Some c) h = Some (mkViewer k (Some c) (Some (show k (state x)))).
Proof.
  intros Hx. unfold init, setCell. cbn [cls strValue].
  rewrite (refresh_bound h k c None x Hx). cbn.
  apply refresh_bound, Hx.
Qed.

Lemma rebind_descendant (h : heap) (v : Viewer) (c d : ref) (x y : Cell) :
  cell v = Some c -> h !! c = Some x -> descendant x = Some d -> h !! d = Some y ->
  rebind h v = Some (mkViewer (cls v) (Some d) (Some (show (cls v) (state y)))).
Proof.
  intros Hv Hx Hd Hy. unfold rebind, setCell. rewrite Hv. cbn. rewrite Hx. cbn.
  rewrite Hd. apply refresh_bound, Hy.
Qed.

Lemma rebind_Some_inv (h : heap) (v v' : Viewer) :
  rebind h v = Some v' ->
  cls v' = cls v /\ exists x, deref h (cell v) = Some x /\ cell v' = descendant x.
Proof.
  unfold rebind. destruct (deref h (cell v)) as [x|]; [|discriminate]. cbn.
  unfold setCell, refresh. cbn [cls cell strValue].
  intros Hrun. assert (cls v' = cls v /\ cell v' = descendant x) as [Hk Hc].
  { destruct (cls v); cbn in Hrun.
    - injection Hrun as <-. split; reflexivity.
    - destruct (deref h (descendant x)); [|discriminate].
      injection Hrun as <-. split; reflexivity.
    - destruct (deref h (descendant x)); [|discriminate].
      injection Hrun as <-. split; reflexivity. }
  split; [exact Hk|]. exists x. split; [reflexivity|exact Hc].
Qed.

Lemma rebind_is_Some (h : heap) (v : Viewer) :
  viewer_ok h v ->
  (is_Some (rebind h v) <->
   exists x, deref h (cell v) = Some x /\ (cls v = CellViewer \/ is_Some (descendant x))).
Proof.
  intros Hok. unfold rebind. destruct (cell v) as [c|] eqn:Hc; cbn.
  - destruct (Hok c Hc) as (x & Hx & Hd). rewrite Hx. cbn.
    unfold setCell, refresh. cbn [cls cell strValue]. split.
    + intros Hsome. exists x. split; [reflexivity|].
      destruct (cls v); [left; reflexivity| |];
        (right; destruct (descendant x) as [d|]; [eexists; reflexivity|];
         cbn in Hsome; destruct Hsome as [? [=]]).
    + intros (x' & [= <-] & Hcase).
      destruct (cls v) eqn:Hk; cbn; [eexists; reflexivity| |];
        (destruct Hcase as [[=]|[d Hdesc]]; rewrite Hdesc; cbn;
         destruct (Hd d Hdesc) as [y ->]; eexists; reflexivity).
  - split; [intros [? [=]]|intros (x & [=] & _)].
Qed.

(** X15: [refreshOnTick] called after a tick makes the viewers of a grid
    follow it. If the viewer at each position shows the cell at that position
    before the tick, whatever string it holds, then afterwards it shows the
    new cell at that position and the string of that cell's new state: the
    viewers are the ones a new controller would create for the new grid. *)
Theorem refreshOnTick_follows (k : ViewerClass) (rows cols : Z) (cells : list (list ref))
    (g : Z) (h : heap) (vs : list (list Viewer)) :
  net_inv h (GridNet rows cols cells g) ->
  grid_shape rows cols cells ->
  Forall2 (Forall2 (fun c v => cell v = Some c /\ cls v = k)) cells vs ->
  exists cells' h' vs',
    tick (GridNet rows cols cells g) 1 h = Some (GridNet rows cols cells' (g + 1), h') /\
    refreshOnTick h' vs = Some vs' /\
    grid_viewers k cells' h' = Some vs' /\
    Forall2 (Forall2 (fun d v =>
               exists y, h' !! d = Some y /\
                         v = mkViewer k (Some d) (Some (show k (state y)))))
            cells' vs'.
Proof.
  intros Hinv Hshape Hbound.
  destruct (tick1_grid rows cols cells g h Hinv Hshape)
    as (cells' & h' & Htick & _ & _ & _ & _ & Hext & Hall).
  assert (Hboth : Forall2 (Forall2 (fun v d =>
            exists o, rebind h' v = Some o /\ init k (Some d) h' = Some o /\
                      exists y, h' !! d = Some y /\
                                o = mkViewer k (Some d) (Some (show k (state y)))))
            vs cells').
  { eapply Forall2_common; [|exact Hbound|exact Hall].
    intros row vrow row'. apply Forall2_common.
    intros c v d [Hv Hk] (Hd & x & val & ns & Hx & _ & _ & Hy).
    destruct (Hext c x Hx) as [d' Hx']. rewrite Hx' in Hd. cbn in Hd.
    injection Hd as ->.
    eexists. split.
    - rewrite (rebind_descendant h' v c d _ _ Hv Hx' eq_refl Hy), Hk. reflexivity.
    - split; [apply init_bound, Hy|]. eexists. split; [exact Hy|reflexivity]. }
  destruct (mapM_pair (mapM (rebind h')) (mapM (fun d => init k (Some d) h'))
                      (Forall2 (fun d v => exists y, h' !! d = Some y /\
                                  v = mkViewer k (Some d) (Some (show k (state y)))))
                      vs cells') as (vs' & Hre & Hnew & Hshow).
  { eapply Forall2_impl; [exact Hboth|]. intros vrow row' Hrow.
    destruct (mapM_pair _ _ _ _ _ Hrow) as (out & H1 & H2 & H3).
    exists out. repeat split; assumption. }
  exists cells', h', vs'. split; [rewrite tick_one; exact Htick|].
  split; [exact Hre|]. split; [exact Hnew|exact Hshow].
Qed.

Lemma refreshOnTick_follows_witness :
  let h := [with_neighbors [Some 1%nat] (grid_cell true (RowCol 0 0));
            with_neighbors [Some 0%nat] (grid_cell true (RowCol 0 1))] in
  let cells := [[0; 1]]%nat in
  let vs := [[mkViewer BooleanCellViewer (Some 0%nat) (Some "-");
              mkViewer BooleanCellViewer (Some 1%nat) None]] in
  exists cells' h' vs',
    tick (GridNet 1 2 cells 0) 1 h = Some (GridNet 1 2 cells' (0 + 1), h') /\
    refreshOnTick h' vs = Some vs' /\
    grid_viewers BooleanCellViewer cells' h' = Some vs' /\
    Forall2 (Forall2 (fun d v =>
               exists y, h' !! d = Some y /\
                         v = mkViewer BooleanCellViewer (Some d)
                                      (Some (show BooleanCellViewer (state y)))))
            cells' vs'.
Proof.
  apply (refreshOnTick_follows BooleanCellViewer 1 2 [[0; 1]]%nat 0 _ _ pair_store_inv).
  - split; [reflexivity|]. repeat constructor.
  - repeat constructor.
Defined.

(** X16: [refreshOnTick] returns exactly when every viewer is bound to a
    cell and, unless it is a plain [CellViewerController], that cell has a
    descendant: it raises for a viewer without a cell, and for an integer or
    boolean viewer whose cell has not been through a tick. When it returns,
    every viewer keeps its class and is bound to the descendant of its cell,
    which for a plain viewer may be [None]. *)
Theorem refreshOnTick_returns_iff (h : heap) (vs : list (list Viewer)) :
  Forall (Forall (viewer_ok h)) vs ->
  (is_Some (refreshOnTick h vs) <->
   Forall (Forall (fun v => exists x, deref h (cell v) = Some x /\
                                      (cls v = CellViewer \/ is_Some (descendant x)))) vs) /\
  (forall vs', refreshOnTick h vs = Some vs' ->
     Forall2 (Forall2 (fun v v' => cls v' = cls v /\
                exists x, deref h (cell v) = Some x /\ cell v' = descendant x)) vs vs').
Proof.
  intros Hok. split.
  - unfold refreshOnTick. rewrite mapM_is_Some.
    split; intros Hall; apply Forall_forall; intros row Hrow.
    + eapply Forall_forall in Hall; [|exact Hrow]. cbn in Hall.
      apply mapM_is_Some in Hall.
      eapply Forall_forall in Hok; [|exact Hrow].
      apply Forall_forall. intros v Hv.
      eapply Forall_forall in Hall; [|exact Hv]. eapply Forall_forall in Hok; [|exact Hv].
      apply rebind_is_Some; assumption.
    + cbn. apply mapM_is_Some.
      eapply Forall_forall in Hall; [|exact Hrow].
      eapply Forall_forall in Hok; [|exact Hrow].
      apply Forall_forall. intros v Hv.
      eapply Forall_forall in Hall; [|exact Hv]. eapply Forall_forall in Hok; [|exact Hv].
      cbn. apply rebind_is_Some; assumption.
  - intros vs' Hrun. unfold refreshOnTick in Hrun. apply mapM_Some in Hrun.
    eapply Forall2_impl; [exact Hrun|]. intros row row' Hrow.
    apply mapM_Some in Hrow. eapply Forall2_impl; [exact Hrow|].
    intros v v'. apply rebind_Some_inv.
Qed.

Lemma refreshOnTick_returns_iff_witness :
  let h := [with_neighbors [Some 1%nat] (grid_cell true (RowCol 0 0));
            with_neighbors [Some 0%nat] (grid_cell true (RowCol 0 1))] in
  let vs := [[mkViewer BooleanCellViewer (Some 0%nat) (Some "-");
              mkViewer CellViewer None (Some "X")]] in
  (is_Some (refreshOnTick h vs) <->
   Forall (Forall (fun v => exists x, deref h (cell v) = Some x /\
                                      (cls v = CellViewer \/ is_Some (descendant x)))) vs) /\
  (forall vs', refreshOnTick h vs = Some vs' ->
     Forall2 (Forall2 (fun v v' => cls v' = cls v /\
                exists x, deref h (cell v) = Some x /\ cell v' = descendant x)) vs vs').
Proof.
  apply refreshOnTick_returns_iff.
  repeat constructor.
  - intros c [= <-]. eexists. split; [reflexivity|]. intros d [=].
  - intros c [=].
Defined.

End Viewers.

(** ** [tick] with its subscribers *)

Lemma toList_set_generation (g : Z) (net : CellNet) :
  toList (set_generation g net) = toList net.
Proof. destruct net; reflexivity. Qed.

Lemma cells_inv_net_inv (h : heap) (net : CellNet) (k : Z) :
  cells_inv h net k <-> net_inv h (set_generation k net).
Proof.
  unfold cells_inv, net_inv. rewrite toList_set_generation.
  destruct net; reflexivity.
Qed.

Lemma net_inv_cells_inv (h : heap) (net : CellNet) :
  net_inv h net <-> cells_inv h net (net_generation net).
Proof. reflexivity. Qed.

Lemma tick1_set_generation (g : Z) (net : CellNet) (h : heap) :
  tick1 (set_generation g net) h
  = (fun r => (set_generation (g + 1) r.1, r.2)) <$> tick1 net h.
Proof.
  unfold tick1. rewrite toList_set_generation. unfold bind, lift, ret.
  destruct (toList net) as [l|]; [|reflexivity].
  destruct (traverse _ l h) as [[newList h1]|]; [|reflexivity].
  destruct (for_each newList rewire h1) as [[[] h2]|]; [|reflexivity].
  destruct net as [cells g0|rows cols cells g0]; cbn [set_generation fromList].
  - reflexivity.
  - destruct (CellGrid_fromList rows cols newList) as [[newCells rest]|]; reflexivity.
Qed.

Lemma tick1_generation (net net' : CellNet) (h h' : heap) :
  tick1 net h = Some (net', h') -> net_generation net' = net_generation net + 1.
Proof.
  intros Htick. apply tick1_class in Htick.
  destruct net; [destruct Htick as [l' ->]|destruct Htick as (cells' & -> & _)]; reflexivity.
Qed.

(** One round on a net whose cells satisfy the invariant at their own
    generation, whatever the counter of the net. *)
Lemma tick1_cells_inv (net : CellNet) (h : heap) (k : Z) :
  cells_inv h net k ->
  exists net' h' l l',
    tick1 net h = Some (net', h') /\
    cells_inv h' net' (k + 1) /\
    net_generation net' = net_generation net + 1 /\
    ext h h' /\
    toList net = Some l /\ toList net' = Some l' /\
    Forall2 (fun c d => descendant <$> h' !! c = Some (Some d)) l l'.
Proof.
  intros Hinv. apply cells_inv_net_inv in Hinv.
  destruct (tick1_inv _ h Hinv)
    as (net1 & h1 & l & l1 & Htick & Hinv1 & _ & Hext & Hl & Hl1 & Hdesc).
  rewrite tick1_set_generation in Htick.
  destruct (tick1 net h) as [[net' h']|] eqn:Hrun; [|discriminate].
  cbn in Htick. injection Htick as <- <-.
  rewrite toList_set_generation in Hl, Hl1.
  exists net', h', l, l1. split; [reflexivity|].
  split; [apply cells_inv_net_inv; exact Hinv1|].
  split; [eapply tick1_generation; exact Hrun|].
  repeat split; assumption.
Qed.

Lemma mapM_Forall {A B} (f : A -> option B) (Q : B -> Prop) (l : list A) :
  Forall (fun a => exists b, f a = Some b /\ Q b) l ->
  exists k, mapM f l = Some k /\ Forall Q k.
Proof.
  induction 1 as [|a l (b & Hb & HQ) _ (k & Hk & Hall)].
  - exists []. split; [reflexivity|constructor].
  - exists (b :: k). cbn [mapM]. rewrite Hb, Hk. split; [reflexivity|].
    constructor; assumption.
Qed.

Section Subscribers.
Import CellViewerController.

Lemma tick_round_Some (net net' : CellNet) (h h' : heap) (bus bus' : Bus) :
  tick_round net (h, bus) = Some (net', (h', bus')) <->
  tick1 net h = Some (net', h') /\ sendMessage h' bus = Some bus'.
Proof.
  unfold tick_round. cbn [fst snd].
  destruct (tick1 net h) as [[net1 h1]|]; [|split; [discriminate|intros [[=] _]]].
  destruct (sendMessage h1 bus) as [bus1|] eqn:Hsend.
  - split; [intros [= <- <- <-]; split; [reflexivity|exact Hsend]|].
    intros [[= <- <-] Hbus]. rewrite Hsend in Hbus. injection Hbus as <-. reflexivity.
  - split; [discriminate|]. intros [[= <- <-] Hbus]. rewrite Hsend in Hbus. discriminate.
Qed.

(** When [tick] returns, the net and the cells are what the rounds without
    their notification make of them. *)
Lemma CellNet_tick_loop_tick (n : nat) :
  forall net h bus net' h' bus',
    CellNet_tick_loop n net (h, bus) = Some (net', (h', bus')) ->
    tick_loop n net h = Some (net', h').
Proof.
  induction n as [|n IH]; intros net h bus net' h' bus'; cbn [CellNet_tick_loop tick_loop].
  - intros [= <- <- <-]. reflexivity.
  - unfold bind at 1. destruct (tick_round net (h, bus)) as [[net1 [h1 bus1]]|] eqn:Hround;
      [|discriminate].
    apply tick_round_Some in Hround as [Htick _]. intros Hrest.
    erewrite se_bind_Some; [|exact Htick]. eapply IH. exact Hrest.
Qed.

(** The subscribers of a list of cells that all have got a descendant are
    served, and then follow the descendants. *)
Lemma sendMessage_follows (h : heap) (l l' : list ref) (bus : Bus) :
  follows l bus ->
  (forall c, c ∈ l -> exists x d y,
     h !! c = Some x /\ descendant x = Some d /\ d ∈ l' /\ h !! d = Some y) ->
  exists bus', sendMessage h bus = Some bus' /\ follows l' bus'.
Proof.
  intros Hbus Hdesc. unfold sendMessage, refreshOnTick, follows.
  apply mapM_Forall. eapply Forall_impl; [exact Hbus|]. intros vs Hvs. cbn.
  apply mapM_Forall. eapply Forall_impl; [exact Hvs|]. intros row Hrow. cbn.
  apply mapM_Forall. eapply Forall_impl; [exact Hrow|]. intros v (c & Hv & Hc). cbn.
  destruct (Hdesc c Hc) as (x & d & y & Hx & Hd & Hin & Hy).
  eexists. split; [apply (rebind_descendant h v c d x y Hv Hx Hd Hy)|].
  exists d. split; [reflexivity|exact Hin].
Qed.

(** [tick] returns when the cells of the net satisfy the invariant and every
    subscribed viewer shows a cell of the net. *)
Lemma CellNet_tick_loop_returns (n : nat) :
  forall net h bus k l,
    cells_inv h net k -> toList net = Some l -> follows l bus ->
    is_Some (CellNet_tick_loop n net (h, bus)).
Proof.
  induction n as [|n IH]; intros net h bus k l Hinv Hl Hbus; cbn [CellNet_tick_loop].
  - eexists. reflexivity.
  - destruct (tick1_cells_inv net h k Hinv)
      as (net1 & h1 & l0 & l1 & Htick & Hinv1 & _ & _ & Hl0 & Hl1 & Hdesc).
    rewrite Hl in Hl0. injection Hl0 as <-.
    destruct (sendMessage_follows h1 l l1 bus Hbus) as (bus1 & Hsend & Hbus1).
    { intros c Hc. apply list_elem_of_lookup in Hc as [i Hi].
      destruct (Forall2_lookup_l _ _ _ _ _ Hdesc Hi) as (d & Hd & Hcd).
      destruct (h1 !! c) as [x|] eqn:Hx; [|discriminate]. cbn in Hcd.
      assert (Hin : d ∈ l1) by (eapply list_elem_of_lookup_2; exact Hd).
      destruct Hinv1 as (l1' & Hl1' & _ & Hmem). rewrite Hl1 in Hl1'. injection Hl1' as <-.
      destruct (Hmem d Hin) as (y & Hy & _).
      exists x, d, y. repeat split; [congruence|exact Hin|exact Hy]. }
    erewrite se_bind_Some; [|apply tick_round_Some; split; [exact Htick|exact Hsend]].
    eapply IH; eassumption.
Qed.

End Subscribers.


Lemma triangle_of_clones_store :
  triangle_of_clones [] = Some (FlatNet [3; 4; 5]%nat 0, clones_store).
Proof. reflexivity. Qed.


(** ** Generations *)







(** ** What [tick] leaves alone *)

(** X12: [tick] never rewrites an object that is there. On a net that
    satisfies the invariant [tick] of any number of generations returns
    whenever every subscribed viewer shows a cell of the net; whenever it
    returns, whoever is subscribed, it has kept the number of cells of the
    net, added one object per cell and generation to the store, and changed
    nothing of an existing object but its descendant link; an object that is
    not a cell of the net keeps that too. *)
Theorem tick_preserves_old_objects (net : CellNet) (h : heap) (g : Z) :
  net_inv h net ->
  (forall bus l, toList net = Some l -> follows l bus ->
     is_Some (CellNet_tick net g (h, bus))) /\
  (forall bus net' h' bus',
     CellNet_tick net g (h, bus) = Some (net', (h', bus')) ->
     exists l l',
       toList net = Some l /\ toList net' = Some l' /\
       length l' = length l /\
       length h' = (length h + Z.to_nat g * length l)%nat /\
       (forall r c, h !! r = Some c -> exists d, h' !! r = Some (with_descendant d c)) /\
       (forall r, r ∉ l -> (r < length h)%nat -> h' !! r = h !! r)).
Proof.
  intros Hinv. split.
  - intros bus l Hl Hbus.
    eapply CellNet_tick_loop_returns; [apply net_inv_cells_inv; exact Hinv|exact Hl|exact Hbus].
  - intros bus net' h' bus' Hrun. apply CellNet_tick_loop_tick in Hrun.
    pose proof Hinv as (l & Hl & _).
    destruct (tick_loop_frame (Z.to_nat g) net h l Hinv Hl)
      as (net'' & h'' & l' & Hloop & Hl' & Hlen & Hlenh & Hext & Hframe).
    rewrite Hrun in Hloop. injection Hloop as <- <-.
    exists l, l'. repeat split; assumption.
Qed.

Lemma tick_preserves_old_objects_witness :
  (forall bus l, toList (FlatNet [0; 1; 2]%nat 0) = Some l -> follows l bus ->
     is_Some (CellNet_tick (FlatNet [0; 1; 2]%nat 0) 3 (triangle_store 1 5 7, bus))) /\
  (forall bus net' h' bus',
     CellNet_tick (FlatNet [0; 1; 2]%nat 0) 3 (triangle_store 1 5 7, bus)
     = Some (net', (h', bus')) ->
     exists l l',
       toList (FlatNet [0; 1; 2]%nat 0) = Some l /\ toList net' = Some l' /\
       length l' = length l /\
       length h' = (length (triangle_store 1 5 7) + Z.to_nat 3 * length l)%nat /\
       (forall r c, triangle_store 1 5 7 !! r = Some c ->
          exists d, h' !! r = Some (with_descendant d c)) /\
       (forall r, r ∉ l -> (r < length (triangle_store 1 5 7))%nat ->
          h' !! r = triangle_store 1 5 7 !! r)).
Proof.
  apply (tick_preserves_old_objects (FlatNet [0; 1; 2]%nat 0) (triangle_store 1 5 7) 3
           (triangle_store_inv 1 5 7)).
Defined.
